(** * Taxonomy service: tree builder, navigator and ranked search

    A shallow embedding of [taxonomy/parser.py], [taxonomy/registry.py],
    [search/searcher.py], [search/stringsimilarity.py] and
    [search/normalizedsearcher.py], followed by the properties of the
    specification, proved or refuted on that embedding.

    Conventions of the embedding.
    - Python strings are [string]; text is read as a sequence of code points
      below 128 (identifiers and names of the taxonomies are plain ASCII).
    - A Python [dict] used as a map ([nodes], [parents], the extra keys of a
      node) is a [gmap].
    - A raised exception is the [Raise] case of [result]; the two
      [ValueError]s of the builder are told apart by their message.
    - A finite float is represented by the rational it denotes and arithmetic
      on finite floats is exact; [NaN] is kept as a value of its own, because
      the scoring code produces it for a query without letters. *)

From Stdlib Require Import Ascii String QArith Qround Lqa.
From Stdlib Require OrderedTypeEx.
From stdpp Require Import base option list sorting gmap strings fin_maps.

#[local] Set Warnings "-clear-no-such-hyp".

Local Open Scope string_scope.
Local Open Scope list_scope.

(** ** Exceptions *)

Module Py.

Inductive message :=
| DuplicateItemId (id : string)
| UnknownParentId (parent_id : string)
| ZeroSizeReduction
| EmptySequence.

Inductive exn :=
| ValidationError
| ValueError (m : message)
| KeyError (key : string)
| AssertionError
| IndexError
| RecursionError.

Inductive result (A : Type) :=
| Ok (a : A)
| Raise (e : exn).

Arguments Ok {A} a.
Arguments Raise {A} e.

Definition bind {A B} (r : result A) (k : A → result B) : result B :=
  match r with
  | Ok a => k a
  | Raise e => Raise e
  end.

End Py.

Import Py.

#[global] Instance result_bind : MBind result := λ A B k r, Py.bind r k.
#[global] Instance result_ret : MRet result := λ A a, Ok a.

(** ** JSON values (opaque metadata) *)

#[local] Unset Elimination Schemes.

Inductive json :=
| JNull
| JBool (b : bool)
| JNum (z : Z)
| JStr (s : string)
| JArr (l : list json)
| JObj (l : list (string * json)).

(** ** taxonomy/parser.py *)

Module Parser.

(** A node of a tree: the keys [id], [name], [metadata] (optional),
    [children] (optional: the key may be absent, or hold a list), and
    [node_other] for any further key (such as [comments]). *)
Inductive node :=
  Node {
    node_id : string;
    node_name : string;
    node_metadata : option json;
    node_other : gmap string json;
    node_children : option (list node)
  }.

#[local] Set Elimination Schemes.

(** A node of the persisted list format. *)
Record item :=
  Item {
    item_id : string;
    item_name : string;
    item_parent_id : option string;
    item_metadata : option json
  }.

(** The document [buildtree] receives. *)
Record generic_tree :=
  GenericTree {
    gt_name : string;
    gt_version : string;
    gt_nodes : list item
  }.

(** The dicts that [_append] creates are shared between [tree] and [nodes];
    each of them is registered in [nodes] under its own id, and the
    duplicate check keeps one object per id, so an object reference is
    modelled by that id and [nodes] is the store. [cell_children] holds
    references. *)
Record cell :=
  Cell {
    cell_name : string;
    cell_metadata : option json;
    cell_children : list string
  }.

Record builder :=
  Builder {
    tree_children : list string;
    nodes : gmap string cell
  }.

Definition empty_builder : builder := Builder [] ∅.

Definition truthy (s : string) : bool :=
  match s with
  | EmptyString => false
  | _ => true
  end.

(** The [parent_id] that [_append] acts on: present and non-empty. *)
Definition effective_parent (it : item) : option string :=
  match item_parent_id it with
  | Some p => if truthy p then Some p else None
  | None => None
  end.

Definition add_child (c : cell) (child : string) : cell :=
  Cell (cell_name c) (cell_metadata c) (cell_children c ++ [child]).

Definition _append (st : builder) (it : item) : result builder :=
  let new_node_id := item_id it in
  let new_node := Cell (item_name it) (item_metadata it) [] in
  match nodes st !! new_node_id with
  | Some _ => Raise (ValueError (DuplicateItemId new_node_id))
  | None =>
      match effective_parent it with
      | Some parent_id =>
          match nodes st !! parent_id with
          | None => Raise (ValueError (UnknownParentId parent_id))
          | Some parent =>
              Ok (Builder (tree_children st)
                    (<[new_node_id := new_node]>
                       (<[parent_id := add_child parent new_node_id]> (nodes st))))
          end
      | None =>
          Ok (Builder (tree_children st ++ [new_node_id])
                (<[new_node_id := new_node]> (nodes st)))
      end
  end.

Fixpoint append_all (st : builder) (l : list item) : result builder :=
  match l with
  | [] => Ok st
  | n :: l' => st' ← _append st n; append_all st' l'
  end.

(** [_discardempty] on the object behind a reference: the node with its
    children read out recursively and the [children] key deleted when the
    list is empty. The recursion follows references, so it is bounded by
    [fuel]. *)
Fixpoint _discardempty (fuel : nat) (store : gmap string cell) (ref : string)
  : option node :=
  match fuel with
  | O => None
  | S fuel' =>
      c ← store !! ref;
      kids ← mapM (_discardempty fuel' store) (cell_children c);
      Some (Node ref (cell_name c) (cell_metadata c) ∅
              (match kids with [] => None | _ => Some kids end))
  end.

Section Buildtree.

(** [taxonomy/schema.json] is not part of the sources: the outcome of
    [jsonschema.validate] is a parameter. *)
Variable validate : generic_tree → bool.

Definition buildtree (items : generic_tree) : result (list node) :=
  if validate items then
    st ← append_all empty_builder (gt_nodes items);
    match mapM (_discardempty (S (length (gt_nodes items))) (nodes st))
               (tree_children st) with
    | None => Raise RecursionError
    | Some [] => Raise (KeyError "children")
    | Some kids => Ok kids
    end
  else Raise ValidationError.

End Buildtree.

(** [current[metadata_field]] when the key is present. *)
Fixpoint node_to_json (n : node) : json :=
  match n with
  | Node i nm md ot ch =>
      JObj ([("id", JStr i); ("name", JStr nm)]
              ++ match md with Some m => [("metadata", m)] | None => [] end
              ++ map_to_list ot
              ++ match ch with
                 | Some l => [("children", JArr (map node_to_json l))]
                 | None => []
                 end)
  end.

Definition node_field (key : string) (n : node) : option json :=
  if String.eqb key "id" then Some (JStr (node_id n))
  else if String.eqb key "name" then Some (JStr (node_name n))
  else if String.eqb key "metadata" then node_metadata n
  else if String.eqb key "children"
       then (λ l, JArr (map node_to_json l)) <$> node_children n
       else node_other n !! key.

Definition children_of (n : node) : list node :=
  default [] (node_children n).

Definition record_parents (id : string) (kids : list node)
  (parents : gmap string string) : gmap string string :=
  foldl (λ p c, <[node_id c := id]> p) parents kids.

Definition generic_node (metadata_field : string)
  (parents : gmap string string) (current : node) : item :=
  Item (node_id current) (node_name current)
       (parents !! node_id current)
       ((λ v, JObj [(metadata_field, v)]) <$> node_field metadata_field current).

(** The [while len(to_visit) > 0] loop; [None] when [fuel] runs out. *)
Fixpoint to_generic_loop (fuel : nat) (metadata_field : string)
  (to_visit : list node) (parents : gmap string string) (acc : list item)
  : option (list item) :=
  match to_visit with
  | [] => Some acc
  | current :: rest =>
      match fuel with
      | O => None
      | S fuel' =>
          to_generic_loop fuel' metadata_field
            (rest ++ children_of current)
            (record_parents (node_id current) (children_of current) parents)
            (acc ++ [generic_node metadata_field parents current])
      end
  end.

Fixpoint node_size (n : node) : nat :=
  match n with
  | Node _ _ _ _ ch =>
      S (match ch with
         | Some l => list_sum (map node_size l)
         | None => 0
         end)
  end.

Definition forest_size (f : list node) : nat := list_sum (map node_size f).

Definition _to_generic_nodes (tree : list node) (metadata_field : string)
  : option (list item) :=
  to_generic_loop (forest_size tree) metadata_field tree ∅ [].

(** What [dump_to_generic_file] writes, and what reading the file back
    gives to [buildtree]. *)
Definition dump_to_generic_file (tree : list node)
  (taxonomy_name taxonomy_version : string) : option generic_tree :=
  GenericTree taxonomy_name taxonomy_version <$> _to_generic_nodes tree "comments".

End Parser.

(** ** taxonomy/registry.py: the navigation functions of [Taxonomy] *)

Module Registry.

Import Parser.

Definition _remove_children (n : node) : node :=
  Node (node_id n) (node_name n) (node_metadata n) (node_other n) None.

(** Pre-order traversal: a node, then its subtree. *)
Fixpoint preorder (child : node) : list node :=
  match child with
  | Node _ _ _ _ ch =>
      child :: match ch with
               | Some l => flat_map preorder l
               | None => []
               end
  end.

Definition _depth_first_traversal (tree : list node) : list node :=
  flat_map preorder tree.

Definition _find_node (tree : list node) (node_id0 : string) : option node :=
  List.find (λ n, String.eqb (node_id n) node_id0) (_depth_first_traversal tree).

Definition _get_immediate_children (n : node) : list node :=
  match node_children n with
  | Some l => map _remove_children l
  | None => []
  end.

Fixpoint count (child : node) : nat :=
  match child with
  | Node _ _ _ _ ch =>
      S (match ch with
         | Some l => list_sum (map count l)
         | None => 0
         end)
  end.

Definition _countnodes (tree : list node) : nat := list_sum (map count tree).

(** Post-order traversal with parents: the subtree of [child] first, with
    [child] as parent, then [child] with its own parent stripped of its
    children. A parent is a dict with an [id], hence truthy. *)
Fixpoint postorder (parent : option node) (child : node)
  : list (node * option node) :=
  match child with
  | Node _ _ _ _ ch =>
      match ch with
      | Some l => flat_map (postorder (Some child)) l
      | None => []
      end ++ [(child, _remove_children <$> parent)]
  end.

Definition _depth_first_traversal_with_parents (tree : list node)
  (parent : option node) : list (node * option node) :=
  flat_map (postorder parent) tree.

(** The body of the [for n, p in ...] loop of [_get_ancestors], as a scan
    of the stream with the loop variable [id_to_find]; the result is the
    list of the yielded values. *)
Fixpoint ancestors_scan (node_id0 id_to_find : string)
  (stream : list (node * option node)) : list node :=
  match stream with
  | [] => []
  | (n, p) :: rest =>
      if String.eqb (node_id n) id_to_find then
        (if String.eqb id_to_find node_id0 then [] else [_remove_children n])
        ++ match p with
           | None => []
           | Some p' => ancestors_scan node_id0 (node_id p') rest
           end
      else ancestors_scan node_id0 id_to_find rest
  end.

Definition _get_ancestors (tree : list node) (node_id0 : string) : list node :=
  ancestors_scan node_id0 node_id0 (_depth_first_traversal_with_parents tree None).

End Registry.

(** ** Floats *)

Module Float.

Inductive float :=
| NaN
| Fin (q : Q).

Definition lift2 (f : Q → Q → Q) (a b : float) : float :=
  match a, b with
  | Fin x, Fin y => Fin (f x y)
  | _, _ => NaN
  end.

Definition sub : float → float → float := lift2 Qminus.
Definition mul : float → float → float := lift2 Qmult.
Definition div : float → float → float := lift2 Qdiv.
Definition neg (a : float) : float :=
  match a with
  | Fin x => Fin (- x)
  | NaN => NaN
  end.

Definition Qltb (x y : Q) : bool := negb (Qle_bool y x).

(** [a < b]: false as soon as one side is [NaN]. *)
Definition ltb (a b : float) : bool :=
  match a, b with
  | Fin x, Fin y => Qltb x y
  | _, _ => false
  end.

(** [np.maximum] and [np.minimum] propagate [NaN]. *)
Definition maximum : float → float → float :=
  lift2 (λ x y, if Qle_bool x y then y else x).
Definition minimum : float → float → float :=
  lift2 (λ x y, if Qle_bool x y then x else y).

(** [a.max()] and [a.min()] of a one-dimensional array. *)
Definition array_max (a : list float) : Py.result float :=
  match a with
  | [] => Py.Raise (Py.ValueError Py.ZeroSizeReduction)
  | x :: a' => Py.Ok (foldl maximum x a')
  end.

Definition array_min (a : list float) : Py.result float :=
  match a with
  | [] => Py.Raise (Py.ValueError Py.ZeroSizeReduction)
  | x :: a' => Py.Ok (foldl minimum x a')
  end.

(** The order of a stable [argsort] on floats: [NaN] goes last. *)
Definition sort_leb (a b : float) : bool :=
  match a, b with
  | Fin x, Fin y => Qle_bool x y
  | _, NaN => true
  | NaN, Fin _ => false
  end.

(** Rounding to the nearest integer, halves to the even one. *)
Definition rint (x : Q) : Z :=
  let f := Qfloor x in
  match (x - inject_Z f ?= 1 # 2)%Q with
  | Lt => f
  | Gt => (f + 1)%Z
  | Eq => if Z.even f then f else (f + 1)%Z
  end.

(** [round(x, 3)] *)
Definition round3 (a : float) : float :=
  match a with
  | Fin x => Fin (inject_Z (rint (x * 1000)) / 1000)
  | NaN => NaN
  end.

End Float.

(** ** search/stringsimilarity.py *)

Module StringSimilarity.

Import Float.

Definition is_letter (c : ascii) : bool :=
  let n := nat_of_ascii c in
  ((65 <=? n)%nat && (n <=? 90)%nat) || ((97 <=? n)%nat && (n <=? 122)%nat).

Definition flush (word : string) : list string :=
  match word with
  | EmptyString => []
  | _ => [word]
  end.

(** [re.split] on every character that is not a letter, without the empty
    pieces; [word] is the piece being read. *)
Fixpoint split_from (word : string) (name : string) : list string :=
  match name with
  | EmptyString => flush word
  | String c rest =>
      if is_letter c then split_from (word +:+ String c EmptyString) rest
      else flush word ++ split_from EmptyString rest
  end.

Definition splitwords (name : string) : list string := split_from EmptyString name.

Definition Qmax (x y : Q) : Q := if Qle_bool x y then y else x.

(** [max(f2(n, c) for c in names2)] *)
Definition max_of (l : list Q) : Py.result Q :=
  match l with
  | [] => Py.Raise (Py.ValueError Py.EmptySequence)
  | x :: l' => Py.Ok (foldl Qmax x l')
  end.

Definition Qsum (l : list Q) : Q := foldr Qplus 0%Q l.

Section Similarity.

(** [Levenshtein.jaro_winkler] and the float power [x ** (1 / 4)] come from
    libraries: both are parameters. *)
Variable f2 : string → string → Q.
Variable root4 : Q → Q.

(** [(np.asarray(a) ** 4).mean() ** (1 / 4)]; the mean of an empty array
    is [nan]. *)
Definition cmpsplits (names1 names2 : list string) : Py.result float :=
  a ← mapM (λ n, max_of (map (f2 n) names2)) names1;
  match a with
  | [] => Py.Ok NaN
  | _ => Py.Ok (Fin (root4 (Qsum (map (λ x, x ^ 4)%Q a)
                               / inject_Z (Z.of_nat (length a)))))
  end.

Definition cmdsplitsarray_split_names (name : string)
  (split_names : list (list string)) : Py.result (list float) :=
  let names1 := splitwords name in
  mapM (cmpsplits names1) split_names.

Definition score_jaro_winkler_split_names := cmdsplitsarray_split_names.

End Similarity.

End StringSimilarity.

(** ** search/searcher.py *)

Module Searcher.

Import Float StringSimilarity.

Definition casefold (c : ascii) : ascii :=
  let n := nat_of_ascii c in
  if (65 <=? n)%nat && (n <=? 90)%nat then ascii_of_nat (n + 32) else c.

(** [s.casefold().encode("ascii", "ignore").decode().replace("-", "")] *)
Fixpoint normalizestring (s : string) : string :=
  match s with
  | EmptyString => EmptyString
  | String c rest =>
      if (128 <=? nat_of_ascii c)%nat || Ascii.eqb c "-"%char
      then normalizestring rest
      else String (casefold c) (normalizestring rest)
  end.

(** [levels]: two characters are taken from the left at each call; a
    string of one character is its own last piece. *)
Fixpoint levels (id : string) : nat :=
  match id with
  | EmptyString => 0
  | String c1 EmptyString =>
      (if String.eqb (String c1 EmptyString) "00" then 0 else 1) + 0
  | String c1 (String c2 rest) =>
      (if String.eqb (String c1 (String c2 EmptyString)) "00" then 0 else 1)
      + levels rest
  end.

Definition penalty_of (id : string) : Q :=
  ((3 # 100) * inject_Z (Z.of_nat (levels id)))%Q.

(** A stable sort of rows by a key, as [rows[np.argsort(key[rows],
    kind="stable")]] computes it: insertion from the right keeps rows with
    equal keys in the order they had. *)
Section Argsort.

Context {K : Type} (leb : K → K → bool) (key : nat → K).

Fixpoint insert_row (x : nat) (rows : list nat) : list nat :=
  match rows with
  | [] => [x]
  | y :: rows' =>
      if leb (key x) (key y) then x :: rows else y :: insert_row x rows'
  end.

Fixpoint argsort_stable (rows : list nat) : list nat :=
  match rows with
  | [] => []
  | x :: rows' => insert_row x (argsort_stable rows')
  end.

End Argsort.

(** [a[:n]] *)
Definition slice_to {A} (n : Z) (a : list A) : list A :=
  if (0 <=? n)%Z then take (Z.to_nat n) a
  else take (Z.to_nat (Z.of_nat (length a) + n)) a.

Record searcher :=
  Build {
    ids : list string;
    names : list string;
    split_names : list (list string);
    penalty : list Q;
    vectors : bool;
    use_textsim : bool
  }.

(** [a[mask]] for a boolean mask of the length of [a]. *)
Definition select {A} (a : list A) (mask : list bool) : list A :=
  (filter (λ p, p.2 = true) (zip a mask)).*1.

Definition __init__ (ids0 names0 : list string) (use_nlp use_textsim0 : bool)
  : Py.result searcher :=
  let names1 := map normalizestring names0 in
  let split_names0 := map splitwords names1 in
  let nonempty := map (λ s, (0 <? length s)%nat) split_names0 in
  if (length ids0 =? length nonempty)%nat then
    let ids1 := select ids0 nonempty in
    Py.Ok (Build ids1 (select names1 nonempty) (select split_names0 nonempty)
             (map penalty_of ids1) use_nlp use_textsim0)
  else Py.Raise Py.IndexError.

Section Call.

(** The embedding model and the string metric are libraries: the cosine
    similarity of a query with a document name, the Jaro-Winkler similarity
    and the float power [x ** (1 / 4)] are parameters. *)
Variable similarity : string → string → Q.
Variable jaro_winkler : string → string → Q.
Variable root4 : Q → Q.

Definition score_nlp (s : searcher) (name : string) : list float :=
  if (String.length name <? 3)%nat || negb (vectors s)
  then map (λ _, Fin 0) (names s)
  else map (λ d, maximum (Fin 0) (Fin (similarity name d))) (names s).

(** Lines 155 to 164: the scores of all rows, thresholded and with the
    penalty subtracted. *)
Definition combined_scores (s : searcher) (name : string)
  : Py.result (list float) :=
  let scores := score_nlp s name in
  if use_textsim s then
    lex ← score_jaro_winkler_split_names jaro_winkler root4 name (split_names s);
    Py.Ok (zip_with maximum scores (map (λ x, mul x x) lex))
  else Py.Ok scores.

Definition apply_threshold (threshold : Q) (scores : list float) : list float :=
  map (λ x, if ltb x (Fin threshold) then Fin (-1) else x) scores.

Definition subtract_penalty (scores : list float) (pen : list Q) : list float :=
  zip_with (λ x p, sub x (Fin p)) scores pen.

Definition at_row {A} (d : A) (a : list A) (row : nat) : A := nth row a d.

(** Lines 171 to 173: the three stable sorts. *)
Definition ranked_rows (s : searcher) (scores : list float) : list nat :=
  let best_rows := argsort_stable String.leb (at_row "" (ids s))
                     (seq 0 (length (ids s))) in
  let best_rows := argsort_stable String.leb (at_row "" (names s)) best_rows in
  argsort_stable sort_leb (λ row, neg (at_row NaN scores row)) best_rows.

(** Lines 175 to 178. *)
Definition cut_rows (scores : list float) (n : Z) (relative_threshold : Q)
  (best_rows : list nat) : Py.result (list nat) :=
  let best_rows := slice_to n best_rows in
  top ← array_max scores;
  let best_rows :=
    filter (λ row, ltb (mul top (Fin relative_threshold)) (at_row NaN scores row) = true)
           best_rows in
  Py.Ok (filter (λ row, ltb (Fin 0) (at_row NaN scores row) = true) best_rows).

(** The rows that [__call__] returns and the array [scores] they index. *)
Definition best_rows (s : searcher) (name : string) (n : Z)
  (threshold relative_threshold : Q) : Py.result (list nat * list float) :=
  scores ← combined_scores s name;
  let scores := apply_threshold threshold scores in
  let scores := subtract_penalty scores (penalty s) in
  rows ← cut_rows scores n relative_threshold (ranked_rows s scores);
  Py.Ok (rows, scores).

Definition __call__ (s : searcher) (name : string) (n : Z)
  (threshold relative_threshold : Q)
  : Py.result (list string * list string * list float) :=
  let name := normalizestring name in
  if String.eqb name "" then Py.Ok ([], [], [])
  else
    '(rows, scores) ← best_rows s name n threshold relative_threshold;
    Py.Ok (map (at_row "" (ids s)) rows,
           map (at_row "" (names s)) rows,
           map (at_row NaN scores) rows).

End Call.

End Searcher.

(** ** search/normalizedsearcher.py *)

Module NormalizedSearcher.

Import Float Parser.

Record normalized_searcher :=
  Build {
    docs : list node;
    searcher : Searcher.searcher
  }.

Definition __init__ (N : list node) (use_nlp use_textsim : bool)
  : Py.result normalized_searcher :=
  s ← Searcher.__init__ (map node_id N) (map node_name N) use_nlp use_textsim;
  Py.Ok (Build N s).

Definition lookup (self : normalized_searcher) (id : string) : Py.result node :=
  let D := filter (λ n, node_id n = id) (docs self) in
  let D := match D with
           | d0 :: _ :: _ =>
               if String.eqb (node_name d0) "Uncategorized" then [d0] else D
           | _ => D
           end in
  match D with
  | [d] => Py.Ok d
  | _ => Py.Raise Py.AssertionError
  end.

(** The value under the key [score] of a response: the rounded score,
    unless the record has a key [score] of its own, which [S.update(obj)]
    puts in its place. *)
Inductive score_value :=
| Rounded (x : float)
| FromRecord (j : json).

Record response :=
  Response {
    resp_score : score_value;
    resp_record : node
  }.

Definition buildResponse (obj : node) (score : float) : response :=
  Response (match node_other obj !! "score" with
            | Some j => FromRecord j
            | None => Rounded (round3 score)
            end) obj.

Definition rescale (scores : list float) : Py.result (list float) :=
  if (0 <? length scores)%nat then
    hi ← array_max scores;
    lo ← array_min scores;
    if ltb (Fin 0) (sub hi lo)
    then Py.Ok (map (λ x, div (sub x lo) (sub hi lo)) scores)
    else Py.Ok scores
  else Py.Ok scores.

Section Call.

Variable similarity : string → string → Q.
Variable jaro_winkler : string → string → Q.
Variable root4 : Q → Q.

Definition __call__ (self : normalized_searcher) (text : string)
  (max_results : Z) (threshold : Q) : Py.result (list response) :=
  '(ids, names, scores) ←
     Searcher.__call__ similarity jaro_winkler root4 (searcher self)
       text max_results threshold (8 # 10);
  scores ← rescale scores;
  mapM (λ p, obj ← lookup self p.1; Py.Ok (buildResponse obj p.2))
       (zip ids scores).

End Call.

End NormalizedSearcher.

(** ** Exceptions of the other modules

    Each of the modules below has its own exceptions; [outcome E] is a
    result that may be an exception of the type [E]. *)

Module Exc.

Inductive outcome (E A : Type) :=
| Return (a : A)
| Throw (e : E).

Arguments Return {E A} a.
Arguments Throw {E A} e.

Definition bind {E A B} (r : outcome E A) (k : A → outcome E B) : outcome E B :=
  match r with
  | Return a => k a
  | Throw e => Throw e
  end.

End Exc.

#[global] Instance outcome_bind {E} : MBind (Exc.outcome E) :=
  λ A B k r, Exc.bind r k.
#[global] Instance outcome_ret {E} : MRet (Exc.outcome E) := λ A a, Exc.Return a.

(** ** search/searcher.py: [memoize] and [invert_permutation] *)

Module SearcherHelpers.

Section Memoize.

Context {K V W : Type} `{Countable K}.

(** The memoized function may act on the world [W] (it loads a model) and
    may raise; [results] is the dict of the closure. *)
Variable f : K → W → Py.result V * W.

Definition helper (n : K) (st : gmap K V * W) : Py.result V * (gmap K V * W) :=
  let '(results, w) := st in
  match results !! n with
  | Some v => (Py.Ok v, (results, w))
  | None =>
      match f n w with
      | (Py.Ok v, w') => (Py.Ok v, (<[n := v]> results, w'))
      | (Py.Raise e, w') => (Py.Raise e, (results, w'))
      end
  end.

End Memoize.

(** The position that the index [k] denotes in an array of [n] cells:
    negative indices count from the end. *)
Definition position (n : nat) (k : Z) : option nat :=
  if (0 <=? k)%Z && (k <? Z.of_nat n)%Z then Some (Z.to_nat k)
  else if (- Z.of_nat n <=? k)%Z && (k <? 0)%Z then Some (Z.to_nat (Z.of_nat n + k))
  else None.

(** [inv = np.empty_like(keys); inv[keys] = np.arange(len(inv))]: a cell
    that no key points at keeps whatever the memory held ([None]); when
    several keys point at a cell the last assignment stays. *)
Definition invert_permutation (keys : list Z) : Py.result (list (option Z)) :=
  let n := length keys in
  match mapM (position n) keys with
  | None => Py.Raise Py.IndexError
  | Some cells =>
      Py.Ok (foldl (λ inv ci, <[ci.1 := Some (Z.of_nat ci.2)]> inv)
               (replicate n None) (zip cells (seq 0 n)))
  end.

End SearcherHelpers.

(** ** taxonomy/registry.py: the class [Taxonomy] *)

Module Taxonomy.

Import Parser Registry.

Record taxonomy :=
  Build {
    name : string;
    version : string;
    tree : list node;
    _searcher : NormalizedSearcher.normalized_searcher
  }.

Section Init.

Variable validate : generic_tree → bool.

Definition __init__ (data : generic_tree) : Py.result taxonomy :=
  tree0 ← buildtree validate data;
  s ← NormalizedSearcher.__init__
         (map _remove_children (_depth_first_traversal tree0)) true true;
  Py.Ok (Build (gt_name data) (gt_version data) tree0 s).

End Init.

(** The dict that [get_node] returns: empty, or with the keys [parents],
    [node] and [children]. *)
Inductive node_reply :=
| EmptyReply
| NodeReply (parents : list node) (this : node) (children : list node).

(** A node is a dict with an [id], hence truthy. *)
Definition get_node (self : taxonomy) (node_id : string) : node_reply :=
  match _find_node (tree self) node_id with
  | Some node =>
      NodeReply (rev (_get_ancestors (tree self) node_id))
                (_remove_children node)
                (_get_immediate_children node)
  | None => EmptyReply
  end.

(** The value of the key [branch] of the dict that [get_branch] returns. *)
Definition get_branch (self : taxonomy) (node_id : option string) : list node :=
  match node_id with
  | None => map _remove_children (tree self)
  | Some id =>
      match _find_node (tree self) id with
      | Some node => _get_immediate_children node
      | None => []
      end
  end.

Definition nodecount (self : taxonomy) : nat := _countnodes (tree self).

Section Search.

Variable similarity : string → string → Q.
Variable jaro_winkler : string → string → Q.
Variable root4 : Q → Q.

Definition search (self : taxonomy) (query : string) (max_results : Z)
  : Py.result (list NormalizedSearcher.response) :=
  NormalizedSearcher.__call__ similarity jaro_winkler root4 (_searcher self)
    query max_results (7 # 10).

End Search.

End Taxonomy.

(** ** taxonomy/registry.py: the class [Registry] *)

Module TaxonomyRegistry.

Import Exc Taxonomy.

Inductive error :=
| Loading (e : Py.exn)
| TaxonomyDoesNotExist (id : string)
| VersionDoesNotExist (version id : string)
| NoVersion
| MissingKey (key : string).

Record registry :=
  Registry {
    _taxonomies : gmap string (gmap string taxonomy);
    _last_load_time : Z
  }.

(** The order of Python on strings of code points below 128. *)
Definition string_le (a b : string) : Prop := String.leb a b = true.

#[global] Instance string_le_dec : RelDecision string_le.
Proof. intros a b. unfold string_le. apply _. Defined.

(** [sorted(d.keys())] *)
Definition sorted_keys {A} (d : gmap string A) : list string :=
  merge_sort string_le (elements (dom d)).

Definition available_taxonomies (self : registry)
  : Z * gmap string (list string) :=
  (_last_load_time self, sorted_keys <$> _taxonomies self).

Definition get (self : registry) (id version : string) : outcome error taxonomy :=
  match _taxonomies self !! id with
  | None => Throw (TaxonomyDoesNotExist id)
  | Some versions =>
      if Parser.truthy version && negb (bool_decide (version ∈ dom versions))
      then Throw (VersionDoesNotExist version id)
      else
        version ← (if Parser.truthy version then Return version
                   else match last (sorted_keys versions) with
                        | Some v => Return v
                        | None => Throw NoVersion
                        end);
        match versions !! version with
        | Some t => Return t
        | None => Throw (MissingKey version)
        end
  end.

Section Load.

Variable validate : Parser.generic_tree → bool.

(** The loop of [_parse_data_sources] over the documents that the data
    source has loaded. *)
Fixpoint register (taxonomies : gmap string (gmap string taxonomy))
  (documents : list Parser.generic_tree)
  : outcome error (gmap string (gmap string taxonomy)) :=
  match documents with
  | [] => Return taxonomies
  | data :: rest =>
      match Taxonomy.__init__ validate data with
      | Py.Raise e => Throw (Loading e)
      | Py.Ok t =>
          let versions := default ∅ (taxonomies !! name t) in
          let versions := <[version t := t]> versions in
          register (<[name t := versions]> taxonomies) rest
      end
  end.

Definition _parse_data_sources (documents : list Parser.generic_tree)
  : outcome error (gmap string (gmap string taxonomy)) :=
  register ∅ documents.

(** [reload_data_sources] at the time [now]: both fields are assigned
    when every document loads; an exception leaves the registry as it
    is. *)
Definition reload_data_sources (self : registry) (now : Z)
  (documents : list Parser.generic_tree) : outcome error unit * registry :=
  match _parse_data_sources documents with
  | Return taxonomies => (Return (), Registry taxonomies now)
  | Throw e => (Throw e, self)
  end.

Definition __init__ (now : Z) (documents : list Parser.generic_tree)
  : outcome error registry :=
  taxonomies ← _parse_data_sources documents;
  Return (Registry taxonomies now).

End Load.

End TaxonomyRegistry.

(** ** application.py: the routes of the tree *)

Module Application.

Import Exc Taxonomy TaxonomyRegistry.

Inductive error :=
| NotFound
| Uncaught (e : TaxonomyRegistry.error).

Definition lift {A} (r : outcome TaxonomyRegistry.error A) : outcome error A :=
  match r with
  | Return a => Return a
  | Throw e => Throw (Uncaught e)
  end.

(** [value or abort(404)] *)
Definition or_abort {A} (truthy : A → bool) (value : A) : outcome error A :=
  if truthy value then Return value else Throw NotFound.

Definition reply_truthy (r : node_reply) : bool :=
  match r with
  | EmptyReply => false
  | NodeReply _ _ _ => true
  end.

(** The dict of [get_branch] holds the key [branch]: it is not empty. *)
Definition branch_truthy (branch : list Parser.node) : bool := true.

Section Routes.

Variable registry : TaxonomyRegistry.registry.

Definition taxonomy_tree (taxonomy version : string)
  : outcome error (list Parser.node) :=
  t ← lift (get registry taxonomy version);
  Return (tree t).

Definition taxonomy_tree_unversioned (taxonomy : string) :=
  taxonomy_tree taxonomy "".

Definition taxonomy_branch (taxonomy version : string) (node_id : option string)
  : outcome error (list Parser.node) :=
  t ← lift (get registry taxonomy version);
  or_abort branch_truthy (get_branch t node_id).

Definition taxonomy_branch_unversioned (taxonomy node_id : string) :=
  taxonomy_branch taxonomy "" (Some node_id).

Definition taxonomy_branch_root_unversioned (taxonomy : string) :=
  taxonomy_branch taxonomy "" None.

Definition taxonomy_node (taxonomy version node_id : string)
  : outcome error node_reply :=
  t ← lift (get registry taxonomy version);
  or_abort reply_truthy (get_node t node_id).

Definition taxonomy_node_unversioned (taxonomy node_id : string) :=
  taxonomy_node taxonomy "" node_id.

End Routes.

End Application.

(** * Notions used to state the properties *)

Module Notions.

Import Float StringSimilarity Searcher Parser Registry.

(** ** Ids *)


(** ** Builder *)

(** What [_append] answers for an item when [seen] holds the registered
    ids: the check of the id comes first, then the check of the parent. *)
Definition offence (seen : gset string) (it : item) : option Py.message :=
  if decide (item_id it ∈ seen) then Some (Py.DuplicateItemId (item_id it))
  else match effective_parent it with
       | Some p =>
           if decide (p ∈ seen) then None else Some (Py.UnknownParentId p)
       | None => None
       end.

(** The complaint about the first item of the list that has one. *)
Fixpoint first_offence (seen : gset string) (l : list item) : option Py.message :=
  match l with
  | [] => None
  | it :: l' =>
      match offence seen it with
      | Some m => Some m
      | None => first_offence ({[item_id it]} ∪ seen) l'
      end
  end.

Definition item_ids (l : list item) : list string := map item_id l.

(** Two nodes of the list share an id. *)
Definition shares_id (l : list item) : Prop :=
  ∃ i j a b, i < j ∧ l !! i = Some a ∧ l !! j = Some b ∧ item_id a = item_id b.

(** A node carries a non-empty [parent_id] that no earlier node declares. *)
Definition undeclared_parent (l : list item) : Prop :=
  ∃ j b p, l !! j = Some b ∧ effective_parent b = Some p
           ∧ (p ∉ item_ids (take j l)).

Definition fails_with_duplicate (r : Py.result (list node)) : Prop :=
  ∃ id, r = Py.Raise (Py.ValueError (Py.DuplicateItemId id)).

Definition fails_with_unknown_parent (r : Py.result (list node)) : Prop :=
  ∃ p, r = Py.Raise (Py.ValueError (Py.UnknownParentId p)).

(** The ids of the items whose acting parent is [k], and of the items
    without one, in the order of the list. *)
Definition children_ids (l : list item) (k : string) : list string :=
  item_ids (filter (λ c, effective_parent c = Some k) l).

Definition root_ids (l : list item) : list string :=
  item_ids (filter (λ c, effective_parent c = None) l).

(** The store that [append_all] builds from the items [l]. *)
Definition cell_for (l : list item) (it : item) : cell :=
  Cell (item_name it) (item_metadata it) (children_ids l (item_id it)).

Definition represents (l : list item) (st : builder) : Prop :=
  tree_children st = root_ids l
  ∧ ∀ it, it ∈ l → nodes st !! item_id it = Some (cell_for l it).

Definition parents_declared (l : list item) : Prop :=
  ∀ c p, c ∈ l → effective_parent c = Some p → p ∈ item_ids l.

(** ** The tree as a sequence of insertions *)

(** The node that [_append] creates for an item, once read out: no
    [children] yet, and no key besides [id], [name] and [metadata]. *)
Definition leaf_of (it : item) : node :=
  Node (item_id it) (item_name it) (item_metadata it) ∅ None.

(** [new] becomes the last child of the node whose id is [p]; with no [p]
    the node is left as it is. *)
Fixpoint graft (p : option string) (new : node) (n : node) : node :=
  match n with
  | Node i nm md ot ch =>
      let below := match ch with
                   | Some l => map (graft p new) l
                   | None => []
                   end in
      Node i nm md ot
        (if decide (p = Some i) then Some (below ++ [new])
         else match ch with
              | Some _ => Some below
              | None => None
              end)
  end.

(** The nodes that grafting adds next to a node, and the nodes of a
    grafted forest. *)
Definition grafted_at (p : option string) (new : node) (n : node) : list node :=
  if decide (p = Some (node_id n)) then preorder new else [].

Definition graft_spec (p : option string) (new : node) (f : list node) : Prop :=
  _depth_first_traversal (map (graft p new) f)
  ≡ₚ map (graft p new) (_depth_first_traversal f)
     ++ flat_map (grafted_at p new) (_depth_first_traversal f).

(** One item more: under its parent, or as the last top-level node. *)
Definition attach (f : list node) (it : item) : list node :=
  map (graft (effective_parent it) (leaf_of it)) f
  ++ match effective_parent it with
     | Some _ => []
     | None => [leaf_of it]
     end.

Definition assembled (l : list item) : list node := foldl attach [] l.

(** The node of a tree that stands for an item of the list [l]. *)
Definition stands_for (l : list item) (it : item) (n : node) : Prop :=
  node_id n = item_id it
  ∧ node_name n = item_name it
  ∧ node_metadata n = item_metadata it
  ∧ node_other n = ∅
  ∧ map node_id (children_of n) = children_ids l (item_id it)
  ∧ node_children n ≠ Some [].

(** ** Navigator *)

Definition forest_ids (f : list node) : list string :=
  map node_id (_depth_first_traversal f).

Definition kids (ch : option (list node)) : list node :=
  match ch with
  | Some l => l
  | None => []
  end.

Definition stream_ids (s : list (node * option node)) : list string :=
  map (λ x, node_id x.1) s.

(** ** Flattening *)

(** The queue of [_to_generic_nodes] with, next to each node, the entry of
    [parents] for its id. *)
Definition annotate (p : option string) (f : list node)
  : list (option string * node) :=
  map (λ c, (p, c)) f.

Definition as_item (metadata_field : string) (pn : option string * node) : item :=
  Item (node_id pn.2) (node_name pn.2) pn.1
       ((λ v, JObj [(metadata_field, v)]) <$> node_field metadata_field pn.2).

(** The items written for an annotated queue, breadth first. *)
Fixpoint bfs_items (fuel : nat) (metadata_field : string)
  (queue : list (option string * node)) : list item :=
  match fuel, queue with
  | S fuel', pn :: rest =>
      as_item metadata_field pn
      :: bfs_items fuel' metadata_field
           (rest ++ annotate (Some (node_id pn.2)) (children_of pn.2))
  | _, _ => []
  end.

(** The items written for a tree. *)
Definition flat (metadata_field : string) (tree : list node) : list item :=
  bfs_items (forest_size tree) metadata_field (annotate None tree).

(** The ids of the nodes of a queue with the entry [a], and of the items
    with the parent [a]. *)
Definition top_ids (a : option string) (queue : list (option string * node))
  : list string :=
  map (λ pn, node_id pn.2) (filter (λ pn, pn.1 = a) queue).

Definition by_parent (a : option string) (items : list item) : list string :=
  item_ids (filter (λ c, item_parent_id c = a) items).

(** The ids of the children of the nodes whose id is [a]. *)
Definition kid_ids (a : option string) (f : list node) : list string :=
  match a with
  | Some k =>
      flat_map (λ t, if decide (node_id t = k)
                     then map node_id (children_of t) else [])
               (_depth_first_traversal f)
  | None => []
  end.

(** The tree that building the flattened list gives back: ids, names and
    children as they were; the metadata is the value of the key
    [metadata_field] of the node, under that key, when the node has it,
    and no other key is carried over. *)
Fixpoint rebuilt (metadata_field : string) (n : node) : node :=
  match n with
  | Node i nm md ot ch =>
      Node i nm
        ((λ v, JObj [(metadata_field, v)]) <$> node_field metadata_field n)
        ∅
        (match ch with
         | Some l => Some (map (rebuilt metadata_field) l)
         | None => None
         end)
  end.

(** A taxonomy tree: the ids are distinct, no [children] list is empty,
    and a node with children has a non-empty id. *)
Definition well_formed_tree (f : list node) : Prop :=
  NoDup (forest_ids f)
  ∧ ∀ t, t ∈ _depth_first_traversal f →
         node_children t ≠ Some [] ∧ (node_children t ≠ None → node_id t ≠ "").

(** No node carries metadata or a further key. *)
Definition plain_tree (f : list node) : Prop :=
  ∀ t, t ∈ _depth_first_traversal f → node_metadata t = None ∧ node_other t = ∅.

(** The path from the node with id [target] up to the top of the tree that
    holds it: the node itself first, its parent next, a root last. *)
Fixpoint locate (target : string) (n : node) : option (list node) :=
  match n with
  | Node i _ _ _ ch =>
      if String.eqb i target then Some [n]
      else match ch with
           | Some l =>
               (λ path, (path ++ [n])%list) <$>
               (fix first (l : list node) : option (list node) :=
                  match l with
                  | [] => None
                  | c :: l' =>
                      match locate target c with
                      | Some path => Some path
                      | None => first l'
                      end
                  end) l
           | None => None
           end
  end.

Definition locate_in (target : string) : list node → option (list node) :=
  fix first (l : list node) : option (list node) :=
    match l with
    | [] => None
    | c :: l' =>
        match locate target c with
        | Some path => Some path
        | None => first l'
        end
    end.

(** The ancestors of the node with id [target], nearest first, each
    without its children; none when the node is a root or absent. *)
Definition ancestors (tree : list node) (target : string) : list node :=
  match locate_in target tree with
  | Some (_ :: up) => map _remove_children up
  | _ => []
  end.

(** Each node of the path is a child of the node that follows it. *)
Fixpoint climbs (path : list node) : Prop :=
  match path with
  | a :: rest =>
      match rest with
      | b :: _ => a ∈ children_of b ∧ climbs rest
      | [] => True
      end
  | [] => True
  end.

(** A located path climbs from the node looked for to the top, through
    nodes of the tree. *)
Definition locate_node_climbs (c : node) : Prop :=
  ∀ t path, locate t c = Some path →
            climbs path ∧ last path = Some c
            ∧ Forall (λ x, x ∈ preorder c) path.

(** A list of ids follows the parent references of the items [l]: each id
    is the id of an item whose acting parent is the next id, and the last
    id is the id of an item without parent. *)
Definition lineage (l : list item) (ids : list string) : Prop :=
  (∀ k a b, ids !! k = Some a → ids !! S k = Some b →
            ∃ c, c ∈ l ∧ item_id c = a ∧ effective_parent c = Some b)
  ∧ ∃ r c, last ids = Some r ∧ c ∈ l ∧ item_id c = r
           ∧ effective_parent c = None.

(** An element of the stream holds a node with its direct parent: a node
    of the forest [f] with the parent [par] of the forest, or a child of a
    node of [f] with that node; the parent comes without its children. *)
Definition with_direct_parent (f : list node) (par : option node)
  (x : node * option node) : Prop :=
  (x.1 ∈ f ∧ x.2 = _remove_children <$> par)
  ∨ ∃ q, q ∈ _depth_first_traversal f
         ∧ x.1 ∈ children_of q
         ∧ x.2 = Some (_remove_children q).

(** What the loop of [_get_ancestors] yields for a matched node, and how
    it goes on. *)
Definition yielded (node_id0 : string) (n : node) : list node :=
  if String.eqb (node_id n) node_id0 then [] else [_remove_children n].

Definition go_on (node_id0 : string) (par : option node)
  (rest : list (node * option node)) : list node :=
  match par with
  | None => []
  | Some p => ancestors_scan node_id0 (node_id p) rest
  end.

(** The scan of the stream of a forest, for any id looked for: nothing
    happens when the forest lacks the id; otherwise the nodes on the way up
    to the top of the forest are matched in turn, and the scan goes on with
    the parent of the forest. *)
Definition scan_forest_spec (l : list node) : Prop :=
  ∀ par rest node_id0 t,
    NoDup (forest_ids l) →
    (∀ p, par = Some p → node_id p ∉ forest_ids l) →
    ancestors_scan node_id0 t (flat_map (postorder par) l ++ rest)
    = match locate_in t l with
      | None => ancestors_scan node_id0 t rest
      | Some path => flat_map (yielded node_id0) path ++ go_on node_id0 par rest
      end.

Definition scan_node_spec (c : node) : Prop :=
  ∀ par rest node_id0 t,
    NoDup (map node_id (preorder c)) →
    ancestors_scan node_id0 t (postorder par c ++ rest)
    = match locate t c with
      | None => ancestors_scan node_id0 t rest
      | Some path => flat_map (yielded node_id0) path ++ go_on node_id0 par rest
      end.

(** The head of a located path is the node looked for; the nodes above it
    have other ids. *)
Definition locate_node_shape (c : node) : Prop :=
  ∀ t path,
    NoDup (map node_id (preorder c)) → locate t c = Some path →
    ∃ x up, path = x :: up ∧ node_id x = t
            ∧ t ∈ map node_id (preorder c)
            ∧ Forall (λ y, node_id y ≠ t) up.

(** The tree of the docstrings of [registry.py], with any names. *)
Definition leaf (id name : string) : node := Node id name None ∅ None.

Definition example_tree (a b c d e : string) : list node :=
  [Node "1" a None ∅
     (Some [Node "2" b None ∅ (Some [leaf "3" c]); leaf "4" d]);
   leaf "5" e].

(** ** The registry *)

(** The taxonomy registered under a name and a version. *)
Definition registered (taxonomies : gmap string (gmap string Taxonomy.taxonomy))
  (id version : string) : option Taxonomy.taxonomy :=
  versions ← taxonomies !! id; versions !! version.

(** A document carries a name and a version. *)
Definition carries (id version : string) (data : generic_tree) : Prop :=
  gt_name data = id ∧ gt_version data = version.

#[global] Instance carries_dec id version data : Decision (carries id version data).
Proof. unfold carries. apply _. Defined.

(** The taxonomy of a document, when [Taxonomy(data)] does not raise. *)
Definition loaded (validate : generic_tree → bool) (data : generic_tree)
  : option Taxonomy.taxonomy :=
  match Taxonomy.__init__ validate data with
  | Py.Ok t => Some t
  | Py.Raise _ => None
  end.

(** ** Words *)

Fixpoint only_letters (w : string) : bool :=
  match w with
  | EmptyString => true
  | String c rest => is_letter c && only_letters rest
  end.

Fixpoint letters_of (s : string) : string :=
  match s with
  | EmptyString => EmptyString
  | String c rest =>
      if is_letter c then String c (letters_of rest) else letters_of rest
  end.

(** A word as [splitwords] yields them. *)
Definition word (w : string) : Prop := w ≠ "" ∧ only_letters w = true.

(** A character that [normalizestring] lets through as it is. *)
Definition normal_char (c : ascii) : Prop :=
  (nat_of_ascii c < 128)%nat
  ∧ c ≠ "-"%char
  ∧ ¬ (65 ≤ nat_of_ascii c ≤ 90)%nat.

Fixpoint chars (s : string) : list ascii :=
  match s with
  | EmptyString => []
  | String c rest => c :: chars rest
  end.

(** ** Search results *)

(** The records of the document set that carry the id, in document order. *)
Definition matches (self : NormalizedSearcher.normalized_searcher) (id : string)
  : list node :=
  filter (λ n, node_id n = id) (NormalizedSearcher.docs self).

(** An index as [__init__] leaves it. *)
Definition well_formed (s : searcher) : Prop :=
  penalty s = map penalty_of (ids s)
  ∧ length (names s) = length (ids s)
  ∧ length (split_names s) = length (ids s).


(** The scores that [__call__] ranks, from the combined scores. *)
Definition final_scores (s : searcher) (threshold : Q) (c : list float)
  : list float :=
  subtract_penalty (apply_threshold threshold c) (penalty s).

(** The rows kept by lines 176 to 178. *)
Definition kept (scores : list float) (top : float) (relative_threshold : Q)
  (rows : list nat) : list nat :=
  filter (λ row, ltb (Fin 0) (at_row NaN scores row) = true)
    (filter (λ row, ltb (mul top (Fin relative_threshold))
                      (at_row NaN scores row) = true) rows).

(** The order that a stable sort by [key] leaves on rows that were in the
    order [R] before: by key, and by [R] among rows whose keys are
    equivalent. *)
Definition then_by {K : Type} (leb : K → K → bool) (key : nat → K)
  (R : relation nat) : relation nat :=
  λ x y, leb (key x) (key y) = true ∧ (leb (key y) (key x) = true → R x y).

(** The order left by the three sorts. *)
Definition sorted_order (s : searcher) (scores : list float) : relation nat :=
  then_by sort_leb (λ row, neg (at_row NaN scores row))
    (then_by String.leb (at_row "" (names s))
       (then_by String.leb (at_row "" (ids s)) lt)).

(** The entries (id, name, score) of the three parallel sequences that
    [Searcher.__call__] returns. *)
Definition entries (out : list string * list string * list Float.float)
  : list (string * string * Float.float) :=
  zip (zip out.1.1 out.1.2) out.2.

(** An entry may stand before another: its score is higher, or the scores
    are equal and its name is smaller, or scores and names are equal and
    its id is not greater. *)
Definition ranks_before (a b : string * string * Float.float) : Prop :=
  ∃ qa qb, a.2 = Float.Fin qa ∧ b.2 = Float.Fin qb
    ∧ ((qb < qa)%Q
       ∨ ((qa == qb)%Q
          ∧ (String.ltb a.1.2 b.1.2 = true
             ∨ (a.1.2 = b.1.2 ∧ String.leb a.1.1 b.1.1 = true)))).

(** The three stable sorts in their sequence: by id, then by name, then by
    score from the highest. *)
Definition three_sorts (s : Searcher.searcher) (scores : list Float.float)
  : list nat :=
  Searcher.argsort_stable Float.sort_leb
    (λ row, Float.neg (Searcher.at_row Float.NaN scores row))
    (Searcher.argsort_stable String.leb (Searcher.at_row "" (Searcher.names s))
       (Searcher.argsort_stable String.leb (Searcher.at_row "" (Searcher.ids s))
          (seq 0 (length (Searcher.ids s))))).

(** The entry of a row. *)
Definition entry_of (s : Searcher.searcher) (scores : list Float.float)
  (row : nat) : string * string * Float.float :=
  (Searcher.at_row "" (Searcher.ids s) row,
   Searcher.at_row "" (Searcher.names s) row,
   Searcher.at_row Float.NaN scores row).


(** Stand-ins for the libraries where a concrete run is needed: a string
    metric that is 1 on equal strings and 0 elsewhere (Jaro-Winkler is 1
    on equal strings), a fourth root that is right at 0 and 1, and no
    semantic similarity. *)
Definition exact_match (a b : string) : Q := if String.eqb a b then 1%Q else 0%Q.
Definition root4_01 (x : Q) : Q := x.
Definition no_similarity (a b : string) : Q := 0%Q.

(** ** Concrete inputs *)

(** The document of the docstring of [buildtree] and its tree. *)
Definition docstring_document : generic_tree :=
  GenericTree "generic" "1.2.3"
    [Item "0" "root" (Some "") None;
     Item "3" "another_root" None None;
     Item "1" "desc 1" (Some "0") None;
     Item "2" "desc 2" (Some "0")
       (Some (JObj [("description", JStr "some metadata")]));
     Item "12" "desc 12" (Some "1") None].

Definition docstring_tree : list node :=
  [Node "0" "root" None ∅
     (Some [Node "1" "desc 1" None ∅ (Some [leaf "12" "desc 12"]);
            Node "2" "desc 2"
              (Some (JObj [("description", JStr "some metadata")])) ∅ None]);
   leaf "3" "another_root"].


(** The schema is not part of the sources; a schema that accepts the
    document stands in for it on concrete inputs. *)
Definition accept_all (g : generic_tree) : bool := true.

(** A list with an undeclared parent first and a shared id after it, and
    one with the two defects the other way round. *)
Definition unknown_then_duplicate : list item :=
  [Item "a" "A" (Some "zz") None; Item "b" "B" None None; Item "b" "B2" None None].

Definition duplicate_then_unknown : list item :=
  [Item "b" "B" None None; Item "b" "B2" None None; Item "a" "A" (Some "zz") None].

(** The tree of the docstring of [dump_to_generic_file], and a one-node
    tree with metadata. *)
Definition zero_one_two : list node :=
  [Node "0" "Zero" None ∅ (Some [leaf "1" "One"]); leaf "2" "Two"].

Definition with_metadata : list node :=
  [Node "0" "Zero" (Some (JStr "about zero")) ∅ None].

(** Two records with the id "0", the one named "Uncategorized" second. *)
Definition uncategorized_second : NormalizedSearcher.normalized_searcher :=
  NormalizedSearcher.Build
    [leaf "0" "Unspecified"; leaf "0" "Uncategorized"]
    (Searcher.Build ["0"; "0"] ["unspecified"; "uncategorized"]
       [["unspecified"]; ["uncategorized"]]
       (map Searcher.penalty_of ["0"; "0"]) true true).

Definition uncategorized_first : NormalizedSearcher.normalized_searcher :=
  NormalizedSearcher.Build
    [leaf "0" "Uncategorized"; leaf "0" "Unspecified"]
    (Searcher.Build ["0"; "0"] ["uncategorized"; "unspecified"]
       [["uncategorized"]; ["unspecified"]]
       (map Searcher.penalty_of ["0"; "0"]) true true).

(** An index of four documents, two of them with the same id. *)
Definition four_documents : Searcher.searcher :=
  Searcher.Build ["2"; "1"; "1"; "3"] ["b"; "b"; "a b"; "b"]
    [["b"]; ["b"]; ["a"; "b"]; ["b"]]
    (map Searcher.penalty_of ["2"; "1"; "1"; "3"]) true true.

Definition four_results : list string * list string * list Float.float :=
  (["1"; "1"; "2"; "3"], ["a b"; "b"; "b"; "b"],
   [Float.Fin (97 # 100); Float.Fin (97 # 100); Float.Fin (97 # 100);
    Float.Fin (97 # 100)]).


End Notions.

(** * Properties *)

(** ** The depth of an id: [levels] *)

Section Levels.

Import Searcher Notions.






End Levels.

(** ** The tree builder: [_append] and [buildtree] *)

Section Builder.

Import Parser Notions.

Variable validate : generic_tree → bool.

Lemma append_offence (st : builder) (it : item) :
  match offence (dom (nodes st)) it with
  | Some m => _append st it = Py.Raise (Py.ValueError m)
  | None => ∃ st', _append st it = Py.Ok st'
                   ∧ dom (nodes st') = {[item_id it]} ∪ dom (nodes st)
  end.
Proof.
  unfold offence, _append.
  destruct (decide (item_id it ∈ dom (nodes st))) as [Hin|Hout].
  - apply elem_of_dom in Hin as [c ->]. done.
  - apply not_elem_of_dom in Hout. rewrite Hout.
    destruct (effective_parent it) as [p|].
    + destruct (decide (p ∈ dom (nodes st))) as [Hp|Hp].
      * apply elem_of_dom in Hp as [c Hc]. rewrite Hc.
        eexists. split; [done |]. cbn [nodes].
        rewrite !dom_insert_L. apply elem_of_dom_2 in Hc. set_solver.
      * apply not_elem_of_dom in Hp. by rewrite Hp.
    + eexists. split; [done |]. cbn [nodes]. by rewrite dom_insert_L.
Qed.

Lemma append_all_first_offence (l : list item) (st : builder) :
  match first_offence (dom (nodes st)) l with
  | Some m => append_all st l = Py.Raise (Py.ValueError m)
  | None => ∃ st', append_all st l = Py.Ok st'
                   ∧ dom (nodes st') = list_to_set (item_ids l) ∪ dom (nodes st)
  end.
Proof.
  revert st. induction l as [|it l IH]; intros st; cbn [first_offence append_all].
  - exists st. split; [done |]. set_solver.
  - pose proof (append_offence st it) as Hstep.
    destruct (offence (dom (nodes st)) it) as [m|].
    + by rewrite Hstep.
    + destruct Hstep as (st' & -> & Hdom). cbn.
      specialize (IH st'). rewrite Hdom in IH.
      destruct (first_offence _ l) as [m|]; [done |].
      destruct IH as (st'' & -> & Hdom'). exists st''. split; [done |].
      rewrite Hdom'. cbn. set_solver.
Qed.

Lemma append_all_app (l1 l2 : list item) (st : builder) :
  append_all st (l1 ++ l2) = (st' ← append_all st l1; append_all st' l2).
Proof.
  revert st. induction l1 as [|it l1 IH]; intros st; [done |].
  cbn [append_all app]. destruct (_append st it) as [st'|e]; cbn; [apply IH | done].
Qed.

Lemma buildtree_first_offence (g : generic_tree) (m : Py.message) :
  validate g = true →
  first_offence ∅ (gt_nodes g) = Some m →
  buildtree validate g = Py.Raise (Py.ValueError m).
Proof.
  intros Hv Hm. unfold buildtree. rewrite Hv.
  pose proof (append_all_first_offence (gt_nodes g) empty_builder) as H.
  cbn [nodes empty_builder] in H. rewrite dom_empty_L, Hm in H. by rewrite H.
Qed.

(** No complaint: the ids are pairwise distinct and new, and every parent
    is declared before its use. *)
Lemma first_offence_none (l : list item) (seen : gset string) :
  first_offence seen l = None →
  NoDup (item_ids l)
  ∧ (∀ id, id ∈ item_ids l → id ∉ seen)
  ∧ (∀ j b p, l !! j = Some b → effective_parent b = Some p →
              p ∈ seen ∨ p ∈ item_ids (take j l)).
Proof.
  revert seen. induction l as [|it l IH]; intros seen; cbn [first_offence].
  - intros _. split; [constructor |]. split; [set_solver |].
    intros j b p Hj. by rewrite lookup_nil in Hj.
  - unfold offence.
    destruct (decide (item_id it ∈ seen)) as [|Hnew]; [done |].
    destruct (effective_parent it) as [p0|] eqn:Hp0.
    + destruct (decide (p0 ∈ seen)) as [Hseen|]; [| done].
      intros (Hnd & Hfresh & Hpar)%IH. split; [| split].
      * cbn. constructor; [| done]. intros Hin. apply Hfresh in Hin. set_solver.
      * cbn. intros id [->|Hin]%elem_of_cons; [done |].
        apply Hfresh in Hin. set_solver.
      * intros [|j] b p Hj Hb; cbn in Hj.
        -- injection Hj as <-. left. congruence.
        -- destruct (Hpar j b p Hj Hb) as [Hs|Hs].
           ++ apply elem_of_union in Hs as [->%elem_of_singleton|Hs].
              ** right. cbn. left.
              ** by left.
           ++ right. cbn. by right.
    + intros (Hnd & Hfresh & Hpar)%IH. split; [| split].
      * cbn. constructor; [| done]. intros Hin. apply Hfresh in Hin. set_solver.
      * cbn. intros id [->|Hin]%elem_of_cons; [done |].
        apply Hfresh in Hin. set_solver.
      * intros [|j] b p Hj Hb; cbn in Hj.
        -- injection Hj as <-. congruence.
        -- destruct (Hpar j b p Hj Hb) as [Hs|Hs].
           ++ apply elem_of_union in Hs as [->%elem_of_singleton|Hs].
              ** right. cbn. left.
              ** by left.
           ++ right. cbn. by right.
Qed.

Lemma first_offence_unknown (l : list item) (seen : gset string) (p : string) :
  first_offence seen l = Some (Py.UnknownParentId p) →
  ∃ j b, l !! j = Some b ∧ effective_parent b = Some p
         ∧ (p ∉ seen) ∧ (p ∉ item_ids (take j l)).
Proof.
  revert seen. induction l as [|it l IH]; intros seen; cbn [first_offence];
    [done |].
  unfold offence.
  destruct (decide (item_id it ∈ seen)) as [|Hnew]; [done |].
  destruct (effective_parent it) as [p0|] eqn:Hp0.
  - destruct (decide (p0 ∈ seen)) as [Hseen|Hout].
    + intros (j & b & Hj & Hb & Hs & Ht)%IH.
      exists (S j), b. cbn. repeat split; try done; [set_solver |].
      intros [->|Hin]%elem_of_cons; [set_solver | done].
    + intros [= ->]. exists 0, it. cbn. repeat split; try done. set_solver.
  - intros (j & b & Hj & Hb & Hs & Ht)%IH.
    exists (S j), b. cbn. repeat split; try done; [set_solver |].
    intros [->|Hin]%elem_of_cons; [set_solver | done].
Qed.

Lemma first_offence_duplicate (l : list item) (seen : gset string) (id : string) :
  first_offence seen l = Some (Py.DuplicateItemId id) →
  ∃ j b, l !! j = Some b ∧ item_id b = id
         ∧ (id ∈ seen ∨ id ∈ item_ids (take j l)).
Proof.
  revert seen. induction l as [|it l IH]; intros seen; cbn [first_offence];
    [done |].
  unfold offence.
  destruct (decide (item_id it ∈ seen)) as [Hold|Hnew].
  - intros [= <-]. exists 0, it. repeat split; try done. by left.
  - assert (first_offence ({[item_id it]} ∪ seen) l = Some (Py.DuplicateItemId id) →
            ∃ j b, (it :: l) !! j = Some b ∧ item_id b = id
                   ∧ (id ∈ seen ∨ id ∈ item_ids (take j (it :: l)))) as Hrec.
    { intros (j & b & Hj & Hb & Hs)%IH. exists (S j), b. cbn.
      repeat split; try done. destruct Hs as [Hs|Hs].
      - apply elem_of_union in Hs as [->%elem_of_singleton|Hs].
        + right. left.
        + by left.
      - right. by right. }
    destruct (effective_parent it) as [p0|]; [| done].
    destruct (decide (p0 ∈ seen)); [done | done].
Qed.

Lemma first_offence_message (l : list item) (seen : gset string) :
  first_offence seen l ≠ Some Py.ZeroSizeReduction
  ∧ first_offence seen l ≠ Some Py.EmptySequence.
Proof.
  revert seen. induction l as [|it l IH]; intros seen; cbn [first_offence];
    [done |].
  unfold offence. destruct (decide (item_id it ∈ seen)); [done |].
  destruct (effective_parent it) as [p|]; [| apply IH].
  destruct (decide (p ∈ seen)); [apply IH | done].
Qed.

Lemma shares_id_not_NoDup (l : list item) :
  shares_id l → ¬ NoDup (item_ids l).
Proof.
  intros (i & j & a & b & Hij & Hi & Hj & Hab) Hnd.
  assert (i = j); [| lia].
  eapply NoDup_lookup; [exact Hnd | |]; unfold item_ids;
    rewrite list_lookup_fmap; [rewrite Hi | rewrite Hj]; cbn; [done |].
  by rewrite Hab.
Qed.

Lemma elem_of_take_ids (l : list item) (j : nat) (id : string) :
  id ∈ item_ids (take j l) →
  ∃ i a, i < j ∧ l !! i = Some a ∧ item_id a = id.
Proof.
  unfold item_ids. intros (a & -> & Hin)%list_elem_of_fmap.
  apply list_elem_of_lookup in Hin as [i Hi].
  apply lookup_take_Some in Hi as [Hi Hlt]. by exists i, a.
Qed.

(** The first complaint tells which of the two defects the list has. *)
Lemma first_offence_sound (l : list item) :
  match first_offence ∅ l with
  | None => ¬ shares_id l ∧ ¬ undeclared_parent l
  | Some (Py.DuplicateItemId _) => shares_id l
  | Some (Py.UnknownParentId _) => undeclared_parent l
  | Some _ => False
  end.
Proof.
  destruct (first_offence ∅ l) as [[id|p| |]|] eqn:Hfo.
  - apply first_offence_duplicate in Hfo as (j & b & Hj & Hb & [Hs|Hs]);
      [set_solver |].
    apply elem_of_take_ids in Hs as (i & a & Hlt & Hi & Ha).
    exists i, j, a, b. repeat split; try done. congruence.
  - apply first_offence_unknown in Hfo as (j & b & Hj & Hb & _ & Ht).
    by exists j, b, p.
  - by apply (proj1 (first_offence_message l ∅)) in Hfo.
  - by apply (proj2 (first_offence_message l ∅)) in Hfo.
  - apply first_offence_none in Hfo as (Hnd & _ & Hpar). split.
    + intros Hs. by apply shares_id_not_NoDup in Hs.
    + intros (j & b & p & Hj & Hb & Hp).
      destruct (Hpar j b p Hj Hb); [set_solver | done].
Qed.

(** C8. An item whose id is already registered makes [_append] fail with
    the duplicate-id error also when its parent is unknown, because the id
    is checked before the parent is looked up; so does [buildtree] at the
    first such item of its list. *)
Theorem duplicate_checked_before_parent :
  (∀ (st : builder) (it : item) (p : string),
     is_Some (nodes st !! item_id it) →
     effective_parent it = Some p →
     nodes st !! p = None →
     _append st it = Py.Raise (Py.ValueError (Py.DuplicateItemId (item_id it))))
  ∧ (∀ (g : generic_tree) (before after : list item) (it : item)
       (st : builder) (p : string),
       validate g = true →
       gt_nodes g = before ++ it :: after →
       append_all empty_builder before = Py.Ok st →
       item_id it ∈ item_ids before →
       effective_parent it = Some p →
       p ∉ item_ids before →
       buildtree validate g
       = Py.Raise (Py.ValueError (Py.DuplicateItemId (item_id it)))).
Proof.
  split.
  - intros st it p [c Hc] _ _. unfold _append. by rewrite Hc.
  - intros g before after it st p Hv Hg Hst Hin _ _.
    unfold buildtree. rewrite Hv, Hg, append_all_app, Hst. cbn.
    pose proof (append_all_first_offence before empty_builder) as H.
    rewrite Hst in H. destruct (first_offence _ before); [done |].
    destruct H as (st' & [= <-] & Hdom).
    assert (item_id it ∈ dom (nodes st)) as [c Hc]%elem_of_dom.
    { rewrite Hdom. apply elem_of_union_l, elem_of_list_to_set, Hin. }
    unfold _append. by rewrite Hc.
Qed.

(** C5, as the code has it. [buildtree] fails whenever two nodes share an
    id or a node carries a non-empty [parent_id] that no earlier node
    declares, wherever the offending node stands; the error is the one of
    the first offending node: it is the duplicate-id error when no node has
    an undeclared parent, and the unknown-parent error when no two nodes
    share an id. *)
Theorem buildtree_rejects_duplicates_and_forward_references (g : generic_tree) :
  validate g = true →
  (shares_id (gt_nodes g) ∨ undeclared_parent (gt_nodes g) →
   fails_with_duplicate (buildtree validate g)
   ∨ fails_with_unknown_parent (buildtree validate g))
  ∧ (shares_id (gt_nodes g) → ¬ undeclared_parent (gt_nodes g) →
     fails_with_duplicate (buildtree validate g))
  ∧ (undeclared_parent (gt_nodes g) → ¬ shares_id (gt_nodes g) →
     fails_with_unknown_parent (buildtree validate g))
  ∧ (∀ m, first_offence ∅ (gt_nodes g) = Some m →
          buildtree validate g = Py.Raise (Py.ValueError m)).
Proof.
  intros Hv.
  pose proof (first_offence_sound (gt_nodes g)) as Hs.
  pose proof (buildtree_first_offence g) as Hb.
  destruct (first_offence ∅ (gt_nodes g)) as [[id|p| |]|]; [| | done | done |].
  - specialize (Hb _ Hv eq_refl).
    assert (fails_with_duplicate (buildtree validate g)) by by exists id.
    repeat split; try tauto. by intros m [= <-].
  - specialize (Hb _ Hv eq_refl).
    assert (fails_with_unknown_parent (buildtree validate g)) by by exists p.
    repeat split; try tauto. by intros m [= <-].
  - destruct Hs as [Hs1 Hs2]. repeat split; try tauto. done.
Qed.

End Builder.

(** ** The result normalizer: [lookup] *)

Section Lookup.

Import Parser NormalizedSearcher Notions.

(** C4, as the code has it. When more than one record shares the queried
    id, [lookup] returns the first of them in document order if that one is
    named exactly "Uncategorized", and fails with an assertion error in
    every other case. *)
Theorem lookup_prefers_leading_uncategorized
  (self : normalized_searcher) (id : string) (d0 d1 : node) (rest : list node) :
  matches self id = d0 :: d1 :: rest →
  (node_name d0 = "Uncategorized" → lookup self id = Py.Ok d0)
  ∧ (node_name d0 ≠ "Uncategorized" → lookup self id = Py.Raise Py.AssertionError).
Proof.
  unfold matches, lookup. intros ->. split; intros Hname.
  - by rewrite (proj2 (String.eqb_eq _ _) Hname).
  - by rewrite (proj2 (String.eqb_neq _ _) Hname).
Qed.

(** A single match is returned; no match is an assertion error. *)
Lemma lookup_single (self : normalized_searcher) (id : string) (d : node) :
  matches self id = [d] → lookup self id = Py.Ok d.
Proof. unfold matches, lookup. by intros ->. Qed.

Lemma lookup_none (self : normalized_searcher) (id : string) :
  matches self id = [] → lookup self id = Py.Raise Py.AssertionError.
Proof. unfold matches, lookup. by intros ->. Qed.

Lemma lookup_ok_inv (self : normalized_searcher) (id : string) (d : node) :
  lookup self id = Py.Ok d → d ∈ docs self ∧ node_id d = id.
Proof.
  unfold lookup. intros H.
  assert (∃ l, filter (λ n, node_id n = id) (docs self) = d :: l) as [l Hl].
  { destruct (filter _ (docs self)) as [|d0 [|d1 l]]; try done.
    - injection H as ->. by eexists.
    - destruct (String.eqb (node_name d0) "Uncategorized"); [| done].
      injection H as ->. by eexists. }
  assert (d ∈ filter (λ n, node_id n = id) (docs self)) as Hin
    by (rewrite Hl; left).
  by apply list_elem_of_filter in Hin as [? ?].
Qed.

End Lookup.

(** ** The navigator: [_get_ancestors] *)

Section Navigator.

Import Parser Registry Notions.

Lemma node_ind (P : node → Prop) :
  (∀ i nm md ot, P (Node i nm md ot None)) →
  (∀ i nm md ot l, Forall P l → P (Node i nm md ot (Some l))) →
  ∀ n, P n.
Proof.
  intros Hleaf Hinner. fix IH 1. intros [i nm md ot [l|]].
  - apply Hinner. induction l as [|c l IHl]; constructor; [apply IH | apply IHl].
  - apply Hleaf.
Qed.

Lemma flat_map_postorder_cons (par : option node) (c : node) (l : list node) :
  flat_map (postorder par) (c :: l) = postorder par c ++ flat_map (postorder par) l.
Proof. reflexivity. Qed.

Lemma forest_ids_cons (c : node) (l : list node) :
  forest_ids (c :: l) = map node_id (preorder c) ++ forest_ids l.
Proof. unfold forest_ids, _depth_first_traversal. cbn. by rewrite map_app. Qed.

Lemma preorder_ids (i nm : string) md ot (ch : option (list node)) :
  map node_id (preorder (Node i nm md ot ch))
  = i :: forest_ids (kids ch).
Proof. destruct ch; reflexivity. Qed.

(** The ids of the stream of a forest are ids of the forest. *)
Lemma postorder_ids_sub (c : node) :
  ∀ par id, id ∈ stream_ids (postorder par c) → id ∈ map node_id (preorder c).
Proof.
  induction c as [i nm md ot|i nm md ot l IH] using node_ind; intros par id.
  - cbn. set_solver.
  - rewrite preorder_ids. cbn [postorder kids].
    unfold stream_ids. rewrite map_app, elem_of_app. cbn [map].
    intros [Hin|Hin]; [| set_solver]. right.
    revert Hin. generalize (Some (Node i nm md ot (Some l))). intros q.
    induction IH as [|c l Hc _ IHl]; [done |].
    rewrite flat_map_postorder_cons, map_app, elem_of_app, forest_ids_cons, elem_of_app.
    intros [Hin|Hin]; [left; by eapply Hc | right; by apply IHl].
Qed.

Lemma stream_ids_sub (l : list node) (par : option node) (id : string) :
  id ∈ stream_ids (flat_map (postorder par) l) → id ∈ forest_ids l.
Proof.
  induction l as [|c l IH]; [done |].
  rewrite flat_map_postorder_cons, forest_ids_cons.
  unfold stream_ids. rewrite map_app, !elem_of_app.
  intros [Hin|Hin]; [left; by eapply postorder_ids_sub | right; by apply IH].
Qed.

Lemma preorder_unfold (n : node) :
  preorder n = n :: _depth_first_traversal (children_of n).
Proof. by destruct n as [i nm md ot [l|]]. Qed.

Lemma dft_cons (n : node) (f : list node) :
  _depth_first_traversal (n :: f)
  = n :: _depth_first_traversal (children_of n) ++ _depth_first_traversal f.
Proof. unfold _depth_first_traversal. cbn [flat_map]. by rewrite preorder_unfold. Qed.

Lemma dft_app (f1 f2 : list node) :
  _depth_first_traversal (f1 ++ f2)
  = _depth_first_traversal f1 ++ _depth_first_traversal f2.
Proof. unfold _depth_first_traversal. apply flat_map_app. Qed.

Lemma preorder_in_dft (c x : node) (f : list node) :
  c ∈ f → x ∈ preorder c → x ∈ _depth_first_traversal f.
Proof.
  intros Hc Hx. unfold _depth_first_traversal.
  apply list_elem_of_In, in_flat_map. exists c. split; by apply list_elem_of_In.
Qed.

(** The stream holds every node of the forest once. *)
Lemma postorder_nodes (c : node) (par : option node) :
  map fst (postorder par c) ≡ₚ preorder c.
Proof.
  revert par. induction c as [i nm md ot|i nm md ot l IH] using node_ind;
    intros par; [done |].
  cbn [postorder preorder]. rewrite map_app. cbn [map fst].
  rewrite <- Permutation_cons_append. constructor.
  generalize (Some (Node i nm md ot (Some l))). intros q.
  induction IH as [|c l Hc _ IHl]; [done |].
  cbn [flat_map]. by rewrite map_app, Hc, IHl.
Qed.

Lemma stream_nodes (l : list node) (par : option node) :
  map fst (_depth_first_traversal_with_parents l par) ≡ₚ _depth_first_traversal l.
Proof.
  unfold _depth_first_traversal_with_parents, _depth_first_traversal.
  induction l as [|c l IH]; [done |].
  cbn [flat_map]. by rewrite map_app, postorder_nodes, IH.
Qed.

(** A node comes after the nodes below it. *)
Lemma postorder_last (c : node) (par : option node) :
  ∃ below, postorder par c = below ++ [(c, _remove_children <$> par)]
           ∧ map fst below ≡ₚ _depth_first_traversal (children_of c).
Proof.
  destruct c as [i nm md ot ch]. eexists. split; [reflexivity |].
  destruct ch as [l|]; [| done].
  change (children_of (Node i nm md ot (Some l))) with l.
  apply (stream_nodes l).
Qed.

(** Every element of the stream holds a node with its direct parent. *)
Lemma with_direct_parent_mono (f1 f2 : list node) (par : option node)
  (x : node * option node) :
  f1 ⊆ f2 → _depth_first_traversal f1 ⊆ _depth_first_traversal f2 →
  with_direct_parent f1 par x → with_direct_parent f2 par x.
Proof.
  intros H1 H2 [[Hx Hp]|(q & Hq & Hx & Hp)]; [left | right].
  - split; [by apply H1 | done].
  - exists q. split; [by apply H2 | done].
Qed.

Lemma postorder_parents (c : node) :
  ∀ par, Forall (with_direct_parent [c] par) (postorder par c).
Proof.
  induction c as [i nm md ot|i nm md ot l IH] using node_ind; intros par.
  - cbn. constructor; [| constructor]. left. split; [left | done].
  - cbn [postorder]. apply Forall_app. split.
    + set (n := Node i nm md ot (Some l)).
      assert (∀ l', l' ⊆ l →
                Forall (with_direct_parent [n] par) (flat_map (postorder (Some n)) l'))
        as Hsub; [| by apply Hsub].
      induction l' as [|c l' IHl']; intros Hl'; [constructor |].
      cbn [flat_map]. apply Forall_app. split; [| apply IHl'; set_solver].
      assert (c ∈ l) as Hc by set_solver.
      eapply Forall_forall in IH; [| exact Hc].
      eapply Forall_impl; [apply (IH (Some n)) |].
      intros x [[Hx Hp]|(q & Hq & Hx & Hp)]; right.
      * exists n. split; [rewrite dft_cons; left |]. split; [| done].
        apply list_elem_of_singleton in Hx. rewrite Hx. exact Hc.
      * exists q. split; [| done]. rewrite dft_cons. right.
        change (children_of n) with l. apply elem_of_app. left.
        rewrite dft_cons, app_nil_r in Hq.
        eapply (preorder_in_dft c); [done |]. by rewrite preorder_unfold.
    + constructor; [| constructor]. left. split; [left | done].
Qed.

Lemma stream_parents (l : list node) (par : option node) :
  Forall (with_direct_parent l par) (_depth_first_traversal_with_parents l par).
Proof.
  unfold _depth_first_traversal_with_parents.
  assert (∀ l', l' ⊆ l →
            Forall (with_direct_parent l par) (flat_map (postorder par) l'))
    as Hsub; [| by apply Hsub].
  induction l' as [|c l' IH]; intros Hl'; [constructor |].
  cbn [flat_map]. apply Forall_app. split; [| apply IH; set_solver].
  eapply Forall_impl; [apply postorder_parents |].
  intros x. apply with_direct_parent_mono; [set_solver |].
  intros y Hy. rewrite dft_cons, app_nil_r in Hy.
  eapply (preorder_in_dft c); [set_solver |]. by rewrite preorder_unfold.
Qed.

(** A stretch of the stream without the id looked for is passed over. *)
Lemma scan_skip (node_id0 t : string) (s rest : list (node * option node)) :
  t ∉ stream_ids s →
  ancestors_scan node_id0 t (s ++ rest) = ancestors_scan node_id0 t rest.
Proof.
  induction s as [|[n p] s IH]; [done |]. cbn. intros Hnot.
  destruct (String.eqb_spec (node_id n) t) as [Heq|_]; [set_solver |].
  apply IH. set_solver.
Qed.

Lemma locate_unfold (t i nm : string) md ot (ch : option (list node)) :
  locate t (Node i nm md ot ch)
  = if String.eqb i t then Some [Node i nm md ot ch]
    else (λ path, path ++ [Node i nm md ot ch]) <$> locate_in t (kids ch).
Proof. destruct ch; reflexivity. Qed.

Lemma scan_at (node_id0 t : string) (n : node) (par : option node)
  (rest : list (node * option node)) :
  ancestors_scan node_id0 t ((n, _remove_children <$> par) :: rest)
  = if String.eqb (node_id n) t
    then (if String.eqb t node_id0 then [] else [_remove_children n])
         ++ go_on node_id0 par rest
    else ancestors_scan node_id0 t rest.
Proof. cbn. by destruct par. Qed.

Lemma scan_forest_of_nodes (l : list node) :
  Forall scan_node_spec l → scan_forest_spec l.
Proof.
  induction 1 as [|c l Hc _ IH]; intros par rest node_id0 t Hnd Hpar.
  - done.
  - rewrite forest_ids_cons in Hnd, Hpar.
    apply NoDup_app in Hnd as (Hndc & Hdisj & Hndl).
    rewrite flat_map_postorder_cons, <- app_assoc, (Hc _ _ _ _ Hndc).
    change (locate_in t (c :: l))
      with (match locate t c with Some path => Some path | None => locate_in t l end).
    destruct (locate t c) as [path|].
    + f_equal. destruct par as [p|]; [| done]. cbn.
      apply scan_skip. intros Hin%stream_ids_sub.
      apply (Hpar p eq_refl). set_solver.
    + apply IH; [done |]. intros p Hp. specialize (Hpar p Hp). set_solver.
Qed.

Lemma scan_node (c : node) : scan_node_spec c.
Proof.
  induction c as [i nm md ot|i nm md ot l IH] using node_ind;
    intros par rest node_id0 t Hnd.
  - cbn [postorder app]. rewrite scan_at, locate_unfold. cbn.
    destruct (String.eqb_spec i t) as [->|Hne]; [| done].
    unfold yielded. cbn. by rewrite app_nil_r.
  - apply scan_forest_of_nodes in IH.
    rewrite preorder_ids in Hnd. cbn [kids] in Hnd.
    apply NoDup_cons in Hnd as [Hi Hnd].
    cbn [postorder]. rewrite <- app_assoc. cbn [app].
    rewrite locate_unfold. cbn [kids].
    set (n := Node i nm md ot (Some l)).
    destruct (String.eqb_spec i t) as [->|Hne].
    + rewrite scan_skip; [| by intros Hin%stream_ids_sub].
      rewrite scan_at. cbn [node_id n]. rewrite String.eqb_refl.
      unfold yielded. cbn [flat_map node_id n]. by rewrite app_nil_r.
    + rewrite (IH (Some n)); [| done | by intros p [= <-]].
      destruct (locate_in t l) as [path|]; cbn [fmap option_fmap option_map].
      * rewrite flat_map_app. cbn [flat_map go_on]. rewrite <- app_assoc. f_equal.
        rewrite scan_at, String.eqb_refl, app_nil_r. done.
      * rewrite scan_at. cbn [node_id n].
        by rewrite (proj2 (String.eqb_neq _ _) Hne).
Qed.

Lemma scan_forest (l : list node) : scan_forest_spec l.
Proof. apply scan_forest_of_nodes, Forall_forall. intros c _. apply scan_node. Qed.

Lemma locate_in_shape (l : list node) (t : string) (path : list node) :
  Forall locate_node_shape l →
  NoDup (forest_ids l) → locate_in t l = Some path →
  ∃ x up, path = x :: up ∧ node_id x = t ∧ t ∈ forest_ids l
          ∧ Forall (λ y, node_id y ≠ t) up.
Proof.
  induction 1 as [|c l Hc _ IH]; [done |].
  rewrite forest_ids_cons. intros (Hndc & _ & Hndl)%NoDup_app.
  change (locate_in t (c :: l))
    with (match locate t c with Some path => Some path | None => locate_in t l end).
  destruct (locate t c) as [path'|] eqn:Hloc.
  - intros [= <-]. destruct (Hc t path' Hndc Hloc) as (x & up & -> & Hx & Hin & Hup).
    exists x, up. repeat split; try done. set_solver.
  - intros Hl. destruct (IH Hndl Hl) as (x & up & -> & Hx & Hin & Hup).
    exists x, up. repeat split; try done. set_solver.
Qed.

Lemma locate_shape (c : node) : locate_node_shape c.
Proof.
  induction c as [i nm md ot|i nm md ot l IH] using node_ind;
    intros t path Hnd; rewrite locate_unfold, preorder_ids.
  - destruct (String.eqb_spec i t) as [->|Hne]; [| done].
    intros [= <-]. eexists _, []. repeat split; try done. set_solver.
  - rewrite preorder_ids in Hnd. cbn [kids] in *.
    apply NoDup_cons in Hnd as [Hi Hnd].
    destruct (String.eqb_spec i t) as [->|Hne].
    + intros [= <-]. eexists _, []. repeat split; try done. set_solver.
    + destruct (locate_in t l) as [path'|] eqn:Hloc; [| done].
      intros [= <-].
      destruct (locate_in_shape l t path' IH Hnd Hloc) as (x & up & -> & Hx & Hin & Hup).
      exists x, (up ++ [Node i nm md ot (Some l)]). repeat split; try done.
      * set_solver.
      * apply Forall_app. split; [done |]. by repeat constructor.
Qed.

Lemma yielded_above (t : string) (up : list node) :
  Forall (λ y, node_id y ≠ t) up →
  flat_map (yielded t) up = map _remove_children up.
Proof.
  induction 1 as [|y up Hy _ IH]; [done |]. cbn. rewrite IH. unfold yielded.
  by rewrite (proj2 (String.eqb_neq _ _) Hy).
Qed.

Lemma get_ancestors_correct (tree : list node) (node_id0 : string) :
  NoDup (forest_ids tree) →
  _get_ancestors tree node_id0 = ancestors tree node_id0.
Proof.
  intros Hnd. unfold _get_ancestors, _depth_first_traversal_with_parents, ancestors.
  rewrite <- (app_nil_r (flat_map _ tree)).
  rewrite (scan_forest tree None [] node_id0 node_id0 Hnd); [| done].
  destruct (locate_in node_id0 tree) as [path|] eqn:Hloc; [| done].
  destruct (locate_in_shape tree node_id0 path) as (x & up & -> & Hx & _ & Hup);
    [apply Forall_forall; intros c _; apply locate_shape | done | done |].
  cbn [flat_map go_on]. unfold yielded at 1.
  rewrite Hx, String.eqb_refl, app_nil_r. cbn. by apply yielded_above.
Qed.

(** C6. On a tree whose ids are distinct, [_get_ancestors] returns the
    ancestors of the queried node from the nearest one to the root, each
    without its children, from one pass over the stream of
    [_depth_first_traversal_with_parents]; that stream holds every node of
    the tree once, each with its direct parent, and a node after the nodes
    below it; on the tree of the docstrings the stream and the answers for
    "3", "2" and "1" are the documented ones. *)
Theorem get_ancestors_nearest_to_root :
  (∀ tree node_id0,
     NoDup (forest_ids tree) →
     _get_ancestors tree node_id0
     = ancestors_scan node_id0 node_id0
         (_depth_first_traversal_with_parents tree None)
     ∧ _get_ancestors tree node_id0 = ancestors tree node_id0)
  ∧ (∀ tree,
       map fst (_depth_first_traversal_with_parents tree None)
       ≡ₚ _depth_first_traversal tree
       ∧ Forall (with_direct_parent tree None)
                (_depth_first_traversal_with_parents tree None))
  ∧ (∀ c par,
       ∃ below, postorder par c = below ++ [(c, _remove_children <$> par)]
                ∧ map fst below ≡ₚ _depth_first_traversal (children_of c))
  ∧ (∀ a b c d e,
       map (λ x, (node_id x.1, node_id <$> x.2))
           (_depth_first_traversal_with_parents (example_tree a b c d e) None)
       = [("3", Some "2"); ("2", Some "1"); ("4", Some "1");
          ("1", None); ("5", None)]
       ∧ _get_ancestors (example_tree a b c d e) "3" = [leaf "2" b; leaf "1" a]
       ∧ _get_ancestors (example_tree a b c d e) "2" = [leaf "1" a]
       ∧ _get_ancestors (example_tree a b c d e) "1" = []).
Proof.
  split; [| split; [| split]].
  - intros tree node_id0 Hnd. split; [done | by apply get_ancestors_correct].
  - intros tree. split; [apply stream_nodes | apply stream_parents].
  - intros c par. apply postorder_last.
  - intros a b c d e. repeat split.
Qed.

End Navigator.

(** ** Stable sorting *)

Section StableSort.

Import Searcher Notions.

Context {K : Type} (leb : K → K → bool) (key : nat → K).
Hypothesis leb_total : ∀ a b, leb a b = true ∨ leb b a = true.
Hypothesis leb_trans : ∀ a b c, leb a b = true → leb b c = true → leb a c = true.

Lemma insert_row_perm (x : nat) (rows : list nat) :
  insert_row leb key x rows ≡ₚ x :: rows.
Proof.
  induction rows as [|y rows IH]; [done |]. cbn.
  destruct (leb (key x) (key y)); [done |]. rewrite IH. apply Permutation_swap.
Qed.

Lemma argsort_stable_perm (rows : list nat) :
  argsort_stable leb key rows ≡ₚ rows.
Proof.
  induction rows as [|x rows IH]; [done |]. cbn.
  by rewrite insert_row_perm, IH.
Qed.

Lemma insert_row_sorted (R : relation nat) (x : nat) (rows : list nat) :
  StronglySorted (then_by leb key R) rows →
  Forall (R x) rows →
  StronglySorted (then_by leb key R) (insert_row leb key x rows).
Proof.
  induction rows as [|y rows IH]; intros Hs Hx.
  - cbn. by repeat constructor.
  - apply StronglySorted_cons in Hs as [Hy Hs].
    apply Forall_cons in Hx as [Hxy Hx]. cbn.
    destruct (leb (key x) (key y)) eqn:Hle.
    + apply StronglySorted_cons. split; [| by apply StronglySorted_cons].
      constructor; [by split |].
      apply Forall_forall. intros z Hz.
      pose proof (proj1 (Forall_forall _ _) Hy z Hz) as [Hyz _].
      pose proof (proj1 (Forall_forall _ _) Hx z Hz) as Hxz.
      split; [by eapply leb_trans | done].
    + apply StronglySorted_cons. split; [| by apply IH].
      rewrite insert_row_perm. constructor; [| done].
      split; [| congruence]. destruct (leb_total (key x) (key y)); congruence.
Qed.

Lemma argsort_stable_sorted (R : relation nat) (rows : list nat) :
  StronglySorted R rows →
  StronglySorted (then_by leb key R) (argsort_stable leb key rows).
Proof.
  induction rows as [|x rows IH]; intros Hs; [constructor |].
  apply StronglySorted_cons in Hs as [Hx Hs]. cbn.
  apply insert_row_sorted; [by apply IH |]. by rewrite argsort_stable_perm.
Qed.

End StableSort.

Lemma StronglySorted_sublist {A} (R : relation A) (l1 l2 : list A) :
  l1 `sublist_of` l2 → StronglySorted R l2 → StronglySorted R l1.
Proof.
  induction 1 as [|x l1 l2 Hsub IH|x l1 l2 Hsub IH]; intros Hs; [done | |].
  - apply StronglySorted_cons in Hs as [Hx Hs].
    apply StronglySorted_cons. split; [| by apply IH].
    apply Forall_forall. intros y Hy.
    eapply Forall_forall; [exact Hx |]. by eapply elem_of_sublist.
  - apply StronglySorted_cons in Hs as [_ Hs]. by apply IH.
Qed.

Lemma StronglySorted_impl {A} (R1 R2 : relation A) (l : list A) :
  (∀ x y, x ∈ l → y ∈ l → R1 x y → R2 x y) →
  StronglySorted R1 l → StronglySorted R2 l.
Proof.
  induction l as [|x l IH]; intros Himp Hs; [constructor |].
  apply StronglySorted_cons in Hs as [Hx Hs]. apply StronglySorted_cons. split.
  - apply Forall_forall. intros y Hy. apply Himp; [left | by right |].
    by eapply Forall_forall in Hx.
  - apply IH; [| done]. intros y z Hy Hz. apply Himp; by right.
Qed.

Lemma StronglySorted_seq (start len : nat) :
  StronglySorted lt (seq start len).
Proof.
  revert start. induction len as [|len IH]; intros start; [constructor |].
  cbn. apply StronglySorted_cons. split; [| apply IH].
  apply Forall_forall. intros y Hy%list_elem_of_In%in_seq. lia.
Qed.

(** ** The order of strings and of floats *)

Section Orders.

Import Float.

Lemma string_compare_lt_trans (a b c : string) :
  String.compare a b = Lt → String.compare b c = Lt → String.compare a c = Lt.
Proof.
  intros H1 H2.
  apply OrderedTypeEx.String_as_OT.cmp_lt.
  eapply OrderedTypeEx.String_as_OT.lt_trans;
    apply OrderedTypeEx.String_as_OT.cmp_lt; eassumption.
Qed.

Lemma string_leb_trans (a b c : string) :
  String.leb a b = true → String.leb b c = true → String.leb a c = true.
Proof.
  unfold String.leb.
  destruct (String.compare a b) eqn:Hab; [| | done];
    destruct (String.compare b c) eqn:Hbc; try done; intros _ _.
  - apply String.compare_eq_iff in Hab as ->. by rewrite Hbc.
  - apply String.compare_eq_iff in Hab as ->. by rewrite Hbc.
  - apply String.compare_eq_iff in Hbc as <-. by rewrite Hab.
  - by rewrite (string_compare_lt_trans a b c).
Qed.

(** [a <= b] either strictly or with [a = b]. *)
Lemma string_leb_cases (a b : string) :
  String.leb a b = true →
  String.ltb a b = true ∨ (a = b ∧ String.leb b a = true).
Proof.
  unfold String.leb, String.ltb.
  destruct (String.compare a b) eqn:Hab; [| by left | done]. intros _.
  apply String.compare_eq_iff in Hab as ->. right. split; [done |].
  destruct (String.leb_total b b); done.
Qed.

Lemma sort_leb_total (a b : float) : sort_leb a b = true ∨ sort_leb b a = true.
Proof.
  destruct a as [|x], b as [|y]; cbn; auto.
  destruct (Qle_bool x y) eqn:Hxy; [by left | right].
  apply Qle_bool_iff. apply Qlt_le_weak, Qnot_le_lt.
  intros H%Qle_bool_iff. congruence.
Qed.

Lemma sort_leb_trans (a b c : float) :
  sort_leb a b = true → sort_leb b c = true → sort_leb a c = true.
Proof.
  destruct a as [|x], b as [|y], c as [|z]; cbn; try done.
  rewrite !Qle_bool_iff. apply Qle_trans.
Qed.

Lemma ltb_finite (a b : float) :
  ltb a b = true → ∃ x y, a = Fin x ∧ b = Fin y ∧ (x < y)%Q.
Proof.
  destruct a as [|x], b as [|y]; try done. unfold ltb, Qltb.
  intros H. exists x, y. repeat split. apply Qnot_le_lt.
  intros Hle%Qle_bool_iff. by rewrite Hle in H.
Qed.

End Orders.

(** ** The search engine: [Searcher.__call__] *)

Section SearcherFacts.

Import Float StringSimilarity Searcher Notions.

(** *** Arrays of floats *)

Lemma at_row_lookup {A} (d : A) (a : list A) (row : nat) :
  at_row d a row = default d (a !! row).
Proof. unfold at_row. apply nth_lookup. Qed.

Lemma at_row_finite (a : list float) (row : nat) (q : Q) :
  at_row NaN a row = Fin q → a !! row = Some (Fin q).
Proof.
  rewrite at_row_lookup. destruct (a !! row) as [x|]; cbn; [by intros -> | done].
Qed.




(** *** The index *)

Lemma select_length {A} (a : list A) (mask : list bool) :
  length a = length mask →
  length (select a mask) = length (filter (λ b, b = true) mask).
Proof.
  unfold select. revert mask.
  induction a as [|x a IH]; intros [|b mask]; try done. intros [= Hlen].
  change (zip (x :: a) (b :: mask)) with ((x, b) :: zip a mask).
  rewrite !filter_cons. cbn [snd].
  destruct b; case_decide; try done; cbn; by rewrite <- (IH mask Hlen).
Qed.

Lemma init_well_formed (ids0 names0 : list string) (use_nlp use_textsim0 : bool)
  (s : searcher) :
  __init__ ids0 names0 use_nlp use_textsim0 = Py.Ok s → well_formed s.
Proof.
  unfold __init__. destruct (Nat.eqb_spec (length ids0) (length
    (map (λ s0, (0 <? length s0)%nat) (map splitwords (map normalizestring names0)))))
    as [Hlen|]; [| done].
  intros [= <-]. unfold well_formed. cbn. split; [done |].
  rewrite !select_length; try done; by rewrite ?length_map in *.
Qed.

Lemma penalty_of_nonneg (id : string) : (0 <= penalty_of id)%Q.
Proof.
  unfold penalty_of. apply Qmult_le_0_compat; [done |].
  change 0%Q with (inject_Z 0). rewrite <- Zle_Qle. lia.
Qed.

End SearcherFacts.

Section Call.

Import Float StringSimilarity Searcher Notions.

Variable similarity : string → string → Q.
Variable jaro_winkler : string → string → Q.
Variable root4 : Q → Q.

#[local] Abbreviation call := (__call__ similarity jaro_winkler root4).
#[local] Abbreviation rows_of := (best_rows similarity jaro_winkler root4).
#[local] Abbreviation combined := (combined_scores similarity jaro_winkler root4).

Lemma rows_of_inv (s : searcher) (name : string) (n : Z) (t r : Q)
  (rows : list nat) (scores : list float) :
  rows_of s name n t r = Py.Ok (rows, scores) →
  ∃ c top,
    combined s name = Py.Ok c
    ∧ scores = final_scores s t c
    ∧ array_max scores = Py.Ok top
    ∧ rows = kept scores top r (slice_to n (three_sorts s scores)).
Proof.
  unfold best_rows. destruct (combined s name) as [c|e] eqn:Hc; [| done]. cbn.
  unfold cut_rows.
  destruct (array_max _) as [top|e] eqn:Htop; [| done]. cbn.
  intros [= <- <-]. by exists c, top.
Qed.

Lemma call_inv (s : searcher) (name : string) (n : Z) (t r : Q)
  (out : list string * list string * list float) :
  call s name n t r = Py.Ok out →
  (normalizestring name = "" ∧ out = ([], [], []))
  ∨ (normalizestring name ≠ ""
     ∧ ∃ rows scores,
         rows_of s (normalizestring name) n t r = Py.Ok (rows, scores)
         ∧ out = (map (at_row "" (ids s)) rows,
                  map (at_row "" (names s)) rows,
                  map (at_row NaN scores) rows)).
Proof.
  unfold __call__.
  destruct (String.eqb_spec (normalizestring name) "") as [Heq|Hne].
  - intros [= <-]. by left.
  - destruct (rows_of s (normalizestring name) n t r) as [[rows scores]|e];
      [| done].
    cbn. intros [= <-]. right. split; [done |]. by exists rows, scores.
Qed.

Lemma entries_of_rows (s : searcher) (scores : list float) (rows : list nat) :
  entries (map (at_row "" (ids s)) rows, map (at_row "" (names s)) rows,
           map (at_row NaN scores) rows)
  = map (entry_of s scores) rows.
Proof.
  unfold entries, entry_of. cbn.
  induction rows as [|row rows IH]; [done |]. cbn. by rewrite <- IH.
Qed.

Lemma slice_to_sublist {A} (n : Z) (a : list A) : slice_to n a `sublist_of` a.
Proof. unfold slice_to. case_match; apply sublist_take. Qed.

Lemma kept_sublist (scores : list float) (top : float) (r : Q) (rows : list nat) :
  kept scores top r rows `sublist_of` rows.
Proof. unfold kept. etrans; apply sublist_filter. Qed.

Lemma kept_elem (scores : list float) (top : float) (r : Q) (rows : list nat)
  (row : nat) :
  row ∈ kept scores top r rows ↔
  row ∈ rows
  ∧ ltb (mul top (Fin r)) (at_row NaN scores row) = true
  ∧ ltb (Fin 0) (at_row NaN scores row) = true.
Proof.
  unfold kept. rewrite !list_elem_of_filter.
  split; [intros (H0 & Hr & Hin) | intros (Hin & Hr & H0)]; done.
Qed.

Lemma three_sorts_sorted (s : searcher) (scores : list float) :
  StronglySorted (sorted_order s scores) (three_sorts s scores).
Proof.
  unfold sorted_order, three_sorts.
  apply argsort_stable_sorted; [apply sort_leb_total | apply sort_leb_trans |].
  apply argsort_stable_sorted; [apply String.leb_total | apply string_leb_trans |].
  apply argsort_stable_sorted; [apply String.leb_total | apply string_leb_trans |].
  apply StronglySorted_seq.
Qed.

Lemma three_sorts_perm (s : searcher) (scores : list float) :
  three_sorts s scores ≡ₚ seq 0 (length (ids s)).
Proof. unfold three_sorts. by rewrite !argsort_stable_perm. Qed.

Lemma sorted_order_ranks (s : searcher) (scores : list float) (x y : nat) :
  sorted_order s scores x y →
  ltb (Fin 0) (at_row NaN scores x) = true →
  ltb (Fin 0) (at_row NaN scores y) = true →
  ranks_before (entry_of s scores x) (entry_of s scores y).
Proof.
  intros [Hle Htie] (? & qx & _ & Hx & _)%ltb_finite (? & qy & _ & Hy & _)%ltb_finite.
  exists qx, qy. unfold entry_of. cbn [fst snd]. do 2 (split; [done |]).
  rewrite Hx, Hy in Hle, Htie. cbn in Hle, Htie.
  apply Qle_bool_iff in Hle.
  destruct (Qlt_le_dec qy qx) as [Hlt|Hge]; [by left |]. right.
  split; [lra |].
  destruct Htie as [Hname Htie]; [apply Qle_bool_iff; lra |].
  apply string_leb_cases in Hname as [Hlt|[Heq Hback]]; [by left | right].
  split; [done |]. by destruct (Htie Hback) as [Hid _].
Qed.

(** C1. The entries that [Searcher.__call__] returns are the entries of
    rows taken, in their order, from the outcome of three stable sorts
    applied in the sequence by id, by name, by score from the highest; so
    an entry stands before every later one with a higher score, or an
    equal score and a smaller name, or an equal score, the same name and
    an id that is not greater. *)
Theorem call_orders_by_score_name_id (s : searcher) (name : string) (n : Z)
  (t r : Q) (out : list string * list string * list float) :
  call s name n t r = Py.Ok out →
  (∃ rows scores,
     rows `sublist_of` three_sorts s scores
     ∧ entries out = map (entry_of s scores) rows)
  ∧ StronglySorted ranks_before (entries out).
Proof.
  intros [[_ ->]|(_ & rows & scores & Hrows & ->)]%call_inv.
  - split; [| constructor]. exists [], []. split; [apply sublist_nil_l | done].
  - apply rows_of_inv in Hrows as (c & top & _ & _ & _ & ->).
    rewrite entries_of_rows.
    set (cut := slice_to n (three_sorts s scores)).
    assert (kept scores top r cut `sublist_of` three_sorts s scores) as Hsub.
    { etrans; [apply kept_sublist | apply slice_to_sublist]. }
    split; [by eexists _, _ |].
    apply (StronglySorted_fmap _
             (λ x y, sorted_order s scores x y
                     ∧ ltb (Fin 0) (at_row NaN scores x) = true
                     ∧ ltb (Fin 0) (at_row NaN scores y) = true)).
    { intros x y (Hxy & Hx & Hy). by apply sorted_order_ranks. }
    eapply StronglySorted_impl;
      [| eapply StronglySorted_sublist; [exact Hsub | apply three_sorts_sorted]].
    intros x y (_ & _ & Hx)%kept_elem (_ & _ & Hy)%kept_elem Hxy. done.
Qed.

(** *** Thresholds *)

Lemma mapM_result_length {A B} (f : A → Py.result B) (l : list A) (k : list B) :
  mapM f l = Py.Ok k → length k = length l.
Proof.
  revert k. induction l as [|x l IH]; intros k; cbn.
  - by intros [= <-].
  - destruct (f x) as [y|e]; [| done]. cbn.
    destruct (mapM f l) as [k'|e]; [| done]. cbn.
    intros [= <-]. cbn. by rewrite (IH k').
Qed.

Lemma combined_length (s : searcher) (name : string) (c : list float) :
  well_formed s → combined s name = Py.Ok c → length c = length (ids s).
Proof.
  intros (_ & Hn & Hs). unfold combined_scores.
  assert (length (score_nlp similarity s name) = length (ids s)) as Hnlp.
  { unfold score_nlp. case_match; by rewrite length_map. }
  destruct (use_textsim s); [| by intros [= <-]].
  unfold score_jaro_winkler_split_names, cmdsplitsarray_split_names.
  destruct (mapM _ (split_names s)) as [lex|e] eqn:Hlex; [| done].
  apply mapM_result_length in Hlex. cbn. intros [= <-].
  rewrite length_zip_with, length_map. lia.
Qed.

Lemma final_scores_length (s : searcher) (t : Q) (c : list float) :
  well_formed s → length c = length (ids s) →
  length (final_scores s t c) = length (ids s).
Proof.
  intros (Hp & _ & _) Hc. unfold final_scores, subtract_penalty, apply_threshold.
  rewrite length_zip_with, length_map, Hp, length_map. lia.
Qed.

(** The score of a row: the combined score, put to -1 when it is below
    the threshold, minus the penalty of the id of the row. *)
Lemma final_scores_lookup (s : searcher) (t : Q) (c : list float) (row : nat)
  (x : float) :
  well_formed s →
  final_scores s t c !! row = Some x →
  ∃ y, c !! row = Some y
       ∧ x = sub (if ltb y (Fin t) then Fin (-1) else y)
                 (Fin (penalty_of (at_row "" (ids s) row))).
Proof.
  intros (Hp & _ & _). unfold final_scores, subtract_penalty, apply_threshold.
  rewrite lookup_zip_with, list_lookup_fmap, Hp, list_lookup_fmap.
  destruct (c !! row) as [y|]; [| done]. cbn.
  rewrite at_row_lookup. destruct (ids s !! row) as [id|]; [| done]. cbn.
  intros [= <-]. by exists y.
Qed.

(** A positive score belongs to a row whose combined score is finite and
    not below the threshold. *)
Lemma positive_score_combined (s : searcher) (t : Q) (c : list float)
  (row : nat) :
  well_formed s →
  ltb (Fin 0) (at_row NaN (final_scores s t c) row) = true →
  ∃ q, at_row NaN c row = Fin q
       ∧ (t <= q)%Q
       ∧ at_row NaN (final_scores s t c) row
         = Fin (q - penalty_of (at_row "" (ids s) row))
       ∧ (0 < q - penalty_of (at_row "" (ids s) row))%Q.
Proof.
  intros Hwf (? & x & [= <-] & Hx & Hpos)%ltb_finite.
  pose proof (at_row_finite _ _ _ Hx) as Hl.
  apply (final_scores_lookup _ _ _ _ _ Hwf) in Hl as (y & Hy & Hsub).
  pose proof (penalty_of_nonneg (at_row "" (ids s) row)) as Hpen.
  rewrite (at_row_lookup NaN c), Hy. cbn.
  destruct y as [|q]; [done |]. cbn in Hsub.
  destruct (Qltb q t) eqn:Hlt; cbn in Hsub; injection Hsub as ->.
  - exfalso. lra.
  - exists q. split; [done |]. split; [| by rewrite Hx].
    unfold Qltb in Hlt. apply negb_false_iff, Qle_bool_iff in Hlt. done.
Qed.






(** *** When [__call__] returns *)

Lemma mapM_result_ok {A B} (f : A → Py.result B) (l : list A) :
  Forall (λ x, ∃ y, f x = Py.Ok y) l → ∃ k, mapM f l = Py.Ok k.
Proof.
  induction 1 as [|x l [y Hy] _ [k Hk]]; [by eexists |].
  cbn. rewrite Hy. cbn. rewrite Hk. cbn. by eexists.
Qed.

Lemma select_nonempty (l : list (list string)) :
  Forall (λ w, w ≠ []) (select l (map (λ w, (0 <? length w)%nat) l)).
Proof.
  unfold select. induction l as [|w l IH]; [constructor |].
  cbn [map]. change (zip (w :: l) (?b :: ?m)) with ((w, b) :: zip l m).
  rewrite filter_cons. cbn [snd]. destruct w as [|a w]; cbn [length Nat.ltb Nat.leb].
  - by rewrite decide_False.
  - rewrite decide_True by done. cbn. by constructor.
Qed.

Lemma init_split_names (ids0 names0 : list string) (use_nlp use_textsim0 : bool)
  (s : searcher) :
  __init__ ids0 names0 use_nlp use_textsim0 = Py.Ok s →
  Forall (λ w, w ≠ []) (split_names s).
Proof.
  unfold __init__. case_match; [| done]. intros [= <-]. cbn.
  apply select_nonempty.
Qed.

Lemma cmpsplits_ok (names1 names2 : list string) :
  names2 ≠ [] → ∃ x, cmpsplits jaro_winkler root4 names1 names2 = Py.Ok x.
Proof.
  intros Hne. unfold cmpsplits.
  destruct (mapM_result_ok (λ n, max_of (map (jaro_winkler n) names2)) names1)
    as [a ->].
  { apply Forall_forall. intros n _. destruct names2; [done |]. by eexists. }
  cbn. destruct a; by eexists.
Qed.

(** On an index with at least one document [__call__] returns; on an
    index without documents it raises the error of [scores.max()] for
    every query that is not empty once normalized. *)
Lemma call_returns (ids0 names0 : list string) (use_nlp use_textsim0 : bool)
  (s : searcher) (name : string) (n : Z) (t r : Q) :
  __init__ ids0 names0 use_nlp use_textsim0 = Py.Ok s →
  (ids s ≠ [] → ∃ out, call s name n t r = Py.Ok out)
  ∧ (ids s = [] → normalizestring name ≠ "" →
     call s name n t r = Py.Raise (Py.ValueError Py.ZeroSizeReduction)).
Proof.
  intros Hinit. pose proof (init_well_formed _ _ _ _ _ Hinit) as Hwf.
  pose proof (init_split_names _ _ _ _ _ Hinit) as Hsplit.
  assert (∃ c, combined s (normalizestring name) = Py.Ok c) as [c Hc].
  { unfold combined_scores. destruct (use_textsim s); [| by eexists].
    unfold score_jaro_winkler_split_names, cmdsplitsarray_split_names.
    destruct (mapM_result_ok
                (cmpsplits jaro_winkler root4 (splitwords (normalizestring name)))
                (split_names s)) as [lex ->]; [| by eexists].
    eapply Forall_impl; [exact Hsplit |]. intros w Hw. by apply cmpsplits_ok. }
  pose proof (final_scores_length s t c Hwf (combined_length _ _ _ Hwf Hc)) as Hlen.
  unfold __call__, best_rows, cut_rows. rewrite Hc.
  cbn [mbind result_bind Py.bind]. fold (final_scores s t c).
  split.
  - intros Hne. destruct (String.eqb _ ""); [by eexists |].
    destruct (final_scores s t c) as [|x sc] eqn:Hsc.
    { destruct (ids s); [done | discriminate]. }
    cbn. by eexists.
  - intros Hempty Hname. rewrite (proj2 (String.eqb_neq _ _) Hname).
    rewrite Hempty in Hlen. by destruct (final_scores s t c).
Qed.

(** *** The penalty comes after the threshold *)

Lemma cmpsplits_same_word :
  jaro_winkler "b" "b" = 1%Q → root4 1 = 1%Q →
  cmpsplits jaro_winkler root4 ["b"] ["b"] = Py.Ok (Fin 1).
Proof.
  intros Hjw Hroot. unfold cmpsplits. cbn [mapM map max_of foldl].
  rewrite Hjw. cbn [mbind result_bind Py.bind mret result_ret].
  change (root4 _) with (root4 1). by rewrite Hroot.
Qed.

Lemma call_example_below_threshold :
  jaro_winkler "b" "b" = 1%Q → root4 1 = 1%Q →
  ∃ s, __init__ ["b"] ["b"] true true = Py.Ok s
       ∧ call s "b" 20 1 (8 # 10) = Py.Ok (["b"], ["b"], [Fin (97 # 100)]).
Proof.
  intros Hjw Hroot. eexists. split; [vm_compute; reflexivity |].
  unfold __call__. change (normalizestring "b") with "b".
  change (String.eqb "b" "") with false. cbv iota.
  unfold best_rows, combined_scores, score_jaro_winkler_split_names,
    cmdsplitsarray_split_names.
  cbn [use_textsim split_names]. change (splitwords "b") with ["b"].
  cbn [mapM]. rewrite (cmpsplits_same_word Hjw Hroot).
  vm_compute. reflexivity.
Qed.

(** C10. The scores that [Searcher.__call__] returns have the penalty
    taken off: a returned score is the combined score of its row, which is
    not below the threshold, minus 0.03 times [levels] of the id of the
    row, and it is above 0; with one document "b" and the threshold 1 the
    query "b" returns the score 0.97, below the threshold by exactly the
    penalty of the id. *)
Theorem returned_scores_are_penalty_adjusted :
  (∀ ids0 names0 use_nlp use_textsim0 s name n t r out,
     __init__ ids0 names0 use_nlp use_textsim0 = Py.Ok s →
     call s name n t r = Py.Ok out →
     ∃ rows scores c,
       entries out = map (entry_of s scores) rows
       ∧ (rows ≠ [] → combined s (normalizestring name) = Py.Ok c)
       ∧ ∀ row, row ∈ rows →
           ∃ q, at_row NaN c row = Fin q
                ∧ (t <= q)%Q
                ∧ at_row NaN scores row
                  = Fin (q - (3 # 100)
                             * inject_Z (Z.of_nat (levels (at_row "" (ids s) row))))
                ∧ (0 < q - (3 # 100)
                         * inject_Z (Z.of_nat (levels (at_row "" (ids s) row))))%Q)
  ∧ (jaro_winkler "b" "b" = 1%Q → root4 1 = 1%Q →
     ∃ s, __init__ ["b"] ["b"] true true = Py.Ok s
          ∧ call s "b" 20 1 (8 # 10) = Py.Ok (["b"], ["b"], [Fin (97 # 100)])
          ∧ (97 # 100 < 1)%Q
          ∧ (97 # 100 == 1 - (3 # 100) * inject_Z (Z.of_nat (levels "b")))%Q).
Proof.
  split.
  - intros ids0 names0 use_nlp use_textsim0 s name n t r out
      Hwf%init_well_formed [[_ ->]|(_ & rows & scores & Hrows & ->)]%call_inv.
    { exists [], [], []. repeat split; try done. by intros row ?%not_elem_of_nil. }
    apply rows_of_inv in Hrows as (c & top & Hc & -> & Htop & ->).
    eexists _, _, c. rewrite entries_of_rows. split; [done |]. split; [done |].
    intros row (_ & _ & Hpos)%kept_elem.
    by apply positive_score_combined.
  - intros Hjw Hroot.
    destruct (call_example_below_threshold Hjw Hroot) as (s & Hs & Hcall).
    exists s. repeat split; done.
Qed.


End Call.

(** ** The result normalizer: [NormalizedSearcher.__call__] *)

Section Normalizer.

Import Float Parser Notions.

Variable similarity : string → string → Q.
Variable jaro_winkler : string → string → Q.
Variable root4 : Q → Q.






Lemma mapM_result_Forall2 {A B} (f : A → Py.result B) (l : list A) (k : list B) :
  mapM f l = Py.Ok k → Forall2 (λ x y, f x = Py.Ok y) l k.
Proof.
  revert k. induction l as [|x l IH]; intros k; cbn.
  - intros [= <-]. constructor.
  - destruct (f x) as [y|e] eqn:Hy; [| done]. cbn.
    destruct (mapM f l) as [k'|e]; [| done]. cbn.
    intros [= <-]. constructor; [done | by apply IH].
Qed.





End Normalizer.

(** ** Flattening a tree and building it again *)

Section Store.

Import Parser Notions.

Lemma children_ids_snoc (l : list item) (x : item) (k : string) :
  children_ids (l ++ [x]) k
  = children_ids l k
    ++ (if decide (effective_parent x = Some k) then [item_id x] else []).
Proof.
  unfold children_ids, item_ids. rewrite filter_app, map_app. f_equal.
  rewrite filter_cons, filter_nil. by case_decide.
Qed.

Lemma root_ids_snoc (l : list item) (x : item) :
  root_ids (l ++ [x])
  = root_ids l ++ (if decide (effective_parent x = None) then [item_id x] else []).
Proof.
  unfold root_ids, item_ids. rewrite filter_app, map_app. f_equal.
  rewrite filter_cons, filter_nil. by case_decide.
Qed.

Lemma children_ids_undeclared (l : list item) (k : string) :
  parents_declared l → k ∉ item_ids l → children_ids l k = [].
Proof.
  intros Hdecl Hk. unfold children_ids.
  destruct (filter _ l) as [|c l'] eqn:Hf; [done |]. exfalso.
  assert (c ∈ filter (λ c, effective_parent c = Some k) l) as Hc
    by (rewrite Hf; left).
  apply list_elem_of_filter in Hc as [Hp Hc]. apply Hk. by eapply Hdecl.
Qed.

Lemma item_ids_snoc (l : list item) (x : item) :
  item_ids (l ++ [x]) = item_ids l ++ [item_id x].
Proof. unfold item_ids. by rewrite map_app. Qed.

Lemma elem_of_item_ids (l : list item) (it : item) :
  it ∈ l → item_id it ∈ item_ids l.
Proof. intros Hin. unfold item_ids. by apply list_elem_of_fmap_2. Qed.

(** One more item: the store goes on representing the items read. *)
Lemma append_represents (l : list item) (st : builder) (x : item) :
  represents l st →
  dom (nodes st) = list_to_set (item_ids l) →
  parents_declared l →
  offence (dom (nodes st)) x = None →
  ∃ st', _append st x = Py.Ok st'
         ∧ represents (l ++ [x]) st'
         ∧ dom (nodes st') = list_to_set (item_ids (l ++ [x]))
         ∧ parents_declared (l ++ [x]).
Proof.
  intros [Htop Hcells] Hdom Hdecl Hoff.
  pose proof (append_offence st x) as Hstep. rewrite Hoff in Hstep.
  destruct Hstep as (st' & Hst' & Hdom'). exists st'. split; [done |].
  unfold offence in Hoff.
  destruct (decide (item_id x ∈ dom (nodes st))) as [|Hnew]; [done |].
  assert (item_id x ∉ item_ids l) as Hfresh.
  { intros Hin. apply Hnew. rewrite Hdom. by apply elem_of_list_to_set. }
  assert (children_ids l (item_id x) = []) as Hnokids
    by by apply children_ids_undeclared.
  assert (∀ it, it ∈ l → item_id it ≠ item_id x) as Hother.
  { intros it Hin Heq. apply Hfresh. rewrite <- Heq. by apply elem_of_item_ids. }
  assert (dom (nodes st') = list_to_set (item_ids (l ++ [x]))) as Hdom''.
  { rewrite Hdom', Hdom, item_ids_snoc, list_to_set_app_L. set_solver. }
  split; [| split; [done |]].
  - unfold _append in Hst'. apply not_elem_of_dom in Hnew. rewrite Hnew in Hst'.
    destruct (effective_parent x) as [p|] eqn:Hp.
    + destruct (decide (p ∈ dom (nodes st))) as [Hpin|]; [| done].
      apply elem_of_dom in Hpin as [parent Hparent]. rewrite Hparent in Hst'.
      injection Hst' as <-. split; cbn [tree_children nodes].
      * rewrite root_ids_snoc, Hp, Htop. case_decide; [done |]. by rewrite app_nil_r.
      * intros it [Hin| ->%list_elem_of_singleton]%elem_of_app.
        -- rewrite lookup_insert_ne by (symmetry; by apply Hother).
           unfold cell_for. rewrite children_ids_snoc, Hp.
           destruct (decide (item_id it = p)) as [Heq|Hne].
           ++ rewrite <- Heq, lookup_insert_eq.
              rewrite <- Heq, (Hcells it Hin) in Hparent. injection Hparent as <-.
              unfold add_child, cell_for. cbn. f_equal. case_decide; congruence.
           ++ rewrite lookup_insert_ne by done. rewrite (Hcells it Hin).
              unfold cell_for. f_equal. case_decide; [congruence |].
              by rewrite app_nil_r.
        -- rewrite lookup_insert_eq. unfold cell_for. f_equal.
           rewrite children_ids_snoc, Hnokids, Hp. case_decide; [| done].
           exfalso. assert (p = item_id x) as -> by congruence. congruence.
    + injection Hst' as <-. split; cbn [tree_children nodes].
      * rewrite root_ids_snoc, Hp, Htop. by case_decide.
      * intros it [Hin| ->%list_elem_of_singleton]%elem_of_app.
        -- rewrite lookup_insert_ne by (symmetry; by apply Hother).
           rewrite (Hcells it Hin). unfold cell_for. f_equal.
           rewrite children_ids_snoc, Hp. case_decide; [done |].
           by rewrite app_nil_r.
        -- rewrite lookup_insert_eq. unfold cell_for. f_equal.
           rewrite children_ids_snoc, Hnokids, Hp. by case_decide.
  - intros c p [Hc| ->%list_elem_of_singleton]%elem_of_app Hp;
      rewrite item_ids_snoc, elem_of_app.
    + left. by eapply Hdecl.
    + left. rewrite Hp in Hoff.
      destruct (decide (p ∈ dom (nodes st))) as [Hpin|]; [| done].
      rewrite Hdom in Hpin. by apply elem_of_list_to_set in Hpin.
Qed.

Lemma append_all_represents (rest l : list item) (st : builder) :
  represents l st →
  dom (nodes st) = list_to_set (item_ids l) →
  parents_declared l →
  first_offence (dom (nodes st)) rest = None →
  ∃ st', append_all st rest = Py.Ok st' ∧ represents (l ++ rest) st'.
Proof.
  revert l st. induction rest as [|x rest IH]; intros l st Hrep Hdom Hdecl Hfo.
  - exists st. rewrite app_nil_r. done.
  - cbn [first_offence] in Hfo.
    destruct (offence (dom (nodes st)) x) eqn:Hoff; [done |].
    destruct (append_represents l st x Hrep Hdom Hdecl Hoff)
      as (st' & Hst' & Hrep' & Hdom' & Hdecl').
    cbn [append_all]. rewrite Hst'. cbn.
    replace (l ++ x :: rest) with ((l ++ [x]) ++ rest) by by rewrite <- app_assoc.
    apply IH; try done.
    rewrite Hdom', item_ids_snoc, list_to_set_app_L, <- Hdom.
    replace (dom (nodes st) ∪ list_to_set [item_id x])
      with ({[item_id x]} ∪ dom (nodes st)) by set_solver. done.
Qed.

(** The store built from a list without offence. *)
Lemma append_all_store (l : list item) :
  first_offence ∅ l = None →
  ∃ st, append_all empty_builder l = Py.Ok st ∧ represents l st.
Proof.
  intros Hfo.
  destruct (append_all_represents l [] empty_builder) as (st & Hst & Hrep); try done.
  - split; [done |]. by intros it ?%not_elem_of_nil.
  - by intros c p ?%not_elem_of_nil.
  - by exists st.
Qed.

(** *** The outcome of [buildtree] *)

(** In a store built from an accepted list the children of an item stand
    later in the list than the item, so reading an item out needs no more
    fuel than the number of items from it to the end. *)
Lemma discardempty_total (l : list item) (st : builder) :
  first_offence ∅ l = None →
  represents l st →
  ∀ fuel i x, l !! i = Some x → (length l - i ≤ fuel)%nat →
              is_Some (_discardempty fuel (nodes st) (item_id x)).
Proof.
  intros (Hnd & _ & Hpar)%first_offence_none [_ Hcells].
  induction fuel as [|fuel IH]; intros i x Hi Hfuel.
  - apply lookup_lt_Some in Hi. lia.
  - cbn [_discardempty]. rewrite (Hcells x) by by eapply list_elem_of_lookup_2.
    cbn [mbind option_bind cell_for cell_children].
    assert (is_Some (mapM (_discardempty fuel (nodes st))
                       (children_ids l (item_id x)))) as [kids ->]; [| by eexists].
    apply mapM_is_Some, Forall_forall. intros k Hk. unfold children_ids in Hk.
    apply list_elem_of_fmap in Hk as (c & -> & Hc).
    apply list_elem_of_filter in Hc as [Hp Hc].
    apply list_elem_of_lookup in Hc as [j Hj].
    destruct (Hpar j c (item_id x) Hj Hp) as [Hin|Hin]; [set_solver |].
    apply elem_of_take_ids in Hin as (i' & a & Hlt & Hi' & Ha).
    assert (i' = i) as ->.
    { apply (NoDup_lookup _ i' i (item_id x) Hnd); unfold item_ids;
        rewrite list_lookup_fmap; [rewrite Hi' | rewrite Hi]; cbn; congruence. }
    apply (IH j c Hj). lia.
Qed.

(** [buildtree] on a document that the schema accepts: the error of the
    first offending node, or the missing key of an empty list, or a tree. *)
Lemma buildtree_outcome (validate : generic_tree → bool) (g : generic_tree) :
  validate g = true →
  match first_offence ∅ (gt_nodes g) with
  | Some m => buildtree validate g = Py.Raise (Py.ValueError m)
  | None =>
      match gt_nodes g with
      | [] => buildtree validate g = Py.Raise (Py.KeyError "children")
      | _ :: _ => ∃ tree, buildtree validate g = Py.Ok tree ∧ tree ≠ []
      end
  end.
Proof.
  intros Hv. destruct (first_offence ∅ (gt_nodes g)) as [m|] eqn:Hfo.
  { by apply buildtree_first_offence. }
  unfold buildtree. rewrite Hv.
  destruct (append_all_store _ Hfo) as (st & Hst & Hrep). rewrite Hst.
  cbn [mbind result_bind Py.bind].
  assert (is_Some (mapM (_discardempty (S (length (gt_nodes g))) (nodes st))
                     (tree_children st))) as [kids Hkids].
  { apply mapM_is_Some, Forall_forall. intros k Hk.
    destruct Hrep as [Htop Hcells]. rewrite Htop in Hk. unfold root_ids in Hk.
    apply list_elem_of_fmap in Hk as (c & -> & Hc).
    apply list_elem_of_filter in Hc as [_ Hc].
    apply list_elem_of_lookup in Hc as [j Hj].
    apply (discardempty_total _ st Hfo (conj Htop Hcells) _ j c Hj). lia. }
  rewrite Hkids. apply mapM_Some_1, Forall2_length in Hkids.
  destruct Hrep as [Htop _]. rewrite Htop in Hkids.
  destruct (gt_nodes g) as [|x l] eqn:Hl.
  - cbn in Hkids. by destruct kids.
  - assert (effective_parent x = None) as Hroot.
    { apply first_offence_none in Hfo as (_ & _ & Hpar).
      destruct (effective_parent x) as [p|] eqn:Hp; [| done].
      destruct (Hpar 0 x p eq_refl Hp) as [Hin|Hin]; [set_solver |].
      by apply not_elem_of_nil in Hin. }
    unfold root_ids in Hkids. rewrite filter_cons, decide_True in Hkids by done.
    destruct kids as [|k kids]; [done |]. by exists (k :: kids).
Qed.

End Store.

Section Flatten.

Import Parser Registry Notions.

Variable metadata_field : string.

#[local] Abbreviation dft := _depth_first_traversal.

Lemma forest_ids_node (n : node) (f : list node) :
  forest_ids (n :: f) = node_id n :: forest_ids (children_of n) ++ forest_ids f.
Proof. unfold forest_ids. by rewrite dft_cons, fmap_cons, map_app. Qed.

Lemma forest_ids_app (f1 f2 : list node) :
  forest_ids (f1 ++ f2) = forest_ids f1 ++ forest_ids f2.
Proof. unfold forest_ids. by rewrite dft_app, map_app. Qed.

Lemma node_size_unfold (n : node) :
  node_size n = S (forest_size (children_of n)).
Proof. by destruct n as [i nm md ot [l|]]. Qed.

Lemma forest_size_cons (n : node) (f : list node) :
  forest_size (n :: f) = S (forest_size (children_of n) + forest_size f).
Proof. unfold forest_size at 1. cbn. by rewrite node_size_unfold. Qed.

Lemma forest_size_app (f1 f2 : list node) :
  forest_size (f1 ++ f2) = forest_size f1 + forest_size f2.
Proof. unfold forest_size. by rewrite map_app, list_sum_app. Qed.

(** The loop of [_to_generic_nodes] ends for every tree. *)
Lemma to_generic_loop_total (fuel : nat) (to_visit : list node)
  (parents : gmap string string) (acc : list item) :
  (forest_size to_visit ≤ fuel)%nat →
  is_Some (to_generic_loop fuel metadata_field to_visit parents acc).
Proof.
  revert to_visit parents acc.
  induction fuel as [|fuel IH]; intros [|n rest] parents acc Hsize;
    try (by eexists).
  - rewrite forest_size_cons in Hsize. lia.
  - cbn [to_generic_loop]. apply IH.
    rewrite forest_size_cons in Hsize. rewrite forest_size_app. lia.
Qed.

Lemma to_generic_nodes_total (tree : list node) :
  is_Some (_to_generic_nodes tree metadata_field).
Proof. unfold _to_generic_nodes. by apply to_generic_loop_total. Qed.

Lemma map_snd_annotate (p : option string) (f : list node) :
  map snd (annotate p f) = f.
Proof. unfold annotate. rewrite map_map. apply map_id. Qed.

Lemma elem_of_annotate (p : option string) (f : list node)
  (pn : option string * node) :
  pn ∈ annotate p f ↔ pn.1 = p ∧ pn.2 ∈ f.
Proof.
  unfold annotate. rewrite list_elem_of_fmap. split.
  - by intros (c & -> & Hc).
  - destruct pn as [q c]. cbn. intros [-> Hc]. by exists c.
Qed.

Lemma node_id_in_forest (c : node) (f : list node) :
  c ∈ f → node_id c ∈ forest_ids f.
Proof.
  induction f as [|n f IH]; [by intros ?%not_elem_of_nil |].
  rewrite forest_ids_node.
  intros [->|Hc]%elem_of_cons; [left |]. right. apply elem_of_app. right. by apply IH.
Qed.

(** *** The entries of [parents] *)

Lemma record_parents_out (id k : string) (kids : list node)
  (parents : gmap string string) :
  k ∉ map node_id kids → record_parents id kids parents !! k = parents !! k.
Proof.
  unfold record_parents. revert parents.
  induction kids as [|c kids IH]; intros parents Hk; [done |]. cbn in *.
  rewrite IH by set_solver. apply lookup_insert_ne. set_solver.
Qed.

Lemma record_parents_in (id k : string) (kids : list node)
  (parents : gmap string string) :
  k ∈ map node_id kids → record_parents id kids parents !! k = Some id.
Proof.
  revert parents. induction kids as [|c kids IH]; intros parents Hk;
    [by apply not_elem_of_nil in Hk |].
  destruct (decide (k ∈ map node_id kids)) as [Hin|Hout].
  - apply (IH (<[node_id c := id]> parents) Hin).
  - change (record_parents id (c :: kids) parents)
      with (record_parents id kids (<[node_id c := id]> parents)).
    rewrite record_parents_out by done.
    cbn in Hk. apply elem_of_cons in Hk as [->|Hk]; [| done].
    apply lookup_insert_eq.
Qed.

(** *** The loop and the items of the annotated queue *)

Lemma to_generic_loop_items (fuel : nat) (queue : list (option string * node))
  (parents : gmap string string) (acc : list item) :
  (forest_size (map snd queue) ≤ fuel)%nat →
  NoDup (forest_ids (map snd queue)) →
  (∀ pn, pn ∈ queue → parents !! node_id pn.2 = pn.1) →
  to_generic_loop fuel metadata_field (map snd queue) parents acc
  = Some (acc ++ bfs_items fuel metadata_field queue).
Proof.
  revert queue parents acc.
  induction fuel as [|fuel IH]; intros [|[p n] queue] parents acc Hsize Hnd Hpar.
  - cbn. by rewrite app_nil_r.
  - cbn [map snd] in Hsize. rewrite forest_size_cons in Hsize. lia.
  - cbn. by rewrite app_nil_r.
  - cbn [map snd] in *. rewrite forest_size_cons in Hsize.
    rewrite forest_ids_node in Hnd.
    apply NoDup_cons in Hnd as [Hn Hnd]. apply NoDup_app in Hnd as (Hk & Hdisj & Hq).
    cbn [to_generic_loop bfs_items snd].
    rewrite <- (map_snd_annotate (Some (node_id n)) (children_of n)) at 1.
    rewrite <- map_app, IH.
    + replace (generic_node metadata_field parents n)
        with (as_item metadata_field (p, n)); [by rewrite <- app_assoc |].
      unfold generic_node, as_item. cbn [fst snd].
      pose proof (Hpar (p, n)) as Hp. cbn [fst snd] in Hp.
      rewrite Hp by left. done.
    + rewrite map_app, map_snd_annotate, forest_size_app. lia.
    + rewrite map_app, map_snd_annotate, forest_ids_app.
      apply NoDup_app. split; [done |]. split; [| done].
      intros k Hkq Hkk. by apply (Hdisj k).
    + intros pn [Hpn|[Hp Hc]%elem_of_annotate]%elem_of_app.
      * rewrite record_parents_out; [apply Hpar; by right |].
        intros (c & Hid & Hc)%list_elem_of_fmap.
        apply (Hdisj (node_id pn.2)).
        -- rewrite Hid. by apply node_id_in_forest.
        -- apply node_id_in_forest. by apply list_elem_of_fmap_2.
      * rewrite Hp. apply record_parents_in. by apply list_elem_of_fmap_2.
Qed.

(** An induction principle for the items of a queue: the queue loses its
    first node and gains the children of that node at its end. *)
Lemma bfs_items_ind (P : list (option string * node) → list item → Prop) :
  P [] [] →
  (∀ p n queue items,
     node_id n ∉ forest_ids (children_of n) →
     node_id n ∉ forest_ids (map snd queue) →
     NoDup (forest_ids (children_of n)) →
     NoDup (forest_ids (map snd queue)) →
     (∀ k, k ∈ forest_ids (children_of n) → k ∉ forest_ids (map snd queue)) →
     P (queue ++ annotate (Some (node_id n)) (children_of n)) items →
     P ((p, n) :: queue) (as_item metadata_field (p, n) :: items)) →
  ∀ fuel queue,
    (forest_size (map snd queue) ≤ fuel)%nat →
    NoDup (forest_ids (map snd queue)) →
    P queue (bfs_items fuel metadata_field queue).
Proof.
  intros Hnil Hstep.
  induction fuel as [|fuel IH]; intros [|[p n] queue] Hsize Hnd; try done.
  - cbn [map snd] in Hsize. rewrite forest_size_cons in Hsize. lia.
  - cbn [map snd] in *. rewrite forest_size_cons in Hsize.
    rewrite forest_ids_node in Hnd.
    apply NoDup_cons in Hnd as [Hn Hnd]. apply NoDup_app in Hnd as (Hk & Hdisj & Hq).
    cbn [bfs_items snd]. apply Hstep; try done.
    + intros Hin. apply Hn, elem_of_app. by left.
    + intros Hin. apply Hn, elem_of_app. by right.
    + apply IH.
      * rewrite map_app, map_snd_annotate, forest_size_app. lia.
      * rewrite map_app, map_snd_annotate, forest_ids_app.
        apply NoDup_app. split; [done |]. split; [| done].
        intros k Hkq Hkk. by apply (Hdisj k).
Qed.

(** *** What the items of a queue are *)

Lemma top_ids_app (a : option string) (q1 q2 : list (option string * node)) :
  top_ids a (q1 ++ q2) = top_ids a q1 ++ top_ids a q2.
Proof. unfold top_ids. by rewrite filter_app, map_app. Qed.

Lemma top_ids_annotate (a p : option string) (f : list node) :
  top_ids a (annotate p f) = if decide (p = a) then map node_id f else [].
Proof.
  unfold top_ids, annotate. destruct (decide (p = a)) as [Heq|Hne];
    (induction f as [|c f IH]; [done |]);
    cbn [map]; rewrite filter_cons; cbn [fst].
  - rewrite decide_True by done. cbn [map snd]. by rewrite IH.
  - by rewrite decide_False.
Qed.

Lemma kid_ids_app (a : option string) (f1 f2 : list node) :
  kid_ids a (f1 ++ f2) = kid_ids a f1 ++ kid_ids a f2.
Proof.
  destruct a as [k|]; [| done]. unfold kid_ids. by rewrite dft_app, flat_map_app.
Qed.

Lemma kid_ids_cons (k : string) (n : node) (f : list node) :
  kid_ids (Some k) (n :: f)
  = (if decide (node_id n = k) then map node_id (children_of n) else [])
    ++ kid_ids (Some k) (children_of n) ++ kid_ids (Some k) f.
Proof.
  unfold kid_ids. rewrite dft_cons. cbn [flat_map]. by rewrite flat_map_app.
Qed.

Lemma kid_ids_absent (k : string) (f : list node) :
  k ∉ forest_ids f → kid_ids (Some k) f = [].
Proof.
  unfold forest_ids, kid_ids. induction (dft f) as [|t l IH]; [done |].
  cbn. intros Hk. rewrite IH by set_solver.
  case_decide; [set_solver | done].
Qed.

(** The items with a given entry for the parent are the nodes of the queue
    with that entry, followed by the children of the node with that id. *)
Lemma bfs_items_by_parent (fuel : nat) (queue : list (option string * node)) :
  (forest_size (map snd queue) ≤ fuel)%nat →
  NoDup (forest_ids (map snd queue)) →
  ∀ a, by_parent a (bfs_items fuel metadata_field queue)
       = top_ids a queue ++ kid_ids a (map snd queue).
Proof.
  revert fuel queue.
  apply (bfs_items_ind (λ queue items,
    ∀ a, by_parent a items = top_ids a queue ++ kid_ids a (map snd queue))).
  { by intros [k|]. }
  intros p n queue items Hn1 Hn2 Hndk Hndq Hdisj IH a.
  unfold by_parent in *. rewrite filter_cons. cbn [as_item item_parent_id fst].
  unfold top_ids at 1. rewrite filter_cons. cbn [fst].
  fold (top_ids a queue).
  assert (item_ids (filter (λ c, item_parent_id c = a) items)
          = top_ids a queue ++ kid_ids a (n :: map snd queue)) as Hrest.
  { rewrite IH, top_ids_app, top_ids_annotate, map_app, map_snd_annotate, kid_ids_app.
    cbn [map snd].
    destruct a as [k|];
      [| rewrite decide_False by done; cbn [kid_ids]; by rewrite !app_nil_r].
    rewrite kid_ids_cons. rewrite <- !app_assoc. f_equal.
    destruct (decide (node_id n = k)) as [<-|Hne].
    - rewrite decide_True by done.
      rewrite (kid_ids_absent _ _ Hn1), (kid_ids_absent _ _ Hn2).
      by rewrite !app_nil_r.
    - rewrite decide_False by congruence. cbn [app].
      destruct (decide (k ∈ forest_ids (children_of n))) as [Hin|Hout].
      + rewrite (kid_ids_absent k (map snd queue)) by by apply Hdisj.
        by rewrite app_nil_r.
      + by rewrite (kid_ids_absent k (children_of n)), app_nil_r. }
  case_decide; cbn [map snd item_ids]; unfold item_ids in *; cbn [map];
    by rewrite Hrest.
Qed.

(** Every node of the queue and below has its item. *)
Lemma bfs_items_complete (fuel : nat) (queue : list (option string * node)) :
  (forest_size (map snd queue) ≤ fuel)%nat →
  NoDup (forest_ids (map snd queue)) →
  ∀ t, t ∈ dft (map snd queue) →
       ∃ p, as_item metadata_field (p, t) ∈ bfs_items fuel metadata_field queue.
Proof.
  revert fuel queue.
  apply (bfs_items_ind (λ queue items,
    ∀ t, t ∈ dft (map snd queue) → ∃ p, as_item metadata_field (p, t) ∈ items)).
  { by intros t ?%not_elem_of_nil. }
  intros p n queue items _ _ _ _ _ IH t. cbn [map snd]. rewrite dft_cons.
  intros [->|Hin]%elem_of_cons.
  - exists p. left.
  - destruct (IH t) as [q Hq]; [| exists q; by right].
    rewrite map_app, map_snd_annotate, dft_app. set_solver.
Qed.

(** The parent written in an item is the id of a node with children. *)
Lemma bfs_items_parents (fuel : nat) (queue : list (option string * node)) :
  (forest_size (map snd queue) ≤ fuel)%nat →
  NoDup (forest_ids (map snd queue)) →
  (∀ pn k, pn ∈ queue → pn.1 = Some k → k ≠ "") →
  (∀ t, t ∈ dft (map snd queue) → node_children t ≠ None → node_id t ≠ "") →
  ∀ it k, it ∈ bfs_items fuel metadata_field queue →
          item_parent_id it = Some k → k ≠ "".
Proof.
  revert fuel queue.
  apply (bfs_items_ind (λ queue items,
    (∀ pn k, pn ∈ queue → pn.1 = Some k → k ≠ "") →
    (∀ t, t ∈ dft (map snd queue) → node_children t ≠ None → node_id t ≠ "") →
    ∀ it k, it ∈ items → item_parent_id it = Some k → k ≠ "")).
  { by intros _ _ it k ?%not_elem_of_nil. }
  intros p n queue items _ _ _ _ _ IH Hann Hval it k.
  cbn [map snd] in Hval. rewrite dft_cons in Hval.
  intros [->|Hin]%elem_of_cons.
  - cbn. apply (Hann (p, n)). left.
  - apply IH; [| | done].
    + intros pn k' [Hpn|[Hp Hc]%elem_of_annotate]%elem_of_app Hk.
      * apply (Hann pn); [by right | done].
      * rewrite Hp in Hk. injection Hk as <-. apply Hval; [left |].
        destruct n as [i nm md ot [l|]]; [done |]. by apply not_elem_of_nil in Hc.
    + intros t Ht. apply Hval. rewrite map_app, map_snd_annotate, dft_app in Ht.
      set_solver.
Qed.

(** The items come in an order that [append_all] accepts. *)
Lemma bfs_items_accepted (fuel : nat) (queue : list (option string * node)) :
  (forest_size (map snd queue) ≤ fuel)%nat →
  NoDup (forest_ids (map snd queue)) →
  ∀ seen : gset string,
    (∀ k, k ∈ forest_ids (map snd queue) → k ∉ seen) →
    (∀ pn k, pn ∈ queue → pn.1 = Some k → k ∈ seen) →
    first_offence seen (bfs_items fuel metadata_field queue) = None.
Proof.
  revert fuel queue.
  apply (bfs_items_ind (λ queue items,
    ∀ seen : gset string,
      (∀ k, k ∈ forest_ids (map snd queue) → k ∉ seen) →
      (∀ pn k, pn ∈ queue → pn.1 = Some k → k ∈ seen) →
      first_offence seen items = None)).
  { done. }
  intros p n queue items Hn1 Hn2 _ _ _ IH seen Hfresh Hann.
  cbn [map snd] in Hfresh. rewrite forest_ids_node in Hfresh.
  cbn [first_offence].
  assert (offence seen (as_item metadata_field (p, n)) = None) as ->.
  { unfold offence. cbn [as_item item_id snd].
    rewrite decide_False by (apply Hfresh; left).
    unfold effective_parent. cbn [as_item item_parent_id fst].
    destruct p as [k|]; [| done]. destruct (truthy k); [| done].
    rewrite decide_True; [done |]. apply (Hann (Some k, n)); [left | done]. }
  apply IH.
  - rewrite map_app, map_snd_annotate, forest_ids_app. cbn [as_item item_id snd].
    intros k Hk [->%elem_of_singleton|Hs]%elem_of_union.
    + apply elem_of_app in Hk as [Hk|Hk]; [by apply Hn2 | by apply Hn1].
    + apply (Hfresh k); [| done]. right. set_solver.
  - intros pn k [Hpn|[Hp Hc]%elem_of_annotate]%elem_of_app Hk.
    + apply elem_of_union_r. apply (Hann pn); [by right | done].
    + rewrite Hp in Hk. injection Hk as <-. cbn. set_solver.
Qed.

End Flatten.

Section RoundTrip.

Import Parser Registry Notions.

Variable validate : generic_tree → bool.
Variable metadata_field : string.

#[local] Abbreviation dft := _depth_first_traversal.
#[local] Abbreviation md_of :=
  (λ x : node, (λ v, JObj [(metadata_field, v)]) <$> node_field metadata_field x).

Lemma filter_ext_elem {A} (P1 P2 : A → Prop)
  `{!∀ x, Decision (P1 x), !∀ x, Decision (P2 x)} (l : list A) :
  (∀ x, x ∈ l → P1 x ↔ P2 x) → filter P1 l = filter P2 l.
Proof.
  induction l as [|a l IH]; intros Hiff; [done |].
  rewrite !filter_cons, IH by (intros x Hx; apply Hiff; by right).
  pose proof (Hiff a ltac:(left)) as Ha.
  destruct (decide (P1 a)), (decide (P2 a)); try done; exfalso; naive_solver.
Qed.

Lemma bfs_items_length (fuel : nat) (queue : list (option string * node)) :
  (forest_size (map snd queue) ≤ fuel)%nat →
  NoDup (forest_ids (map snd queue)) →
  length (bfs_items fuel metadata_field queue) = forest_size (map snd queue).
Proof.
  revert fuel queue.
  apply (bfs_items_ind metadata_field (λ queue items,
    length items = forest_size (map snd queue))); [done |].
  intros p n queue items _ _ _ _ _ IH. cbn [length map snd].
  rewrite IH, map_app, map_snd_annotate, forest_size_app, forest_size_cons. lia.
Qed.

Lemma effective_parent_Some (c : item) (k : string) :
  effective_parent c = Some k ↔ item_parent_id c = Some k ∧ k ≠ "".
Proof.
  unfold effective_parent. destruct (item_parent_id c) as [p|]; [| naive_solver].
  destruct p as [|a p]; cbn; naive_solver.
Qed.

Lemma effective_parent_None (c : item) :
  effective_parent c = None ↔ item_parent_id c = None ∨ item_parent_id c = Some "".
Proof.
  unfold effective_parent. destruct (item_parent_id c) as [p|]; [| naive_solver].
  destruct p as [|a p]; cbn; naive_solver.
Qed.

(** The children of the one node with a given id. *)
Lemma kid_ids_unique (f : list node) (t : node) :
  NoDup (forest_ids f) → t ∈ dft f →
  kid_ids (Some (node_id t)) f = map node_id (children_of t).
Proof.
  unfold forest_ids, kid_ids.
  intros Hnd (l1 & l2 & Hsplit)%list_elem_of_split. rewrite Hsplit in *.
  rewrite map_app in Hnd. cbn [map] in Hnd.
  apply NoDup_app in Hnd as (_ & Hl1 & [Hl2 _]%NoDup_cons).
  assert (∀ l, node_id t ∉ map node_id l →
               flat_map (λ t0, if decide (node_id t0 = node_id t)
                               then map node_id (children_of t0) else []) l = [])
    as Hnone.
  { induction l as [|x l IH]; [done |]. cbn. intros Hx.
    rewrite IH by set_solver. case_decide; [set_solver | done]. }
  rewrite flat_map_app. cbn [flat_map].
  rewrite decide_True by done. rewrite (Hnone l2 Hl2), app_nil_r.
  rewrite Hnone; [done |]. intros Hin. apply (Hl1 _ Hin). left.
Qed.

Section Items.

Variable tree : list node.
Hypothesis Hwf : well_formed_tree tree.

#[local] Abbreviation flat := (flat metadata_field tree).

Lemma flat_generic : _to_generic_nodes tree metadata_field = Some flat.
Proof.
  destruct Hwf as [Hnd _]. unfold _to_generic_nodes, flat.
  rewrite <- (map_snd_annotate None tree) at 2.
  rewrite to_generic_loop_items; [done | | |].
  - by rewrite map_snd_annotate.
  - by rewrite map_snd_annotate.
  - by intros pn [-> _]%elem_of_annotate.
Qed.

Lemma flat_accepted : first_offence ∅ flat = None.
Proof.
  destruct Hwf as [Hnd _]. unfold flat. apply bfs_items_accepted.
  - by rewrite map_snd_annotate.
  - by rewrite map_snd_annotate.
  - set_solver.
  - intros pn k [Hp _]%elem_of_annotate Hk. congruence.
Qed.

Lemma flat_length : length flat = forest_size tree.
Proof.
  destruct Hwf as [Hnd _]. unfold flat.
  rewrite bfs_items_length; by rewrite map_snd_annotate.
Qed.

Lemma flat_parent_nonempty (it : item) (k : string) :
  it ∈ flat → item_parent_id it = Some k → k ≠ "".
Proof.
  destruct Hwf as [Hnd Hval]. unfold flat.
  apply bfs_items_parents; rewrite ?map_snd_annotate; try done.
  - intros pn k' [Hp _]%elem_of_annotate Hk. congruence.
  - intros t Ht. by apply Hval.
Qed.

Lemma flat_by_parent (a : option string) :
  by_parent a flat = top_ids a (annotate None tree) ++ kid_ids a tree.
Proof.
  destruct Hwf as [Hnd _]. unfold flat.
  rewrite bfs_items_by_parent; by rewrite map_snd_annotate.
Qed.

Lemma flat_roots : root_ids flat = map node_id tree.
Proof.
  assert (root_ids flat = by_parent None flat) as ->.
  { unfold root_ids, by_parent. f_equal. apply filter_ext_elem.
    intros c Hc. rewrite effective_parent_None. split; [| by left].
    intros [Hn|Hs]; [done |]. by apply (flat_parent_nonempty c "") in Hs. }
  rewrite flat_by_parent, top_ids_annotate.
  rewrite decide_True by done. cbn [kid_ids]. by rewrite app_nil_r.
Qed.

Lemma flat_children (t : node) :
  t ∈ dft tree → children_ids flat (node_id t) = map node_id (children_of t).
Proof.
  intros Ht. destruct Hwf as [Hnd Hval]. unfold children_ids.
  destruct (decide (node_id t = "")) as [Hempty|Hne].
  - destruct (Hval t Ht) as [_ Hch].
    assert (children_of t = []) as ->.
    { unfold children_of. destruct (node_children t); [| done].
      exfalso. by apply Hch. }
    assert (filter (λ c, effective_parent c = Some (node_id t)) flat = [])
      as ->; [| done].
    induction flat as [|c l IH]; [done |].
    rewrite filter_cons, decide_False; [done |].
    rewrite effective_parent_Some. naive_solver.
  - assert (item_ids (filter (λ c, effective_parent c = Some (node_id t)) flat)
            = by_parent (Some (node_id t)) flat) as ->.
    { unfold by_parent. f_equal. apply filter_ext_elem.
      intros c _. rewrite effective_parent_Some. naive_solver. }
    rewrite flat_by_parent, top_ids_annotate, decide_False by done.
    by apply kid_ids_unique.
Qed.

(** The cell of every node of the tree in a store that represents the
    flattened tree. *)
Lemma flat_cells (st : builder) (t : node) :
  represents flat st → t ∈ dft tree →
  nodes st !! node_id t
  = Some (Cell (node_name t) (md_of t) (map node_id (children_of t))).
Proof.
  intros [_ Hcells] Ht. destruct Hwf as [Hnd _].
  destruct (bfs_items_complete metadata_field (forest_size tree)
              (annotate None tree)) with (t := t) as [p Hp];
    rewrite ?map_snd_annotate; try done.
  fold flat in Hp. rewrite <- (flat_children t Ht).
  apply (Hcells _ Hp).
Qed.

End Items.

(** *** Reading the store out *)


Lemma node_size_le_forest (c : node) (f : list node) :
  c ∈ f → (node_size c ≤ forest_size f)%nat.
Proof.
  induction 1 as [c l|c c' l Hc IHc].
  - rewrite forest_size_cons, node_size_unfold. lia.
  - rewrite forest_size_cons. lia.
Qed.

Lemma discardempty_reads (store : gmap string cell) (t : node) :
  (∀ x, x ∈ preorder t →
        store !! node_id x
        = Some (Cell (node_name x) (md_of x) (map node_id (children_of x)))
        ∧ node_children x ≠ Some []) →
  ∀ fuel, (node_size t ≤ fuel)%nat →
          _discardempty fuel store (node_id t) = Some (rebuilt metadata_field t).
Proof.
  induction t as [i nm md ot|i nm md ot l IH] using node_ind;
    intros Hstore [|fuel] Hfuel; try (cbn in Hfuel; lia).
  - destruct (Hstore _ ltac:(left)) as [Hcell _]. cbn in Hcell.
    cbn [_discardempty node_id]. rewrite Hcell. done.
  - destruct (Hstore _ ltac:(left)) as [Hcell Hne].
    change (children_of (Node i nm md ot (Some l))) with l in Hcell.
    cbn [node_id node_name] in Hcell.
    cbn [_discardempty node_id]. rewrite Hcell. cbn [mbind option_bind cell_children].
    assert (mapM (_discardempty fuel store) (map node_id l)
            = Some (map (rebuilt metadata_field) l)) as ->.
    { apply mapM_Some_2, Forall2_fmap, Forall_Forall2_diag.
      rewrite node_size_unfold in Hfuel.
      change (children_of (Node i nm md ot (Some l))) with l in Hfuel.
      clear Hcell Hne. apply Forall_forall. intros c Hc.
      eapply Forall_forall in IH; [| exact Hc]. apply IH.
      - intros x Hx. apply Hstore. rewrite preorder_unfold. right.
        change (children_of (Node i nm md ot (Some l))) with l.
        by eapply preorder_in_dft.
      - pose proof (node_size_le_forest c l Hc). lia. }
    cbn [mbind option_bind cell_name cell_metadata].
    destruct l as [|c l]; [done |]. done.
Qed.

Lemma rebuilt_plain (t : node) :
  node_field metadata_field t = None →
  (∀ x, x ∈ preorder t →
        node_metadata x = None ∧ node_other x = ∅
        ∧ node_field metadata_field x = None) →
  rebuilt metadata_field t = t.
Proof.
  induction t as [i nm md ot|i nm md ot l IH] using node_ind; intros Hf Hplain.
  - destruct (Hplain _ ltac:(left)) as (Hmd & Hot & _). cbn in Hmd, Hot.
    cbn [rebuilt]. rewrite Hf. cbn. by rewrite Hmd, Hot.
  - destruct (Hplain _ ltac:(left)) as (Hmd & Hot & _). cbn in Hmd, Hot.
    cbn [rebuilt]. rewrite Hf. cbn [fmap option_fmap option_map].
    rewrite Hmd, Hot. do 2 f_equal.
    rewrite <- (map_id l) at 2. apply map_ext_in. intros c Hc%list_elem_of_In.
    eapply Forall_forall in IH; [| exact Hc]. apply IH.
    + assert (c ∈ preorder (Node i nm md ot (Some l))) as Hin.
      { rewrite preorder_unfold. right.
        change (children_of (Node i nm md ot (Some l))) with l.
        apply (preorder_in_dft c c l Hc). rewrite preorder_unfold. left. }
      by destruct (Hplain c Hin) as (_ & _ & ?).
    + intros x Hx. apply Hplain. rewrite preorder_unfold. right.
      change (children_of (Node i nm md ot (Some l))) with l.
      by eapply preorder_in_dft.
Qed.

(** Flattening a well-formed, non-empty tree and building the result. *)
Lemma buildtree_of_flattened (tree : list node) (name version : string) :
  well_formed_tree tree → tree ≠ [] →
  validate (GenericTree name version (flat metadata_field tree)) = true →
  _to_generic_nodes tree metadata_field = Some (flat metadata_field tree)
  ∧ buildtree validate (GenericTree name version (flat metadata_field tree))
    = Py.Ok (map (rebuilt metadata_field) tree).
Proof.
  intros Hwf Hne Hv. split; [by apply flat_generic |].
  unfold buildtree. rewrite Hv. cbn [gt_nodes].
  destruct (append_all_store (flat metadata_field tree) (flat_accepted tree Hwf))
    as (st & -> & Hrep).
  cbn [mbind result_bind Py.bind].
  assert (mapM (_discardempty (S (length (flat metadata_field tree))) (nodes st)) (tree_children st)
          = Some (map (rebuilt metadata_field) tree)) as ->.
  { destruct Hrep as [Htop Hcells]. rewrite Htop, (flat_roots tree Hwf).
    apply mapM_Some_2, Forall2_fmap, Forall_Forall2_diag, Forall_forall.
    intros c Hc. apply discardempty_reads.
    - intros x Hx. pose proof (preorder_in_dft c x tree Hc Hx) as Hin. split.
      + by apply (flat_cells tree Hwf st x).
      + destruct Hwf as [_ Hval]. by destruct (Hval x Hin).
    - rewrite (flat_length tree Hwf).
      pose proof (node_size_le_forest c tree Hc). lia. }
  destruct tree as [|c tree]; [done |]. done.
Qed.

End RoundTrip.

Section DumpAndBuild.

Import Parser Registry Notions.

Variable validate : generic_tree → bool.

Lemma rebuilt_ids (f : list node) :
  forest_ids (map (rebuilt "comments") f) = forest_ids f.
Proof.
  assert (∀ n, map node_id (preorder (rebuilt "comments" n))
               = map node_id (preorder n)) as Hnode.
  { induction n as [i nm md ot|i nm md ot l IH] using node_ind; [done |].
    cbn. f_equal. induction IH as [|c l Hc _ IHl]; [done |].
    cbn. by rewrite !map_app, Hc, IHl. }
  unfold forest_ids, _depth_first_traversal.
  induction f as [|n f IH]; [done |]. cbn. by rewrite !map_app, Hnode, IH.
Qed.

(** C3, as the code has it. For a tree with distinct ids, no empty
    [children] list, a non-empty id on every node with children and at
    least one node, [dump_to_generic_file] followed by [buildtree] gives
    the tree with the same ids, names, children and order of children, and
    without empty [children] lists; the metadata of a rebuilt node is the
    [comments] of the original node, under the key [comments], when it has
    them, and is absent otherwise; so the rebuilt tree is the original one
    when no node carries metadata or a further key. *)
Theorem dump_then_buildtree (tree : list node) (name version : string) :
  well_formed_tree tree →
  tree ≠ [] →
  (∀ g, dump_to_generic_file tree name version = Some g → validate g = true) →
  ∃ g, dump_to_generic_file tree name version = Some g
       ∧ buildtree validate g = Py.Ok (map (rebuilt "comments") tree)
       ∧ forest_ids (map (rebuilt "comments") tree) = forest_ids tree
       ∧ well_formed_tree (map (rebuilt "comments") tree)
       ∧ (plain_tree tree → map (rebuilt "comments") tree = tree).
Proof.
  intros Hwf Hne Hv.
  assert (dump_to_generic_file tree name version
          = Some (GenericTree name version (flat "comments" tree))) as Hdump.
  { unfold dump_to_generic_file. by rewrite (flat_generic "comments" tree Hwf). }
  destruct (buildtree_of_flattened validate "comments" tree name version Hwf Hne
              (Hv _ Hdump)) as [_ Hbuild].
  eexists. split; [exact Hdump |]. split; [exact Hbuild |].
  split; [apply rebuilt_ids |]. split.
  - destruct Hwf as [Hnd Hval]. split; [by rewrite rebuilt_ids |].
    assert (∀ c, (∀ x, x ∈ preorder c →
                       node_children x ≠ Some []
                       ∧ (node_children x ≠ None → node_id x ≠ "")) →
                 ∀ y, y ∈ preorder (rebuilt "comments" c) →
                      node_children y ≠ Some []
                      ∧ (node_children y ≠ None → node_id y ≠ "")) as Hnode.
    { induction c as [i nm md ot|i nm md ot l IH] using node_ind; intros Hc y.
      - cbn. intros ->%list_elem_of_singleton. cbn. done.
      - destruct (Hc _ ltac:(left)) as [Hl Hi]. cbn in Hl, Hi.
        rewrite preorder_unfold.
        intros [->|Hy]%elem_of_cons.
        + cbn. split; [| by intros _; apply Hi]. destruct l; [done | done].
        + change (children_of (rebuilt "comments" (Node i nm md ot (Some l))))
            with (map (rebuilt "comments") l) in Hy.
          unfold _depth_first_traversal in Hy.
          apply list_elem_of_In, in_flat_map in Hy as (c' & Hc' & Hy).
          apply in_map_iff in Hc' as (c & <- & Hcl%list_elem_of_In).
          eapply Forall_forall in IH; [| exact Hcl].
          apply IH; [| by apply list_elem_of_In].
          intros x Hx. apply Hc. rewrite preorder_unfold. right.
          change (children_of (Node i nm md ot (Some l))) with l.
          by eapply preorder_in_dft. }
    intros t Ht. unfold _depth_first_traversal in Ht.
    apply list_elem_of_In, in_flat_map in Ht as (c' & Hc' & Ht).
    apply in_map_iff in Hc' as (c & <- & Hc%list_elem_of_In).
    apply (Hnode c); [| by apply list_elem_of_In].
    intros x Hx. apply Hval. by eapply preorder_in_dft.
  - intros Hplain. rewrite <- (map_id tree) at 2.
    apply map_ext_in. intros c Hc%list_elem_of_In.
    assert (∀ x, x ∈ preorder c →
                 node_metadata x = None ∧ node_other x = ∅
                 ∧ node_field "comments" x = None) as Hc'.
    { intros x Hx.
      destruct (Hplain x (preorder_in_dft c x tree Hc Hx)) as [Hmd Hot].
      do 2 (split; [done |]). unfold node_field. cbn. by rewrite Hot. }
    apply rebuilt_plain; [| done].
    apply Hc'. rewrite preorder_unfold. left.
Qed.

End DumpAndBuild.

(** ** [buildtree] as a sequence of insertions *)

Section Assemble.

Import Parser Registry Notions.

Lemma Forall2_impl_elem {A B} (P Q : A → B → Prop) (l : list A) (k : list B) :
  Forall2 P l k → (∀ x y, x ∈ l → P x y → Q x y) → Forall2 Q l k.
Proof.
  induction 1 as [|x y l k Hxy _ IH]; intros Himp; constructor.
  - apply Himp; [left | done].
  - apply IH. intros x' y' Hx'. apply Himp. by right.
Qed.

Lemma graft_unfold (p : option string) (new n : node) :
  graft p new n
  = Node (node_id n) (node_name n) (node_metadata n) (node_other n)
      (if decide (p = Some (node_id n))
       then Some (map (graft p new) (children_of n) ++ [new])
       else match node_children n with
            | Some l => Some (map (graft p new) l)
            | None => None
            end).
Proof. by destruct n as [i nm md ot [l|]]. Qed.

Lemma graft_None (new n : node) : graft None new n = n.
Proof.
  induction n as [i nm md ot|i nm md ot l IH] using node_ind; [done |].
  cbn [graft]. rewrite decide_False by done. do 2 f_equal.
  rewrite <- (map_id l) at 2. apply map_ext_in. intros c Hc%list_elem_of_In.
  by eapply Forall_forall in IH.
Qed.

(** The item read last has no child yet. *)
Lemma children_ids_last (l : list item) (x : item) :
  first_offence ∅ (l ++ [x]) = None →
  children_ids (l ++ [x]) (item_id x) = [].
Proof.
  intros (Hnd & _ & Hpar)%first_offence_none. unfold children_ids.
  destruct (filter _ (l ++ [x])) as [|c rest] eqn:Hf; [done |]. exfalso.
  assert (c ∈ filter (λ c, effective_parent c = Some (item_id x)) (l ++ [x]))
    as [Hp Hc]%list_elem_of_filter by (rewrite Hf; left).
  apply list_elem_of_lookup in Hc as [j Hj].
  destruct (Hpar j c _ Hj Hp) as [Hin|Hin]; [set_solver |].
  apply elem_of_take_ids in Hin as (i' & a & Hlt & Hi' & Ha).
  pose proof (lookup_lt_Some _ _ _ Hj) as Hjlen.
  rewrite length_app in Hjlen. cbn in Hjlen.
  assert (i' = length l) as ->; [| lia].
  apply (NoDup_lookup _ i' (length l) (item_id x) Hnd); unfold item_ids;
    rewrite list_lookup_fmap.
  - rewrite Hi'. cbn. congruence.
  - by rewrite list_lookup_middle.
Qed.

(** The step of the store and the step of the tree read from it. *)
Lemma discardempty_step (l : list item) (x : item) (st st' : builder) :
  first_offence ∅ (l ++ [x]) = None →
  represents l st →
  represents (l ++ [x]) st' →
  ∀ fuel i y t,
    l !! i = Some y → (length l - i ≤ fuel)%nat →
    _discardempty fuel (nodes st) (item_id y) = Some t →
    _discardempty (S fuel) (nodes st') (item_id y)
    = Some (graft (effective_parent x) (leaf_of x) t).
Proof.
  intros Hacc [_ Hcells] [_ Hcells'].
  pose proof (first_offence_none _ _ Hacc) as (Hnd & _ & Hpar).
  pose proof (children_ids_last l x Hacc) as Hleaf.
  induction fuel as [|fuel IH]; intros i y t Hi Hfuel Ht; [done |].
  assert (y ∈ l) as Hy by by eapply list_elem_of_lookup_2.
  cbn [_discardempty] in Ht. rewrite (Hcells y Hy) in Ht.
  cbn [mbind option_bind cell_for cell_children cell_name cell_metadata] in Ht.
  destruct (mapM (_discardempty fuel (nodes st)) (children_ids l (item_id y)))
    as [below|] eqn:Hbelow; [| done].
  cbn in Ht. injection Ht as <-.
  remember (S fuel) as fuel' eqn:Hfuel'.
  cbn [_discardempty]. rewrite (Hcells' y) by (apply elem_of_app; by left).
  cbn [mbind option_bind cell_for cell_children cell_name cell_metadata].
  rewrite children_ids_snoc.
  assert (mapM (_discardempty fuel' (nodes st'))
            (children_ids l (item_id y)
             ++ (if decide (effective_parent x = Some (item_id y))
                 then [item_id x] else []))
          = Some (map (graft (effective_parent x) (leaf_of x)) below
                  ++ (if decide (effective_parent x = Some (item_id y))
                      then [leaf_of x] else []))) as ->.
  { apply mapM_Some_2, Forall2_app.
    - apply Forall2_fmap_r. apply mapM_Some_1 in Hbelow.
      eapply Forall2_impl_elem; [exact Hbelow |].
      intros k tk Hk Htk. cbn beta. subst fuel'. unfold children_ids in Hk.
      apply list_elem_of_fmap in Hk as (c & -> & Hc).
      apply list_elem_of_filter in Hc as [Hp Hc].
      apply list_elem_of_lookup in Hc as [j Hj].
      apply (IH j c tk Hj); [| done].
      destruct (Hpar j c (item_id y)) as [Hin|Hin]; [| done | set_solver |].
      { by apply lookup_app_l_Some. }
      apply elem_of_take_ids in Hin as (i' & a & Hlt & Hi' & Ha).
      assert (i' = i) as ->; [| lia].
      apply (NoDup_lookup _ i' i (item_id y) Hnd); unfold item_ids;
        rewrite list_lookup_fmap.
      + rewrite Hi'. cbn. congruence.
      + by rewrite (lookup_app_l_Some _ _ _ _ Hi).
    - case_decide; [| constructor]. repeat constructor. subst fuel'.
      cbn [_discardempty].
      rewrite (Hcells' x) by (apply elem_of_app; right; left).
      cbn [mbind option_bind cell_for cell_children]. by rewrite Hleaf. }
  cbn [mbind option_bind]. f_equal. rewrite graft_unfold. cbn [node_id node_name node_metadata node_other node_children].
  f_equal.
  destruct (decide (effective_parent x = Some (item_id y))) as [Hp|Hp];
    destruct below as [|b below]; cbn; by rewrite ?app_nil_r.
Qed.

(** A prefix of an accepted list is accepted. *)
Lemma first_offence_prefix (l1 l2 : list item) :
  first_offence ∅ (l1 ++ l2) = None → first_offence ∅ l1 = None.
Proof.
  intros Hacc.
  pose proof (append_all_first_offence (l1 ++ l2) empty_builder) as H1.
  pose proof (append_all_first_offence l1 empty_builder) as H2.
  cbn [nodes empty_builder] in H1, H2. rewrite dom_empty_L, Hacc in H1.
  rewrite dom_empty_L in H2. destruct H1 as (st1 & Hst1 & _).
  rewrite append_all_app in Hst1.
  destruct (first_offence ∅ l1); [| done]. by rewrite H2 in Hst1.
Qed.

(** The tree read from the store that [append_all] leaves. *)
Lemma append_all_assembled (l : list item) :
  first_offence ∅ l = None →
  ∃ st, append_all empty_builder l = Py.Ok st
        ∧ represents l st
        ∧ mapM (_discardempty (S (length l)) (nodes st)) (tree_children st)
          = Some (assembled l).
Proof.
  induction l as [|x l IH] using rev_ind; intros Hacc.
  { exists empty_builder. repeat split. by intros it ?%not_elem_of_nil. }
  pose proof (first_offence_prefix l [x] Hacc) as Hl.
  destruct (IH Hl) as (st & Hst & Hrep & Hread).
  destruct (append_all_store _ Hacc) as (st' & Hst' & Hrep').
  exists st'. split; [done |]. split; [done |].
  destruct (Hrep) as [Htop _]. destruct (Hrep') as [Htop' _].
  rewrite Htop', root_ids_snoc. rewrite Htop in Hread.
  unfold assembled. rewrite foldl_app. cbn [foldl]. fold (assembled l).
  unfold attach. rewrite length_app, Nat.add_1_r.
  apply mapM_Some_2, Forall2_app.
  - apply Forall2_fmap_r. apply mapM_Some_1 in Hread.
    eapply Forall2_impl_elem; [exact Hread |].
    intros k tk Hk Htk. cbn beta. unfold root_ids in Hk.
    apply list_elem_of_fmap in Hk as (c & -> & Hc).
    apply list_elem_of_filter in Hc as [_ Hc].
    apply list_elem_of_lookup in Hc as [j Hj].
    apply (discardempty_step l x st st' Hacc Hrep Hrep' _ j c tk Hj); [lia | done].
  - destruct (effective_parent x) eqn:Hp.
    + rewrite decide_False by done. constructor.
    + rewrite decide_True by done. repeat constructor.
      cbn [_discardempty]. destruct Hrep' as [_ Hcells'].
      rewrite (Hcells' x) by (apply elem_of_app; right; left).
      cbn [mbind option_bind cell_for cell_children].
      by rewrite (children_ids_last l x Hacc).
Qed.


(** *** Grafting and the traversal *)

Lemma graft_children (p : option string) (new n : node) :
  children_of (graft p new n)
  = map (graft p new) (children_of n)
    ++ (if decide (p = Some (node_id n)) then [new] else []).
Proof.
  rewrite graft_unfold. unfold children_of. cbn [node_children].
  case_decide; [done |]. destruct (node_children n); cbn; by rewrite ?app_nil_r.
Qed.

Lemma graft_fields (p : option string) (new n : node) :
  node_id (graft p new n) = node_id n
  ∧ node_name (graft p new n) = node_name n
  ∧ node_metadata (graft p new n) = node_metadata n
  ∧ node_other (graft p new n) = node_other n.
Proof. by rewrite graft_unfold. Qed.

Lemma graft_children_nonempty (p : option string) (new n : node) :
  node_children n ≠ Some [] → node_children (graft p new n) ≠ Some [].
Proof.
  rewrite graft_unfold. cbn [node_children]. intros Hn. case_decide.
  - intros [= Heq]. by destruct (map _ _).
  - destruct (node_children n) as [[|c l]|]; done.
Qed.

Lemma Permutation_app_cross {A} (a b c d : list A) :
  (a ++ b) ++ (c ++ d) ≡ₚ (a ++ c) ++ (b ++ d).
Proof.
  rewrite <- !(assoc_L (++)). apply Permutation_app_head.
  rewrite !(assoc_L (++)). apply Permutation_app_tail, Permutation_app_comm.
Qed.

Section Graft.

Variable p : option string.
Variable new : node.

#[local] Abbreviation graft_spec := (graft_spec p new).
#[local] Abbreviation grafted_at := (grafted_at p new).

Lemma dft_graft_forest (f : list node) :
  Forall (λ c, graft_spec [c]) f → graft_spec f.
Proof.
  unfold graft_spec. induction 1 as [|c l Hc _ IH]; [done |].
  change (c :: l) with ([c] ++ l).
  rewrite map_app, !dft_app, map_app, flat_map_app, Hc, IH.
  apply Permutation_app_cross.
Qed.

Lemma dft_graft_node (n : node) : graft_spec [n].
Proof.
  induction n as [i nm md ot|i nm md ot l IH] using node_ind; unfold graft_spec.
  - cbn [map]. rewrite !dft_cons, graft_children. cbn [children_of node_children default].
    unfold _depth_first_traversal at 1 3 4 5 6. cbn [map flat_map app].
    rewrite !app_nil_r. unfold grafted_at. cbn [node_id].
    case_decide; cbn [flat_map]; by rewrite ?app_nil_r.
  - pose proof (dft_graft_forest l IH) as Hl. unfold graft_spec in Hl.
    cbn [map]. rewrite !dft_cons, graft_children.
    change (children_of (Node i nm md ot (Some l))) with l.
    unfold _depth_first_traversal at 2 4 6. cbn [flat_map].
    rewrite !app_nil_r. cbn [map]. rewrite dft_app, Hl. cbn [flat_map app].
    constructor. rewrite <- !(assoc_L (++)). apply Permutation_app_head.
    unfold grafted_at at 2. cbn [node_id].
    case_decide.
    + unfold _depth_first_traversal at 2. cbn [flat_map]. rewrite app_nil_r.
      apply Permutation_app_comm.
    + unfold _depth_first_traversal at 2. cbn [flat_map]. by rewrite app_nil_r.
Qed.

Lemma dft_graft (f : list node) : graft_spec f.
Proof. apply dft_graft_forest, Forall_forall. intros c _. apply dft_graft_node. Qed.

End Graft.

Lemma grafted_at_none (new : node) (l : list node) (q : string) :
  q ∉ map node_id l → flat_map (grafted_at (Some q) new) l = [].
Proof.
  induction l as [|n l IH]; [done |]. cbn [map flat_map]. intros Hq.
  rewrite IH by set_solver. unfold grafted_at.
  rewrite decide_False; [done |]. intros [= ->]. set_solver.
Qed.

Lemma grafted_at_once (new : node) (l : list node) (q : string) :
  NoDup (map node_id l) → q ∈ map node_id l →
  flat_map (grafted_at (Some q) new) l = preorder new.
Proof.
  induction l as [|n l IH]; [by intros _ ?%not_elem_of_nil |].
  cbn [map flat_map]. intros [Hn Hnd]%NoDup_cons Hq. unfold grafted_at at 1.
  destruct (decide (Some q = Some (node_id n))) as [[= ->]|Hne].
  - by rewrite grafted_at_none, app_nil_r.
  - cbn [app]. apply IH; [done |].
    apply elem_of_cons in Hq as [->|Hq]; [done | done].
Qed.

(** *** The tree assembled from an accepted list *)

Lemma assembled_snoc (l : list item) (x : item) :
  assembled (l ++ [x]) = attach (assembled l) x.
Proof. unfold assembled. by rewrite foldl_app. Qed.

Lemma map_graft_ids (p : option string) (new : node) (l : list node) :
  map node_id (map (graft p new) l) = map node_id l.
Proof.
  rewrite map_map. apply map_ext. intros n. apply graft_fields.
Qed.

Lemma assembled_roots (l : list item) :
  map node_id (assembled l) = root_ids l.
Proof.
  induction l as [|x l IH] using rev_ind; [done |].
  rewrite assembled_snoc, root_ids_snoc. unfold attach.
  rewrite map_app, map_graft_ids, IH. f_equal.
  destruct (effective_parent x); [by rewrite decide_False | by rewrite decide_True].
Qed.

Lemma assembled_ids (l : list item) :
  first_offence ∅ l = None → forest_ids (assembled l) ≡ₚ item_ids l.
Proof.
  induction l as [|x l IH] using rev_ind; intros Hacc; [done |].
  pose proof (first_offence_prefix l [x] Hacc) as Hl. specialize (IH Hl).
  pose proof (first_offence_none _ _ Hl) as (Hnd & _ & _).
  pose proof (first_offence_none _ _ Hacc) as (_ & _ & Hpar).
  rewrite assembled_snoc, item_ids_snoc. unfold attach.
  rewrite forest_ids_app. unfold forest_ids at 1.
  rewrite (dft_graft (effective_parent x) (leaf_of x) (assembled l)).
  rewrite map_app, map_graft_ids. fold (forest_ids (assembled l)).
  rewrite IH, <- (assoc_L (++)). apply Permutation_app_head.
  destruct (effective_parent x) as [q|] eqn:Hq.
  - rewrite grafted_at_once; [by rewrite app_nil_r | |].
    + fold (forest_ids (assembled l)). by rewrite IH.
    + fold (forest_ids (assembled l)). rewrite IH.
      destruct (Hpar (length l) x q) as [Hin|Hin]; [| done | set_solver |].
      { by rewrite list_lookup_middle. }
      by rewrite take_app_length in Hin.
  - assert (∀ f, flat_map (grafted_at None (leaf_of x)) f = []) as ->; [| done].
    induction f as [|n f IHf]; [done |]. cbn [flat_map]. rewrite IHf.
    unfold grafted_at. by rewrite decide_False.
Qed.

Lemma stands_for_snoc (l : list item) (x it : item) (n : node) :
  stands_for l it n →
  stands_for (l ++ [x]) it (graft (effective_parent x) (leaf_of x) n).
Proof.
  intros (Hid & Hname & Hmd & Hot & Hkids & Hne).
  destruct (graft_fields (effective_parent x) (leaf_of x) n)
    as (Hgi & Hgn & Hgm & Hgo).
  unfold stands_for. rewrite Hgi, Hgn, Hgm, Hgo.
  do 4 (split; [done |]). split.
  - rewrite graft_children, map_app, map_graft_ids, Hkids, children_ids_snoc, Hid.
    f_equal. by repeat case_decide.
  - by apply graft_children_nonempty.
Qed.

Lemma assembled_nodes (l : list item) :
  first_offence ∅ l = None →
  ∀ n, n ∈ _depth_first_traversal (assembled l) →
       ∃ it, it ∈ l ∧ stands_for l it n.
Proof.
  induction l as [|x l IH] using rev_ind; intros Hacc n;
    [by intros ?%not_elem_of_nil |].
  pose proof (first_offence_prefix l [x] Hacc) as Hl. specialize (IH Hl).
  assert (stands_for (l ++ [x]) x (leaf_of x)) as Hnew.
  { repeat split; try done. cbn. by rewrite (children_ids_last l x Hacc). }
  rewrite assembled_snoc. unfold attach. rewrite dft_app, elem_of_app.
  rewrite (dft_graft (effective_parent x) (leaf_of x) (assembled l)), elem_of_app.
  intros [[Hn|Hn]|Hn].
  - apply list_elem_of_fmap in Hn as (m & -> & Hm).
    destruct (IH m Hm) as (it & Hit & Hst). exists it.
    split; [apply elem_of_app; by left | by apply stands_for_snoc].
  - apply list_elem_of_In, in_flat_map in Hn as (m & _ & Hn).
    unfold grafted_at in Hn. case_decide; [| done].
    cbn in Hn. destruct Hn as [<-|[]]. exists x.
    split; [apply elem_of_app; right; left | done].
  - destruct (effective_parent x); [by apply not_elem_of_nil in Hn |].
    unfold _depth_first_traversal in Hn. cbn in Hn.
    apply list_elem_of_singleton in Hn as ->. exists x.
    split; [apply elem_of_app; right; left | done].
Qed.

(** *** Finding a node *)

Lemma find_node_Some (tree : list node) (id : string) (n : node) :
  _find_node tree id = Some n →
  n ∈ _depth_first_traversal tree ∧ node_id n = id.
Proof.
  unfold _find_node. intros Hf. apply find_some in Hf as [Hin Heq].
  split; [by apply list_elem_of_In | by apply String.eqb_eq].
Qed.

Lemma find_node_None (tree : list node) (id : string) :
  _find_node tree id = None ↔ id ∉ forest_ids tree.
Proof.
  unfold _find_node, forest_ids. split.
  - intros Hf Hin. apply list_elem_of_fmap in Hin as (n & -> & Hn).
    apply list_elem_of_In in Hn.
    pose proof (find_none _ _ Hf n Hn) as Hne. cbn in Hne.
    by rewrite String.eqb_refl in Hne.
  - intros Hnot. destruct (find _ _) as [n|] eqn:Hf; [| done]. exfalso.
    apply find_some in Hf as [Hin Heq%String.eqb_eq]. apply Hnot.
    apply list_elem_of_fmap. exists n. split; [done | by apply list_elem_of_In].
Qed.

Lemma find_first (l : list node) (n : node) :
  NoDup (map node_id l) → n ∈ l →
  find (λ m, String.eqb (node_id m) (node_id n)) l = Some n.
Proof.
  induction l as [|m l IH]; [by intros _ ?%not_elem_of_nil |].
  cbn [map find]. intros [Hm Hnd]%NoDup_cons [->|Hn]%elem_of_cons.
  - by rewrite String.eqb_refl.
  - destruct (String.eqb_spec (node_id m) (node_id n)) as [Heq|_]; [| by apply IH].
    exfalso. apply Hm. rewrite Heq. by apply list_elem_of_fmap_2.
Qed.

Lemma find_node_unique (tree : list node) (n : node) :
  NoDup (forest_ids tree) → n ∈ _depth_first_traversal tree →
  _find_node tree (node_id n) = Some n.
Proof. apply find_first. Qed.

Lemma item_of_id (l : list item) (a b : item) :
  NoDup (item_ids l) → a ∈ l → b ∈ l → item_id a = item_id b → a = b.
Proof.
  intros Hnd [i Hi]%list_elem_of_lookup [j Hj]%list_elem_of_lookup Heq.
  assert (i = j) as ->; [| congruence].
  apply (NoDup_lookup _ i j (item_id a) Hnd); unfold item_ids;
    rewrite list_lookup_fmap; [rewrite Hi | rewrite Hj]; cbn; congruence.
Qed.

Lemma assembled_find (l : list item) (it : item) :
  first_offence ∅ l = None → it ∈ l →
  ∃ n, _find_node (assembled l) (item_id it) = Some n ∧ stands_for l it n.
Proof.
  intros Hacc Hit. pose proof (first_offence_none _ _ Hacc) as (Hnd & _ & _).
  destruct (_find_node (assembled l) (item_id it)) as [n|] eqn:Hf.
  - exists n. split; [done |]. apply find_node_Some in Hf as [Hn Hid].
    destruct (assembled_nodes l Hacc n Hn) as (it' & Hit' & Hst).
    assert (it' = it) as ->; [| done].
    apply (item_of_id l); try done. destruct Hst as [<- _]. done.
  - exfalso. apply find_node_None in Hf. apply Hf.
    rewrite (assembled_ids l Hacc). by apply elem_of_item_ids.
Qed.

(** *** Counting *)

Lemma count_preorder (n : node) : count n = length (preorder n).
Proof.
  induction n as [i nm md ot|i nm md ot l IH] using node_ind; [done |].
  cbn [count preorder length]. f_equal.
  induction IH as [|c l Hc _ IHl]; [done |].
  cbn [map flat_map]. rewrite length_app, <- Hc, <- IHl. reflexivity.
Qed.

Lemma countnodes_length (tree : list node) :
  _countnodes tree = length (_depth_first_traversal tree).
Proof.
  unfold _countnodes, _depth_first_traversal.
  induction tree as [|c l IH]; [done |].
  cbn [map flat_map]. rewrite length_app, <- count_preorder, <- IH. reflexivity.
Qed.

(** *** [buildtree] *)

Section Buildtree.

Variable validate : generic_tree → bool.

Lemma buildtree_assembled (g : generic_tree) (tree : list node) :
  buildtree validate g = Py.Ok tree
  ↔ validate g = true
    ∧ first_offence ∅ (gt_nodes g) = None
    ∧ gt_nodes g ≠ []
    ∧ tree = assembled (gt_nodes g).
Proof.
  split.
  - intros Hb. destruct (validate g) eqn:Hv;
      [| unfold buildtree in Hb; by rewrite Hv in Hb].
    split; [done |].
    destruct (first_offence ∅ (gt_nodes g)) as [m|] eqn:Hacc.
    { by rewrite (buildtree_first_offence validate g m Hv Hacc) in Hb. }
    split; [done |].
    destruct (append_all_assembled _ Hacc) as (st & Hst & _ & Hread).
    unfold buildtree in Hb. rewrite Hv, Hst in Hb.
    cbn [mbind result_bind Py.bind] in Hb. rewrite Hread in Hb.
    destruct (assembled (gt_nodes g)) as [|c f] eqn:Has; [done |].
    injection Hb as <-. split; [| done]. intros Hnil.
    rewrite Hnil in Has. done.
  - intros (Hv & Hacc & Hne & ->).
    destruct (append_all_assembled _ Hacc) as (st & Hst & _ & Hread).
    unfold buildtree. rewrite Hv, Hst.
    cbn [mbind result_bind Py.bind]. rewrite Hread.
    destruct (assembled (gt_nodes g)) as [|c f] eqn:Has; [| done].
    exfalso. apply Hne.
    pose proof (assembled_ids _ Hacc) as Hids. rewrite Has in Hids.
    apply Permutation_nil_l in Hids. unfold item_ids in Hids.
    by destruct (gt_nodes g).
Qed.

End Buildtree.

End Assemble.

(** ** Paths of a tree and parent references *)

Section Lineage.

Import Parser Registry Notions.

Lemma climbs_snoc (path : list node) (r n : node) :
  climbs path → last path = Some r → r ∈ children_of n → climbs (path ++ [n]).
Proof.
  induction path as [|a [|b rest] IH]; [done | |].
  - cbn. intros _ [= ->] Hr. done.
  - intros [Hab Hrest] Hlast Hr. cbn [app climbs]. split; [done |].
    apply IH; [done | | done]. by rewrite last_cons_cons in Hlast.
Qed.

Lemma climbs_lookup (path : list node) (k : nat) (a b : node) :
  climbs path → path !! k = Some a → path !! S k = Some b → a ∈ children_of b.
Proof.
  revert k. induction path as [|a' [|b' rest] IH]; intros k Hcl Ha Hb; [done | |].
  - by destruct k.
  - destruct Hcl as [Hab Hrest]. destruct k as [|k].
    + cbn in Ha, Hb. injection Ha as <-. by injection Hb as <-.
    + by apply (IH k Hrest).
Qed.

Lemma dft_preorder (c : node) (l : list node) :
  _depth_first_traversal (c :: l) = preorder c ++ _depth_first_traversal l.
Proof. reflexivity. Qed.

Lemma locate_in_climbs (l : list node) (t : string) (path : list node) :
  Forall locate_node_climbs l → locate_in t l = Some path →
  climbs path ∧ (∃ r, last path = Some r ∧ r ∈ l)
  ∧ Forall (λ x, x ∈ _depth_first_traversal l) path.
Proof.
  induction 1 as [|c l Hc _ IH]; [done |].
  change (locate_in t (c :: l))
    with (match locate t c with Some q => Some q | None => locate_in t l end).
  destruct (locate t c) as [q|] eqn:Hq.
  - intros [= <-]. destruct (Hc t q Hq) as (Hcl & Hlast & Hin).
    split; [done |]. split; [exists c; split; [done | left] |].
    eapply Forall_impl; [exact Hin |]. intros x Hx. cbn beta in *.
    rewrite dft_preorder. apply elem_of_app. by left.
  - intros Hl. destruct (IH Hl) as (Hcl & (r & Hlast & Hr) & Hin).
    split; [done |]. split; [exists r; split; [done | by right] |].
    eapply Forall_impl; [exact Hin |]. intros x Hx. cbn beta in *.
    rewrite dft_preorder. apply elem_of_app. by right.
Qed.

Lemma locate_climbs (c : node) : locate_node_climbs c.
Proof.
  induction c as [i nm md ot|i nm md ot l IH] using node_ind;
    intros t path; rewrite locate_unfold.
  - destruct (String.eqb i t); [| done]. intros [= <-].
    repeat split. repeat constructor.
  - cbn [kids]. destruct (String.eqb i t).
    { intros [= <-]. repeat split. repeat constructor. }
    destruct (locate_in t l) as [q|] eqn:Hq; [| done]. intros [= <-].
    destruct (locate_in_climbs l t q IH Hq) as (Hcl & (r & Hlast & Hr) & Hin).
    split; [| split].
    + by apply (climbs_snoc q r).
    + by rewrite last_snoc.
    + apply Forall_app. split; [| repeat constructor].
      eapply Forall_impl; [exact Hin |]. intros x Hx. cbn beta in *.
      rewrite preorder_unfold. by right.
Qed.

Lemma locate_in_total (l : list node) (t : string) :
  t ∈ forest_ids l → is_Some (locate_in t l).
Proof.
  unfold forest_ids. intros (x & -> & Hx)%list_elem_of_fmap. revert x Hx.
  assert (∀ c x, x ∈ preorder c → is_Some (locate (node_id x) c)) as Hnode.
  { induction c as [i nm md ot|i nm md ot k IH] using node_ind; intros x;
      rewrite locate_unfold.
    - cbn. intros ->%list_elem_of_singleton. cbn. by rewrite String.eqb_refl.
    - rewrite preorder_unfold.
      change (children_of (Node i nm md ot (Some k))) with k. cbn [kids].
      intros [->|Hx]%elem_of_cons.
      { cbn [node_id]. by rewrite String.eqb_refl. }
      destruct (String.eqb i (node_id x)); [done |].
      assert (is_Some (locate_in (node_id x) k)) as [q ->]; [| done].
      clear -IH Hx. induction IH as [|c k Hc _ IHk]; [by apply not_elem_of_nil in Hx |].
      rewrite dft_preorder in Hx.
      change (locate_in (node_id x) (c :: k))
        with (match locate (node_id x) c with
              | Some q => Some q
              | None => locate_in (node_id x) k
              end).
      apply elem_of_app in Hx as [Hx|Hx].
      + by destruct (Hc x Hx) as [q ->].
      + destruct (locate (node_id x) c); [done | by apply IHk]. }
  induction l as [|c l IH]; intros x Hx; [by apply not_elem_of_nil in Hx |].
  rewrite dft_preorder in Hx.
  change (locate_in (node_id x) (c :: l))
    with (match locate (node_id x) c with
          | Some q => Some q
          | None => locate_in (node_id x) l
          end).
  apply elem_of_app in Hx as [Hx|Hx].
  - by destruct (Hnode c x Hx) as [q ->].
  - destruct (locate (node_id x) c); [done | by apply IH].
Qed.

(** The ancestors of an item in the tree assembled from its list. *)
Lemma assembled_lineage (l : list item) (it : item) :
  first_offence ∅ l = None → it ∈ l →
  lineage l (item_id it
             :: map node_id (_get_ancestors (assembled l) (item_id it))).
Proof.
  intros Hacc Hit.
  pose proof (first_offence_none _ _ Hacc) as (Hnd & _ & _).
  assert (NoDup (forest_ids (assembled l))) as Hndf
    by by rewrite (assembled_ids l Hacc).
  rewrite (get_ancestors_correct _ _ Hndf). unfold ancestors.
  destruct (locate_in_total (assembled l) (item_id it)) as [path Hpath].
  { rewrite (assembled_ids l Hacc). by apply elem_of_item_ids. }
  rewrite Hpath.
  destruct (locate_in_shape (assembled l) (item_id it) path)
    as (x & up & -> & Hx & _ & _);
    [apply Forall_forall; intros c _; apply locate_shape | done | done |].
  destruct (locate_in_climbs (assembled l) (item_id it) (x :: up))
    as (Hcl & (r & Hlast & Hr) & Hin);
    [apply Forall_forall; intros c _; apply locate_climbs | done |].
  assert (item_id it :: map node_id (map _remove_children up)
          = map node_id (x :: up)) as ->.
  { cbn [map]. rewrite Hx. f_equal. rewrite map_map. by apply map_ext. }
  split.
  - intros k a b Ha Hb. rewrite list_lookup_fmap in Ha, Hb.
    destruct ((x :: up) !! k) as [na|] eqn:Hna; [| done].
    destruct ((x :: up) !! S k) as [nb|] eqn:Hnb; [| done].
    cbn in Ha, Hb. injection Ha as <-. injection Hb as <-.
    assert (na ∈ children_of nb) as Hchild.
    { by apply (climbs_lookup (x :: up) k). }
    assert (nb ∈ _depth_first_traversal (assembled l)) as Hnbin.
    { eapply Forall_forall in Hin; [exact Hin |]. by eapply list_elem_of_lookup_2. }
    destruct (assembled_nodes l Hacc nb Hnbin) as (pb & Hpb & Hst).
    destruct Hst as (Hid & _ & _ & _ & Hkids & _).
    assert (node_id na ∈ children_ids l (item_id pb)) as Hk.
    { rewrite <- Hkids. by apply list_elem_of_fmap_2. }
    unfold children_ids in Hk. apply list_elem_of_fmap in Hk as (c & Hc & Hf).
    apply list_elem_of_filter in Hf as [Hp Hcin].
    exists c. split; [done |]. split; [done |]. by rewrite Hid.
  - exists (node_id r).
    assert (node_id r ∈ root_ids l) as Hroot.
    { rewrite <- assembled_roots. by apply list_elem_of_fmap_2. }
    unfold root_ids in Hroot. apply list_elem_of_fmap in Hroot as (c & Hc & Hf).
    apply list_elem_of_filter in Hf as [Hp Hcin].
    exists c. split; [| done].
    rewrite fmap_last, Hlast. done.
Qed.

(** The ancestors returned for the assembled tree are items of the list,
    as leaves. *)
Lemma assembled_ancestors (l : list item) (id : string) :
  first_offence ∅ l = None →
  Forall (λ a, ∃ c, c ∈ l ∧ a = leaf_of c) (_get_ancestors (assembled l) id).
Proof.
  intros Hacc.
  assert (NoDup (forest_ids (assembled l))) as Hndf.
  { rewrite (assembled_ids l Hacc). by apply first_offence_none in Hacc as (? & _). }
  rewrite (get_ancestors_correct _ _ Hndf). unfold ancestors.
  destruct (locate_in id (assembled l)) as [[|x up]|] eqn:Hpath; try constructor.
  destruct (locate_in_climbs (assembled l) id (x :: up)) as (_ & _ & Hin);
    [apply Forall_forall; intros c _; apply locate_climbs | done |].
  apply Forall_cons in Hin as [_ Hin]. apply Forall_fmap.
  eapply Forall_impl; [exact Hin |]. intros a Ha. cbn beta.
  destruct (assembled_nodes l Hacc a Ha) as (c & Hc & Hst). exists c.
  split; [done |]. destruct Hst as (Hid & Hname & Hmd & Hot & _).
  unfold _remove_children, leaf_of. by rewrite Hid, Hname, Hmd, Hot.
Qed.

End Lineage.

(** ** The class [Taxonomy] on the tree of a document *)

Section TaxonomyFacts.

Import Float Parser Registry Notions Taxonomy.

Variable validate : generic_tree → bool.

#[local] Abbreviation dft := _depth_first_traversal.

Lemma elem_of_dft (f : list node) (x : node) :
  x ∈ dft f ↔ ∃ c, c ∈ f ∧ x ∈ preorder c.
Proof.
  unfold _depth_first_traversal. rewrite list_elem_of_In, in_flat_map.
  split; intros (c & Hc & Hx); exists c; by rewrite ?list_elem_of_In in *.
Qed.

Lemma preorder_self (n : node) : n ∈ preorder n.
Proof. rewrite preorder_unfold. left. Qed.

Lemma preorder_children (r : node) :
  ∀ n c, n ∈ preorder r → c ∈ children_of n → c ∈ preorder r.
Proof.
  induction r as [i nm md ot|i nm md ot l IH] using node_ind; intros n c.
  - cbn. intros ->%list_elem_of_singleton. cbn. by intros ?%not_elem_of_nil.
  - rewrite !preorder_unfold.
    change (children_of (Node i nm md ot (Some l))) with l.
    intros [->|Hn]%elem_of_cons Hc; right.
    + change (children_of (Node i nm md ot (Some l))) with l in Hc.
      apply elem_of_dft. exists c. split; [done | apply preorder_self].
    + apply elem_of_dft in Hn as (c' & Hc' & Hn). apply elem_of_dft.
      exists c'. split; [done |]. eapply Forall_forall in IH; [| exact Hc'].
      by apply (IH n c).
Qed.

Lemma dft_children (f : list node) (n c : node) :
  n ∈ dft f → c ∈ children_of n → c ∈ dft f.
Proof.
  intros (r & Hr & Hn)%elem_of_dft Hc. apply elem_of_dft. exists r.
  split; [done |]. by apply (preorder_children r n c).
Qed.

Lemma dft_roots (f : list node) (c : node) : c ∈ f → c ∈ dft f.
Proof. intros Hc. apply elem_of_dft. exists c. split; [done | apply preorder_self]. Qed.

Lemma stands_for_leaf (l : list item) (it : item) (n : node) :
  stands_for l it n → _remove_children n = leaf_of it.
Proof.
  intros (Hid & Hname & Hmd & Hot & _). unfold _remove_children, leaf_of.
  by rewrite Hid, Hname, Hmd, Hot.
Qed.

(** Nodes of the tree listed by the ids of items are the leaves of those
    items once their children are removed. *)
Lemma leaves_of (l : list item) (ks : list node) (cs : list item) :
  NoDup (item_ids l) →
  (∀ k, k ∈ ks → ∃ c, c ∈ l ∧ stands_for l c k) →
  (∀ c, c ∈ cs → c ∈ l) →
  map node_id ks = map item_id cs →
  map _remove_children ks = map leaf_of cs.
Proof.
  intros Hnd. revert cs. induction ks as [|k ks IH]; intros [|c cs] Hks Hcs; try done.
  cbn [map]. intros [= Hid Hrest]. f_equal.
  - destruct (Hks k) as (c' & Hc' & Hst); [left |].
    assert (c' = c) as ->; [| by eapply stands_for_leaf].
    apply (item_of_id l); try done; [apply Hcs; left |].
    destruct Hst as [<- _]. done.
  - apply IH; [| | done].
    + intros k' Hk'. apply Hks. by right.
    + intros c' Hc'. apply Hcs. by right.
Qed.

Lemma immediate_children (n : node) :
  _get_immediate_children n = map _remove_children (children_of n).
Proof. unfold _get_immediate_children, children_of. by destruct (node_children n). Qed.

Lemma filter_parent_unknown (l : list item) (k : string) :
  first_offence ∅ l = None → k ∉ item_ids l →
  filter (λ c, effective_parent c = Some k) l = [].
Proof.
  intros (_ & _ & Hpar)%first_offence_none Hk.
  destruct (filter _ l) as [|c rest] eqn:Hf; [done |]. exfalso.
  assert (c ∈ filter (λ c, effective_parent c = Some k) l)
    as [Hp Hc]%list_elem_of_filter by (rewrite Hf; left).
  apply list_elem_of_lookup in Hc as [j Hj].
  destruct (Hpar j c k Hj Hp) as [Hin|Hin]; [set_solver |].
  apply elem_of_take_ids in Hin as (i' & a & Hlt & Hi' & <-).
  apply Hk, elem_of_item_ids. by eapply list_elem_of_lookup_2.
Qed.

(** The children of a node of the assembled tree, and its top level. *)
Lemma assembled_children (l : list item) (it : item) (n : node) :
  first_offence ∅ l = None →
  n ∈ dft (assembled l) → stands_for l it n →
  _get_immediate_children n
  = map leaf_of (filter (λ c, effective_parent c = Some (item_id it)) l).
Proof.
  intros Hacc Hn Hst. pose proof (first_offence_none _ _ Hacc) as (Hnd & _ & _).
  rewrite immediate_children. apply (leaves_of l); [done | | |].
  - intros k Hk. apply (assembled_nodes l Hacc). by apply (dft_children _ n).
  - by intros c [_ Hc]%list_elem_of_filter.
  - by destruct Hst as (_ & _ & _ & _ & -> & _).
Qed.

Lemma assembled_top (l : list item) :
  first_offence ∅ l = None →
  map _remove_children (assembled l)
  = map leaf_of (filter (λ c, effective_parent c = None) l).
Proof.
  intros Hacc. pose proof (first_offence_none _ _ Hacc) as (Hnd & _ & _).
  apply (leaves_of l); [done | | |].
  - intros k Hk. apply (assembled_nodes l Hacc). by apply dft_roots.
  - by intros c [_ Hc]%list_elem_of_filter.
  - apply assembled_roots.
Qed.

(** *** [Taxonomy.__init__] *)

Lemma searcher_init_ok (ids0 names0 : list string) (b1 b2 : bool) :
  length ids0 = length names0 →
  ∃ s, Searcher.__init__ ids0 names0 b1 b2 = Py.Ok s.
Proof.
  intros Hlen. unfold Searcher.__init__.
  rewrite !length_map, Hlen, Nat.eqb_refl. by eexists.
Qed.

Lemma taxonomy_init (g : generic_tree) (t : taxonomy) :
  Taxonomy.__init__ validate g = Py.Ok t →
  buildtree validate g = Py.Ok (tree t)
  ∧ name t = gt_name g
  ∧ version t = gt_version g
  ∧ NormalizedSearcher.docs (_searcher t) = map _remove_children (dft (tree t))
  ∧ Searcher.__init__ (map node_id (NormalizedSearcher.docs (_searcher t)))
      (map node_name (NormalizedSearcher.docs (_searcher t))) true true
    = Py.Ok (NormalizedSearcher.searcher (_searcher t)).
Proof.
  unfold Taxonomy.__init__. destruct (buildtree validate g) as [tr|e]; [| done].
  cbn [mbind result_bind Py.bind]. unfold NormalizedSearcher.__init__.
  destruct (Searcher.__init__ _ _ true true) as [s|e] eqn:Hs; [| done].
  cbn [mbind result_bind Py.bind]. intros [= <-]. by cbn.
Qed.

Lemma taxonomy_of_tree (g : generic_tree) (tr : list node) :
  buildtree validate g = Py.Ok tr →
  ∃ t, Taxonomy.__init__ validate g = Py.Ok t ∧ tree t = tr.
Proof.
  intros Hb. unfold Taxonomy.__init__. rewrite Hb.
  cbn [mbind result_bind Py.bind]. unfold NormalizedSearcher.__init__.
  destruct (searcher_init_ok
              (map node_id (map _remove_children (dft tr)))
              (map node_name (map _remove_children (dft tr))) true true)
    as [s ->]; [by rewrite !length_map |].
  cbn [mbind result_bind Py.bind]. by eexists.
Qed.

End TaxonomyFacts.

(** ** Properties of the tree builder and of the navigator *)

Section TreeProperties.

Import Float Parser Registry Notions Taxonomy.

Variable validate : generic_tree → bool.

(** X1. [buildtree] returns a tree exactly when the schema accepts the
    document, no node of the list is refused by [_append] and the list is
    not empty; the tree is then the one obtained by inserting the nodes in
    the order of the list, each as the last child of the node its
    [parent_id] names or, without one, as the last top-level node, with
    the keys [id], [name] and [metadata] alone. *)
Theorem buildtree_inserts_nodes_in_order (g : generic_tree) (tree : list node) :
  buildtree validate g = Py.Ok tree
  ↔ validate g = true
    ∧ first_offence ∅ (gt_nodes g) = None
    ∧ gt_nodes g ≠ []
    ∧ tree = foldl attach [] (gt_nodes g).
Proof. apply buildtree_assembled. Qed.

(** X2. A tree that [buildtree] returns holds every node of the list once:
    the ids met by [_depth_first_traversal] are the ids of the list up to
    their order, they are distinct, [_countnodes] is the length of the
    list, and the top-level nodes are the nodes without acting
    [parent_id], in the order of the list. *)
Theorem buildtree_keeps_every_node (g : generic_tree) (tree : list node) :
  buildtree validate g = Py.Ok tree →
  map node_id (_depth_first_traversal tree) ≡ₚ map item_id (gt_nodes g)
  ∧ NoDup (map node_id (_depth_first_traversal tree))
  ∧ _countnodes tree = length (gt_nodes g)
  ∧ map node_id tree
    = map item_id (filter (λ c, effective_parent c = None) (gt_nodes g)).
Proof.
  intros (_ & Hacc & _ & ->)%buildtree_assembled.
  pose proof (assembled_ids _ Hacc) as Hids.
  pose proof (first_offence_none _ _ Hacc) as (Hnd & _ & _).
  unfold forest_ids, item_ids in *. split; [done |].
  split; [by rewrite Hids |]. split; [| apply assembled_roots].
  rewrite countnodes_length.
  rewrite <- (length_map node_id), <- (length_map item_id (gt_nodes g)).
  by apply Permutation_length.
Qed.

(** X3. In a tree that [buildtree] returns, [_find_node] finds for every
    node of the list a node with its id, its name and its metadata and no
    further key, whose children are the nodes of the list that name it as
    parent, in the order of the list; the key [children] is absent, never
    empty, when there are none. *)
Theorem buildtree_node_of_item (g : generic_tree) (tree : list node) (it : item) :
  buildtree validate g = Py.Ok tree →
  it ∈ gt_nodes g →
  ∃ n, _find_node tree (item_id it) = Some n
       ∧ node_id n = item_id it
       ∧ node_name n = item_name it
       ∧ node_metadata n = item_metadata it
       ∧ node_other n = ∅
       ∧ map node_id (children_of n)
         = map item_id (filter (λ c, effective_parent c = Some (item_id it))
                          (gt_nodes g))
       ∧ node_children n ≠ Some [].
Proof.
  intros (_ & Hacc & _ & ->)%buildtree_assembled Hit.
  destruct (assembled_find _ it Hacc Hit) as (n & Hn & Hst). by exists n.
Qed.

(** X4. On a tree that [buildtree] returns, the ancestors that
    [_get_ancestors] yields for a node of the list follow the [parent_id]
    references of the list: the first is the node that the [parent_id] of
    the node names, each next one is named by the [parent_id] of the one
    before, and the last one has no acting [parent_id]; each is a node of
    the list without children. *)
Theorem ancestors_follow_parent_ids (g : generic_tree) (tree : list node)
  (it : item) :
  buildtree validate g = Py.Ok tree →
  it ∈ gt_nodes g →
  lineage (gt_nodes g)
    (item_id it :: map node_id (_get_ancestors tree (item_id it)))
  ∧ Forall (λ a, ∃ c, c ∈ gt_nodes g ∧ a = leaf_of c)
      (_get_ancestors tree (item_id it)).
Proof.
  intros (_ & Hacc & _ & ->)%buildtree_assembled Hit.
  split; [by apply assembled_lineage | by apply assembled_ancestors].
Qed.

(** X5. For a taxonomy made from a document, [get_node] returns the empty
    dict for an id that no node of the list has; for a node of the list
    it returns the node without children, as [children] the nodes of the
    list that name it as parent, in the order of the list and without
    their children, and as [parents] its chain of [parent_id] references
    from the top-level node down to its own parent. *)
Theorem get_node_reply (g : generic_tree) (t : taxonomy) :
  Taxonomy.__init__ validate g = Py.Ok t →
  (∀ id, id ∉ map item_id (gt_nodes g) → get_node t id = EmptyReply)
  ∧ (∀ it, it ∈ gt_nodes g →
       ∃ parents,
         get_node t (item_id it)
         = NodeReply parents (leaf_of it)
             (map leaf_of
                (filter (λ c, effective_parent c = Some (item_id it))
                   (gt_nodes g)))
         ∧ lineage (gt_nodes g) (item_id it :: rev (map node_id parents))
         ∧ Forall (λ a, ∃ c, c ∈ gt_nodes g ∧ a = leaf_of c) parents).
Proof.
  intros (Hb & _)%taxonomy_init.
  apply buildtree_assembled in Hb as (_ & Hacc & _ & Htree).
  unfold get_node. rewrite Htree. split.
  - intros id Hid.
    assert (_find_node (assembled (gt_nodes g)) id = None) as ->; [| done].
    apply find_node_None. by rewrite (assembled_ids _ Hacc).
  - intros it Hit. destruct (assembled_find _ it Hacc Hit) as (n & Hn & Hst).
    rewrite Hn. eexists. split; [| split].
    + f_equal; [by eapply stands_for_leaf |].
      apply assembled_children; [done | | done].
      by apply find_node_Some in Hn as [? _].
    + rewrite <- map_rev, rev_involutive. by apply assembled_lineage.
    + apply Forall_rev. by apply assembled_ancestors.
Qed.

(** X6. For a taxonomy made from a document, [get_branch] lists the nodes
    of the list whose acting [parent_id] is the id asked for (the nodes
    without one when no id is given), in the order of the list and each
    without children; an id that no node has gives the empty branch. *)
Theorem get_branch_lists_declared_children (g : generic_tree) (t : taxonomy)
  (node_id0 : option string) :
  Taxonomy.__init__ validate g = Py.Ok t →
  get_branch t node_id0
  = map leaf_of (filter (λ c, effective_parent c = node_id0) (gt_nodes g))
  ∧ (∀ id, node_id0 = Some id → id ∉ map item_id (gt_nodes g) →
           get_branch t node_id0 = []).
Proof.
  intros (Hb & _)%taxonomy_init.
  apply buildtree_assembled in Hb as (_ & Hacc & _ & Htree).
  assert (∀ id, id ∉ item_ids (gt_nodes g) → get_branch t (Some id) = [])
    as Hunknown.
  { intros id Hid. unfold get_branch. rewrite Htree.
    assert (_find_node (assembled (gt_nodes g)) id = None) as ->; [| done].
    apply find_node_None. by rewrite (assembled_ids _ Hacc). }
  split; [| by intros id -> Hid; apply Hunknown].
  destruct node_id0 as [id|].
  - destruct (decide (id ∈ item_ids (gt_nodes g))) as [Hin|Hout].
    + unfold item_ids in Hin. apply list_elem_of_fmap in Hin as (it & -> & Hit).
      destruct (assembled_find _ it Hacc Hit) as (n & Hn & Hst).
      unfold get_branch. rewrite Htree, Hn.
      apply assembled_children; [done | | done].
      by apply find_node_Some in Hn as [? _].
    + rewrite (Hunknown id Hout). by rewrite filter_parent_unknown.
  - unfold get_branch. rewrite Htree, (assembled_top _ Hacc). f_equal.
    by apply filter_ext_elem.
Qed.

(** X8. [_countnodes] counts the nodes that the traversals visit: its
    value is the length of [_depth_first_traversal] and of
    [_depth_first_traversal_with_parents]. *)
Theorem countnodes_counts_traversal (tree : list node) :
  _countnodes tree = length (_depth_first_traversal tree)
  ∧ _countnodes tree = length (_depth_first_traversal_with_parents tree None).
Proof.
  split; [apply countnodes_length |].
  rewrite countnodes_length, <- (length_map fst).
  symmetry. apply Permutation_length, stream_nodes.
Qed.

(** X9. [_find_node] returns the first node in pre-order that carries the
    id, and [None] exactly when no node of the tree carries it. *)
Theorem find_node_first_match (tree : list node) (id : string) :
  match _find_node tree id with
  | Some n =>
      node_id n = id
      ∧ ∃ before after,
          _depth_first_traversal tree = before ++ n :: after
          ∧ id ∉ map node_id before
  | None => id ∉ map node_id (_depth_first_traversal tree)
  end.
Proof.
  destruct (_find_node tree id) as [n|] eqn:Hf; [| by apply find_node_None].
  split; [by apply find_node_Some in Hf as [_ ?] |].
  unfold _find_node in Hf. revert Hf.
  generalize (_depth_first_traversal tree). intros l.
  induction l as [|m l IH]; [done |]. cbn [find].
  destruct (String.eqb_spec (node_id m) id) as [Heq|Hne].
  - intros [= <-]. exists [], l. split; [done |]. apply not_elem_of_nil.
  - intros Hf. destruct (IH Hf) as (before & after & -> & Hnot).
    exists (m :: before), after. split; [done |]. cbn [map]. set_solver.
Qed.

End TreeProperties.

(** ** The index of [Searcher.__init__] *)

Section Index.

Import Float StringSimilarity Searcher Notions.

Lemma select_cons {A} (x : A) (a : list A) (b : bool) (mask : list bool) :
  select (x :: a) (b :: mask) = (if b then [x] else []) ++ select a mask.
Proof.
  unfold select. change (zip (x :: a) (b :: mask)) with ((x, b) :: zip a mask).
  rewrite filter_cons. cbn [snd]. destruct b; by case_decide.
Qed.

Lemma select_map {A B} (f : A → B) (a : list A) (mask : list bool) :
  select (map f a) mask = map f (select a mask).
Proof.
  revert mask. induction a as [|x a IH]; intros [|b mask]; try done.
  cbn [map]. rewrite !select_cons, map_app, IH. by destruct b.
Qed.

Lemma select_zip {A B} (a : list A) (b : list B) (mask : list bool) :
  zip (select a mask) (select b mask) = select (zip a b) mask.
Proof.
  revert b mask. induction a as [|x a IH]; intros [|y b] [|m mask]; try done.
  - by destruct (select (x :: a) (m :: mask)).
  - change (zip (x :: a) (y :: b)) with ((x, y) :: zip a b).
    rewrite !select_cons, <- IH. by destruct m.
Qed.

(** Selecting by a mask computed from the elements is filtering. *)
Lemma select_filter {A} (P : A → bool) (a : list A) :
  select a (map P a) = filter (λ x, P x = true) a.
Proof.
  induction a as [|x a IH]; [done |]. cbn [map].
  rewrite select_cons, filter_cons, IH. destruct (P x); by case_decide.
Qed.

Lemma select_sublist {A} (a : list A) (mask : list bool) :
  select a mask `sublist_of` a.
Proof.
  revert mask. induction a as [|x a IH]; intros [|b mask]; try done;
    try apply sublist_nil_l.
  rewrite select_cons. destruct b; cbn [app];
    [by apply sublist_skip | by apply sublist_cons].
Qed.

(** The index that [__init__] builds. *)
Lemma init_index (ids0 names0 : list string) (use_nlp use_textsim0 : bool)
  (s : searcher) :
  __init__ ids0 names0 use_nlp use_textsim0 = Py.Ok s →
  length ids0 = length names0
  ∧ zip (ids s) (names s)
    = filter (λ p, splitwords p.2 ≠ []) (zip ids0 (map normalizestring names0))
  ∧ split_names s = map splitwords (names s)
  ∧ penalty s = map penalty_of (ids s)
  ∧ vectors s = use_nlp
  ∧ use_textsim s = use_textsim0.
Proof.
  unfold __init__.
  destruct (Nat.eqb_spec (length ids0) (length
    (map (λ s0, (0 <? length s0)%nat) (map splitwords (map normalizestring names0)))))
    as [Hlen|]; [| done].
  rewrite !length_map in Hlen. intros [= <-]. cbn.
  split; [done |]. split; [| by rewrite select_map].
  rewrite select_zip.
  set (names1 := map normalizestring names0). fold names1.
  assert (length ids0 = length names1) as Hlen1
    by (unfold names1; by rewrite length_map).
  clearbody names1. clear Hlen. revert names1 Hlen1.
  induction ids0 as [|i ids0 IH]; intros [|nm names1] Hlen; try done.
  cbn [map]. change (zip (i :: ids0) (nm :: names1)) with ((i, nm) :: zip ids0 names1).
  rewrite select_cons, filter_cons. cbn [snd]. injection Hlen as Hlen.
  rewrite (IH names1 Hlen).
  destruct (splitwords nm) as [|w ws]; cbn; by case_decide.
Qed.

End Index.

(** ** Searching a taxonomy *)

Section SearchFacts.

Import Float StringSimilarity Searcher Parser Registry Notions.

Variable similarity : string → string → Q.
Variable jaro_winkler : string → string → Q.
Variable root4 : Q → Q.

#[local] Abbreviation call := (__call__ similarity jaro_winkler root4).
#[local] Abbreviation combined := (combined_scores similarity jaro_winkler root4).

Lemma init_ids_sublist (ids0 names0 : list string) (b1 b2 : bool) (s : searcher) :
  Searcher.__init__ ids0 names0 b1 b2 = Py.Ok s → ids s `sublist_of` ids0.
Proof.
  unfold Searcher.__init__. case_match; [| done]. intros [= <-]. cbn.
  apply select_sublist.
Qed.

(** The ids that [__call__] returns are ids of the index. *)
Lemma call_ids (s : searcher) (name : string) (n : Z) (t r : Q)
  (out : list string * list string * list float) (id : string) :
  call s name n t r = Py.Ok out → id ∈ out.1.1 → id ∈ ids s.
Proof.
  intros [[_ ->]|(_ & rows & scores & Hrows & ->)]%call_inv; cbn [fst].
  { by intros ?%not_elem_of_nil. }
  intros (row & -> & Hrow)%list_elem_of_fmap.
  apply rows_of_inv in Hrows as (c & top & _ & _ & _ & ->).
  assert (row ∈ seq 0 (length (ids s))) as Hseq.
  { rewrite <- (three_sorts_perm s scores).
    eapply elem_of_sublist; [| apply slice_to_sublist].
    eapply elem_of_sublist; [exact Hrow | apply kept_sublist]. }
  apply elem_of_seq in Hseq as [_ Hlt]. cbn in Hlt.
  rewrite at_row_lookup. destruct (lookup_lt_is_Some_2 (ids s) row Hlt) as [x Hx].
  rewrite Hx. cbn. by eapply list_elem_of_lookup_2.
Qed.

(** *** A query without a letter *)

Lemma cmpsplits_no_word (names2 : list string) :
  cmpsplits jaro_winkler root4 [] names2 = Py.Ok NaN.
Proof. reflexivity. Qed.

Lemma mapM_result_const {A B} (f : A → Py.result B) (b : B) (l : list A) :
  (∀ x, f x = Py.Ok b) → mapM f l = Py.Ok (map (λ _, b) l).
Proof.
  intros Hf. induction l as [|x l IH]; [done |].
  cbn. rewrite Hf. cbn. rewrite IH. done.
Qed.

Lemma combined_no_word (s : searcher) (name : string) :
  use_textsim s = true → splitwords name = [] →
  ∃ c, combined s name = Py.Ok c ∧ Forall (λ x, x = NaN) c.
Proof.
  intros Hts Hw. unfold combined_scores. rewrite Hts.
  unfold score_jaro_winkler_split_names, cmdsplitsarray_split_names.
  rewrite Hw, (mapM_result_const _ NaN) by apply cmpsplits_no_word.
  cbn [mbind result_bind Py.bind]. eexists. split; [done |].
  generalize (score_nlp similarity s name). intros scores.
  generalize (split_names s). intros l. revert scores.
  induction l as [|w l IH]; intros [|x scores]; try constructor.
  - by destruct x.
  - apply IH.
Qed.

Lemma final_scores_nan (s : searcher) (t : Q) (c : list float) :
  Forall (λ x, x = NaN) c → Forall (λ x, x = NaN) (final_scores s t c).
Proof.
  unfold final_scores, subtract_penalty, apply_threshold.
  generalize (penalty s). intros pen Hc. revert pen.
  induction Hc as [|x c -> _ IH]; intros [|p pen]; try constructor; [done |].
  apply IH.
Qed.

Lemma cut_rows_nan (scores : list float) (n : Z) (r : Q) (rows : list nat) :
  Forall (λ x, x = NaN) scores → scores ≠ [] →
  cut_rows scores n r rows = Py.Ok [].
Proof.
  intros Hnan Hne. unfold cut_rows. destruct scores as [|x scores]; [done |].
  apply Forall_cons in Hnan as [-> Hnan]. cbn [array_max].
  assert (foldl maximum NaN scores = NaN) as ->.
  { clear Hne. induction Hnan as [|y l -> _ IH]; [done | apply IH]. }
  cbn [mbind result_bind Py.bind mul lift2]. f_equal.
  induction (slice_to n rows) as [|row l IH]; [done |].
  rewrite filter_cons. cbn [ltb]. by rewrite decide_False.
Qed.

Lemma call_no_word (ids0 names0 : list string) (use_nlp : bool)
  (s : searcher) (name : string) (n : Z) (t r : Q) :
  Searcher.__init__ ids0 names0 use_nlp true = Py.Ok s →
  normalizestring name ≠ "" →
  splitwords (normalizestring name) = [] →
  ids s ≠ [] →
  call s name n t r = Py.Ok ([], [], []).
Proof.
  intros Hinit Hname Hw Hids.
  pose proof (init_well_formed _ _ _ _ _ Hinit) as Hwf.
  pose proof (init_index _ _ _ _ _ Hinit) as (_ & _ & _ & _ & _ & Hts).
  destruct (combined_no_word s _ Hts Hw) as (c & Hc & Hnan).
  pose proof (final_scores_length s t c Hwf (combined_length _ _ _ _ _ _ Hwf Hc))
    as Hlen.
  unfold __call__, best_rows. rewrite (proj2 (String.eqb_neq _ _) Hname), Hc.
  cbn [mbind result_bind Py.bind]. fold (final_scores s t c).
  rewrite cut_rows_nan; [done | by apply final_scores_nan |].
  intros Hnil. rewrite Hnil in Hlen. by destruct (ids s).
Qed.

(** *** The responses of [NormalizedSearcher.__call__] *)

Lemma rescale_ok (scores : list float) :
  ∃ scores', NormalizedSearcher.rescale scores = Py.Ok scores'
             ∧ length scores' = length scores.
Proof.
  unfold NormalizedSearcher.rescale. destruct scores as [|x scores]; [by eexists |].
  cbn [length Nat.ltb Nat.leb array_max array_min mbind result_bind Py.bind].
  case_match; eexists; split; try done. by rewrite length_map.
Qed.

Lemma filter_unique (docs : list node) (d : node) :
  NoDup (map node_id docs) → d ∈ docs →
  filter (λ n, node_id n = node_id d) docs = [d].
Proof.
  induction docs as [|x docs IH]; [by intros _ ?%not_elem_of_nil |].
  cbn [map]. intros [Hx Hnd]%NoDup_cons Hd. rewrite filter_cons.
  destruct (decide (node_id x = node_id d)) as [Heq|Hne].
  - assert (d = x) as ->.
    { apply elem_of_cons in Hd as [->|Hd]; [done |]. exfalso. apply Hx.
      rewrite Heq. by apply list_elem_of_fmap_2. }
    f_equal. destruct (filter _ docs) as [|y l] eqn:Hf; [done |]. exfalso.
    assert (y ∈ filter (λ n, node_id n = node_id x) docs)
      as [Hy Hin]%list_elem_of_filter by (rewrite Hf; left).
    apply Hx. rewrite <- Hy. by apply list_elem_of_fmap_2.
  - apply IH; [done |]. apply elem_of_cons in Hd as [->|Hd]; done.
Qed.

Lemma lookup_unique (self : NormalizedSearcher.normalized_searcher) (d : node) :
  NoDup (map node_id (NormalizedSearcher.docs self)) →
  d ∈ NormalizedSearcher.docs self →
  NormalizedSearcher.lookup self (node_id d) = Py.Ok d.
Proof.
  intros Hnd Hd. unfold NormalizedSearcher.lookup. by rewrite filter_unique.
Qed.

(** On documents with distinct ids, the normalizer answers whenever the
    engine does, with records of the documents. *)
Lemma normalized_call_ok (self : NormalizedSearcher.normalized_searcher)
  (text : string) (max_results : Z) (threshold : Q)
  (out : list string * list string * list float) :
  NoDup (map node_id (NormalizedSearcher.docs self)) →
  ids (NormalizedSearcher.searcher self)
    ⊆ map node_id (NormalizedSearcher.docs self) →
  call (NormalizedSearcher.searcher self) text max_results threshold (8 # 10)
  = Py.Ok out →
  ∃ resp,
    NormalizedSearcher.__call__ similarity jaro_winkler root4 self text
      max_results threshold = Py.Ok resp
    ∧ Forall (λ r, NormalizedSearcher.resp_record r
                   ∈ NormalizedSearcher.docs self) resp.
Proof.
  intros Hnd Hsub Hcall. unfold NormalizedSearcher.__call__.
  pose proof (λ id, call_ids _ _ _ _ _ _ id Hcall) as Hids.
  rewrite Hcall. destruct out as [[ids1 names1] scores]. cbn [fst] in Hids.
  cbn [mbind result_bind Py.bind].
  destruct (rescale_ok scores) as (scores' & -> & _).
  cbn [mbind result_bind Py.bind].
  destruct (mapM_result_ok
              (λ p, obj ← NormalizedSearcher.lookup self p.1;
                    Py.Ok (NormalizedSearcher.buildResponse obj p.2))
              (zip ids1 scores')) as [resp Hresp].
  { apply Forall_forall. intros [id x] Hp. cbn [fst snd].
    assert (id ∈ ids1) as Hid.
    { apply list_elem_of_lookup in Hp as [k Hk].
      apply lookup_zip_with_Some in Hk as (a & b & [= <- <-] & Ha & _).
      by eapply list_elem_of_lookup_2. }
    apply Hids, Hsub, list_elem_of_fmap in Hid as (d & -> & Hd).
    rewrite (lookup_unique self d Hnd Hd). by eexists. }
  exists resp. split; [done |].
  apply mapM_result_Forall2 in Hresp. clear -Hresp.
  induction Hresp as [|p r l k Hpr _ IH]; constructor; [| done].
  destruct (NormalizedSearcher.lookup self p.1) as [obj|e] eqn:Hl; [| done].
  cbn in Hpr. injection Hpr as <-. cbn.
  by apply lookup_ok_inv in Hl as [? _].
Qed.

End SearchFacts.

(** ** Properties of the index and of the search *)

Section SearchProperties.

Import Float StringSimilarity Searcher Parser Registry Notions Taxonomy.

Variable validate : generic_tree → bool.
Variable similarity : string → string → Q.
Variable jaro_winkler : string → string → Q.
Variable root4 : Q → Q.

Lemma zip_map_both {A B C} (f : A → B) (h : A → C) (l : list A) :
  zip (map f l) (map h l) = map (λ x, (f x, h x)) l.
Proof. induction l as [|x l IH]; [done |]. cbn. by rewrite <- IH. Qed.

Lemma filter_none {A} (P : A → Prop) `{!∀ x, Decision (P x)} (l : list A) :
  (∀ x, x ∈ l → ¬ P x) → filter P l = [].
Proof.
  induction l as [|x l IH]; intros Hl; [done |].
  rewrite filter_cons, decide_False by (apply Hl; left).
  apply IH. intros y Hy. apply Hl. by right.
Qed.

(** The documents of the searcher of a taxonomy. *)
Lemma taxonomy_docs (g : generic_tree) (t : taxonomy) :
  Taxonomy.__init__ validate g = Py.Ok t →
  NoDup (map node_id (NormalizedSearcher.docs (_searcher t)))
  ∧ (∀ d, d ∈ NormalizedSearcher.docs (_searcher t)
          ↔ ∃ it, it ∈ gt_nodes g ∧ d = leaf_of it).
Proof.
  intros (Hb & _ & _ & Hdocs & _)%taxonomy_init.
  apply buildtree_assembled in Hb as (_ & Hacc & _ & Htree).
  rewrite Hdocs, Htree. split.
  - rewrite map_map. cbn. fold (forest_ids (assembled (gt_nodes g))).
    rewrite (assembled_ids _ Hacc). by apply first_offence_none in Hacc as (? & _).
  - intros d. split.
    + intros (n & -> & Hn)%list_elem_of_fmap.
      destruct (assembled_nodes _ Hacc n Hn) as (it & Hit & Hst).
      exists it. split; [done | by eapply stands_for_leaf].
    + intros (it & Hit & ->).
      destruct (assembled_find _ it Hacc Hit) as (n & Hn & Hst).
      rewrite <- (stands_for_leaf _ _ _ Hst). apply list_elem_of_fmap_2.
      by apply find_node_Some in Hn as [? _].
Qed.

(** X7. A search in a taxonomy made from a document never fails on the
    lookup of a result: when the name of at least one node of the list
    holds a letter after normalization, [search] returns, and every record
    it returns is a node of the list without children; when no name holds
    a letter the index is empty and every query that is not empty after
    normalization raises the [ValueError] of [scores.max()]. *)
Theorem search_answers_with_nodes_of_the_document (g : generic_tree)
  (t : taxonomy) (query : string) (max_results : Z) :
  Taxonomy.__init__ validate g = Py.Ok t →
  ((∃ it, it ∈ gt_nodes g ∧ splitwords (normalizestring (item_name it)) ≠ []) →
   ∃ resp,
     search similarity jaro_winkler root4 t query max_results = Py.Ok resp
     ∧ Forall (λ r, ∃ it, it ∈ gt_nodes g
                          ∧ NormalizedSearcher.resp_record r = leaf_of it) resp)
  ∧ ((∀ it, it ∈ gt_nodes g → splitwords (normalizestring (item_name it)) = []) →
     normalizestring query ≠ "" →
     search similarity jaro_winkler root4 t query max_results
     = Py.Raise (Py.ValueError Py.ZeroSizeReduction)).
Proof.
  intros Hinit. pose proof (taxonomy_docs g t Hinit) as [Hnd Hdocs].
  pose proof (taxonomy_init validate g t Hinit) as (_ & _ & _ & _ & Hs).
  set (self := _searcher t) in *.
  set (s := NormalizedSearcher.searcher self) in *.
  pose proof (init_well_formed _ _ _ _ _ Hs) as (_ & Hlen & _).
  pose proof (init_index _ _ _ _ _ Hs) as (_ & Hzip & _).
  rewrite map_map, zip_map_both in Hzip.
  destruct (call_returns similarity jaro_winkler root4 _ _ _ _ s query
              max_results (7 # 10) (8 # 10) Hs) as [Hsome Hnone].
  split.
  - intros (it & Hit & Hletters).
    assert (ids s ≠ []) as Hne.
    { intros Hnil.
      assert ((item_id it, normalizestring (item_name it))
              ∈ zip (ids s) (names s)) as Hin;
        [| rewrite Hnil in Hin; by apply not_elem_of_nil in Hin].
      rewrite Hzip. apply list_elem_of_filter. split; [done |].
      apply list_elem_of_fmap. exists (leaf_of it). split; [done |].
      apply Hdocs. by exists it. }
    destruct (Hsome Hne) as [out Hout].
    destruct (normalized_call_ok similarity jaro_winkler root4 self query
                max_results (7 # 10) out Hnd) as (resp & Hresp & Hrec);
      [| exact Hout |].
    { intros id Hid. eapply sublist_subseteq; [| exact Hid].
      by eapply init_ids_sublist. }
    exists resp. split; [exact Hresp |].
    eapply Forall_impl; [exact Hrec |]. intros r Hr. by apply Hdocs.
  - intros Hnoletters Hquery.
    assert (ids s = []) as Hnil.
    { assert (zip (ids s) (names s) = []) as Hz.
      { rewrite Hzip. apply filter_none.
        intros p (d & -> & Hd)%list_elem_of_fmap. cbn [snd].
        apply Hdocs in Hd as (it & Hit & ->). cbn [leaf_of node_name].
        intros Hw. by apply Hw, Hnoletters. }
      destruct (ids s), (names s); done. }
    unfold search, NormalizedSearcher.__call__. fold self s.
    by rewrite (Hnone Hnil Hquery).
Qed.

(** X12. With text similarity on, a query that holds no letter after
    normalization (digits, punctuation) matches nothing on an index that
    is not empty: the lexical score of every document is [nan], which
    [np.maximum] lets through whatever the semantic score is, and no
    comparison with [nan] holds. *)
Theorem query_without_letters_matches_nothing (ids0 names0 : list string)
  (use_nlp : bool) (s : searcher) (name : string) (n : Z) (t r : Q) :
  Searcher.__init__ ids0 names0 use_nlp true = Py.Ok s →
  normalizestring name ≠ "" →
  splitwords (normalizestring name) = [] →
  ids s ≠ [] →
  __call__ similarity jaro_winkler root4 s name n t r = Py.Ok ([], [], []).
Proof. apply call_no_word. Qed.

End SearchProperties.

(** X13. [Searcher.__init__] indexes the documents whose normalized name
    holds at least one word, in the order given, and leaves the others
    out: ids and normalized names stay paired, [split_names] holds the
    words of each indexed name, none of them empty, and the penalty of a
    row is 0.03 times [levels] of its id; ids and names of different
    lengths raise [IndexError]. *)
Theorem init_indexes_names_with_letters (ids0 names0 : list string)
  (use_nlp use_textsim0 : bool) :
  match Searcher.__init__ ids0 names0 use_nlp use_textsim0 with
  | Py.Ok s =>
      length ids0 = length names0
      ∧ zip (Searcher.ids s) (Searcher.names s)
        = filter (λ p, StringSimilarity.splitwords p.2 ≠ [])
            (zip ids0 (map Searcher.normalizestring names0))
      ∧ length (Searcher.names s) = length (Searcher.ids s)
      ∧ Searcher.split_names s
        = map StringSimilarity.splitwords (Searcher.names s)
      ∧ Forall (λ w, w ≠ []) (Searcher.split_names s)
      ∧ Searcher.penalty s
        = map (λ id, (3 # 100) * inject_Z (Z.of_nat (Searcher.levels id)))%Q
            (Searcher.ids s)
  | Py.Raise e => e = Py.IndexError ∧ length ids0 ≠ length names0
  end.
Proof.
  destruct (Searcher.__init__ ids0 names0 use_nlp use_textsim0) as [s|e] eqn:Hs.
  - pose proof (init_index _ _ _ _ _ Hs) as (Hlen & Hzip & Hsplit & Hpen & _).
    pose proof (init_well_formed _ _ _ _ _ Hs) as (_ & Hn & _).
    pose proof (init_split_names _ _ _ _ _ Hs) as Hne.
    done.
  - unfold Searcher.__init__ in Hs. rewrite !length_map in Hs.
    destruct (Nat.eqb_spec (length ids0) (length names0)); [done |].
    by injection Hs as <-.
Qed.

(** ** Words and normalized strings *)

Section Strings.

Import Float StringSimilarity Searcher Notions.

Lemma append_nil (b : string) : "" +:+ b = b.
Proof. reflexivity. Qed.

Lemma append_cons (x : ascii) (a b : string) :
  String x a +:+ b = String x (a +:+ b).
Proof. reflexivity. Qed.

Lemma string_app_assoc (a b c : string) : (a +:+ b) +:+ c = a +:+ (b +:+ c).
Proof.
  induction a as [|x a IH]; [done |]. rewrite !append_cons. by f_equal.
Qed.

Lemma string_app_nil_r (a : string) : a +:+ "" = a.
Proof. induction a as [|x a IH]; [done |]. rewrite append_cons. by f_equal. Qed.

Lemma only_letters_app (a b : string) :
  only_letters (a +:+ b) = only_letters a && only_letters b.
Proof.
  induction a as [|x a IH]; [done |]. rewrite append_cons.
  cbn [only_letters]. rewrite IH. by destruct (is_letter x).
Qed.

Lemma flush_word (w : string) : w ≠ "" → flush w = [w].
Proof. by destruct w. Qed.

Lemma flush_words (w : string) :
  only_letters w = true → Forall word (flush w).
Proof. destruct w; [constructor |]. intros Hw. by repeat constructor. Qed.

Lemma concat_flush (w : string) : String.concat "" (flush w) = w.
Proof. by destruct w. Qed.

Lemma concat_empty_cons (w : string) (l : list string) :
  String.concat "" (w :: l) = w +:+ String.concat "" l.
Proof.
  destruct l; [| reflexivity].
  change (String.concat "" [w]) with w. change (String.concat "" []) with "".
  by rewrite string_app_nil_r.
Qed.

Lemma concat_empty_app (l1 l2 : list string) :
  String.concat "" (l1 ++ l2) = String.concat "" l1 +:+ String.concat "" l2.
Proof.
  induction l1 as [|w l1 IH]; [done |].
  change ((w :: l1) ++ l2) with (w :: (l1 ++ l2)).
  by rewrite !concat_empty_cons, IH, string_app_assoc.
Qed.

Lemma split_from_words (name word0 : string) :
  only_letters word0 = true → Forall word (split_from word0 name).
Proof.
  revert word0. induction name as [|c name IH]; intros word0 Hw;
    cbn [split_from].
  - by apply flush_words.
  - destruct (is_letter c) eqn:Hc.
    + apply IH. rewrite only_letters_app, Hw. cbn [only_letters andb].
      by rewrite Hc.
    + apply Forall_app. split; [by apply flush_words | by apply IH].
Qed.

Lemma split_from_letters (name word0 : string) :
  String.concat "" (split_from word0 name) = word0 +:+ letters_of name.
Proof.
  revert word0. induction name as [|c name IH]; intros word0;
    cbn [split_from letters_of].
  - by rewrite concat_flush, string_app_nil_r.
  - destruct (is_letter c).
    + by rewrite IH, string_app_assoc, append_cons, append_nil.
    + by rewrite concat_empty_app, concat_flush, IH, append_nil.
Qed.

(** Reading a word, then the rest. *)
Lemma split_from_app (w rest word0 : string) :
  only_letters w = true →
  split_from word0 (w +:+ rest) = split_from (word0 +:+ w) rest.
Proof.
  revert word0. induction w as [|c w IH]; intros word0.
  - by rewrite append_nil, string_app_nil_r.
  - cbn [only_letters]. intros [Hc Hw]%andb_prop.
    rewrite append_cons. cbn [split_from]. rewrite Hc, IH by done.
    by rewrite string_app_assoc, append_cons, append_nil.
Qed.

Lemma splitwords_joined (c : ascii) (ws : list string) :
  is_letter c = false → Forall word ws →
  splitwords (String.concat (String c "") ws) = ws.
Proof.
  intros Hc. unfold splitwords. induction 1 as [|w ws [Hne Hw] Hws IH]; [done |].
  destruct ws as [|w' ws].
  - change (String.concat (String c "") [w]) with w.
    rewrite <- (string_app_nil_r w) at 1.
    rewrite split_from_app, append_nil by done. cbn [split_from].
    by apply flush_word.
  - change (String.concat (String c "") (w :: w' :: ws))
      with (w +:+ String c "" +:+ String.concat (String c "") (w' :: ws)).
    rewrite split_from_app, append_nil, append_cons, append_nil by done.
    cbn [split_from]. rewrite Hc, IH. by rewrite flush_word.
Qed.

(** *** [normalizestring] *)

Lemma casefold_normal (c : ascii) :
  (128 <=? nat_of_ascii c)%nat || Ascii.eqb c "-"%char = false →
  (128 <=? nat_of_ascii (casefold c))%nat || Ascii.eqb (casefold c) "-"%char
  = false
  ∧ casefold (casefold c) = casefold c
  ∧ normal_char (casefold c).
Proof.
  destruct c as [[|] [|] [|] [|] [|] [|] [|] [|]]; vm_compute;
    intros H; try discriminate H; (split; [reflexivity |]);
    (split; [reflexivity |]); (split; [lia |]); (split; [discriminate | lia]).
Qed.

Lemma normalizestring_idem (s : string) :
  normalizestring (normalizestring s) = normalizestring s.
Proof.
  induction s as [|c s IH]; [done |]. cbn [normalizestring].
  destruct ((128 <=? nat_of_ascii c)%nat || Ascii.eqb c "-"%char) eqn:Hc; [done |].
  destruct (casefold_normal c Hc) as (Hc' & Hfold & _).
  cbn [normalizestring]. by rewrite Hc', Hfold, IH.
Qed.

Lemma normalizestring_chars (s : string) :
  Forall normal_char (chars (normalizestring s)).
Proof.
  induction s as [|c s IH]; [constructor |]. cbn [normalizestring].
  destruct ((128 <=? nat_of_ascii c)%nat || Ascii.eqb c "-"%char) eqn:Hc; [done |].
  cbn [chars]. constructor; [| done]. by apply casefold_normal.
Qed.

Lemma normalizestring_length (s : string) :
  (String.length (normalizestring s) ≤ String.length s)%nat.
Proof.
  induction s as [|c s IH]; [done |]. cbn [normalizestring].
  destruct (_ || _); cbn; lia.
Qed.

(** A string of normal characters is left as it is. *)
Lemma normalizestring_fixed (s : string) :
  Forall normal_char (chars s) → normalizestring s = s.
Proof.
  induction s as [|c s IH]; [done |]. cbn [chars normalizestring].
  intros [Hc Hs]%Forall_cons. rewrite (IH Hs).
  destruct Hc as (Hlt & Hdash & Hup).
  assert ((128 <=? nat_of_ascii c)%nat = false) as -> by (apply Nat.leb_gt; lia).
  assert (Ascii.eqb c "-"%char = false) as -> by by apply Ascii.eqb_neq.
  cbn [orb]. f_equal. unfold casefold.
  destruct (Nat.leb_spec 65 (nat_of_ascii c)), (Nat.leb_spec (nat_of_ascii c) 90);
    cbn [andb]; try done. lia.
Qed.

(** X14. [splitwords] yields the maximal runs of letters of the name, in
    their order: every word it yields is a non-empty string of letters,
    the words put together are the letters of the name, and words joined
    by a character that is not a letter are given back as they were; the
    docstring example is computed as documented. *)
Theorem splitwords_yields_the_runs_of_letters :
  (∀ name, Forall word (splitwords name)
           ∧ String.concat "" (splitwords name) = letters_of name)
  ∧ (∀ c ws, is_letter c = false → Forall word ws →
             splitwords (String.concat (String c "") ws) = ws)
  ∧ splitwords "uafygwe#;3! (iuf) hui :)" = ["uafygwe"; "iuf"; "hui"].
Proof.
  split; [| split; [apply splitwords_joined | reflexivity]].
  intros name. split; [by apply split_from_words | apply split_from_letters].
Qed.

(** X16. [normalizestring] is idempotent: its result holds only
    characters below 128 that are neither "-" nor an upper-case letter,
    such a string is left as it is, and the result is never longer than
    the argument. *)
Theorem normalizestring_is_idempotent (s : string) :
  normalizestring (normalizestring s) = normalizestring s
  ∧ Forall normal_char (chars (normalizestring s))
  ∧ (∀ s', Forall normal_char (chars s') → normalizestring s' = s')
  ∧ (String.length (normalizestring s) ≤ String.length s)%nat.
Proof.
  split; [apply normalizestring_idem |].
  split; [apply normalizestring_chars |].
  split; [apply normalizestring_fixed | apply normalizestring_length].
Qed.

(** X17. [cmpsplits] answers [nan] when the query has no word, raises the
    [ValueError] of [max] on an empty sequence when the query has a word
    and the document has none, and answers a number in every other
    case. *)
Theorem cmpsplits_edge_cases (f2 : string → string → Q) (root4 : Q → Q)
  (names1 names2 : list string) :
  match cmpsplits f2 root4 names1 names2 with
  | Py.Ok NaN => names1 = []
  | Py.Ok (Fin _) => names1 ≠ [] ∧ names2 ≠ []
  | Py.Raise e =>
      e = Py.ValueError Py.EmptySequence ∧ names1 ≠ [] ∧ names2 = []
  end.
Proof.
  destruct names1 as [|n names1]; [done |].
  destruct names2 as [|c names2]; [done |].
  unfold cmpsplits.
  destruct (mapM_result_ok (λ n0, max_of (map (f2 n0) (c :: names2)))
              (n :: names1)) as [a Ha].
  { apply Forall_forall. intros x _. by eexists. }
  rewrite Ha. cbn [mbind result_bind Py.bind].
  apply mapM_result_length in Ha. destruct a as [|x a]; [done |]. done.
Qed.

End Strings.

(** ** The class [Registry] *)

Section RegistryFacts.

Import Exc Parser Notions Taxonomy TaxonomyRegistry.

Variable validate : generic_tree → bool.

#[local] Instance string_le_trans : Transitive string_le.
Proof. intros a b c. apply string_leb_trans. Qed.

#[local] Instance string_le_total : Total string_le.
Proof. intros a b. unfold string_le. destruct (String.leb_total a b); auto. Qed.

Lemma sorted_keys_elem {A} (d : gmap string A) (x : string) :
  x ∈ sorted_keys d ↔ is_Some (d !! x).
Proof.
  unfold sorted_keys. rewrite merge_sort_Permutation, elem_of_elements.
  apply elem_of_dom.
Qed.

Lemma sorted_keys_sorted {A} (d : gmap string A) :
  StronglySorted string_le (sorted_keys d).
Proof. apply StronglySorted_merge_sort; apply _. Qed.

Lemma sorted_keys_NoDup {A} (d : gmap string A) : NoDup (sorted_keys d).
Proof. unfold sorted_keys. rewrite merge_sort_Permutation. apply NoDup_elements. Qed.

Lemma sorted_keys_nil {A} (d : gmap string A) : sorted_keys d = [] ↔ d = ∅.
Proof.
  split.
  - intros Hnil. apply map_empty. intros x.
    destruct (d !! x) eqn:Hx; [| done]. exfalso.
    assert (x ∈ sorted_keys d) as Hin by (apply sorted_keys_elem; by eexists).
    rewrite Hnil in Hin. by apply not_elem_of_nil in Hin.
  - intros ->. destruct (sorted_keys (∅ : gmap string A)) as [|x l] eqn:Hs; [done |].
    assert (x ∈ sorted_keys (∅ : gmap string A)) as Hin by (rewrite Hs; left).
    apply sorted_keys_elem in Hin as [? Hin]. by rewrite lookup_empty in Hin.
Qed.

Lemma sorted_last (l : list string) (m : string) :
  StronglySorted string_le l → last l = Some m →
  m ∈ l ∧ ∀ x, x ∈ l → string_le x m.
Proof.
  induction 1 as [|a l Hl IH Ha]; [done |]. destruct l as [|b l].
  - intros [= <-]. split; [left |]. intros x ->%list_elem_of_singleton.
    destruct (string_le_total a a); done.
  - rewrite last_cons_cons. intros Hm. destruct (IH Hm) as [Hin Hmax].
    split; [by right |]. intros x [->|Hx]%elem_of_cons; [| by apply Hmax].
    by eapply Forall_forall in Ha.
Qed.

Lemma truthy_spec (s : string) : truthy s = true ↔ s ≠ "".
Proof. by destruct s. Qed.

Lemma get_versioned (self : registry) (id version : string)
  (versions : gmap string taxonomy) :
  _taxonomies self !! id = Some versions → version ≠ "" →
  get self id version
  = match versions !! version with
    | Some t => Return t
    | None => Throw (VersionDoesNotExist version id)
    end.
Proof.
  intros Hid Hv. unfold get. rewrite Hid.
  rewrite (proj2 (truthy_spec version) Hv). cbn [andb].
  destruct (versions !! version) as [t|] eqn:Ht.
  - rewrite bool_decide_eq_true_2 by (apply elem_of_dom; by eexists).
    cbn [negb mbind outcome_bind Exc.bind]. by rewrite Ht.
  - rewrite bool_decide_eq_false_2; [done |].
    intros [? Hin]%elem_of_dom. congruence.
Qed.

Lemma get_latest (self : registry) (id : string)
  (versions : gmap string taxonomy) :
  _taxonomies self !! id = Some versions →
  match last (sorted_keys versions) with
  | None => versions = ∅ ∧ get self id "" = Throw NoVersion
  | Some v =>
      ∃ t, get self id "" = Return t ∧ versions !! v = Some t
           ∧ ∀ v', is_Some (versions !! v') → String.leb v' v = true
  end.
Proof.
  intros Hid. unfold get. rewrite Hid. cbn [truthy andb].
  destruct (last (sorted_keys versions)) as [v|] eqn:Hlast.
  - destruct (sorted_last _ v (sorted_keys_sorted versions) Hlast) as [Hin Hmax].
    apply sorted_keys_elem in Hin as [t Ht]. exists t.
    cbn [mbind outcome_bind Exc.bind]. rewrite Ht. do 2 (split; [done |]).
    intros v' Hv'. by apply Hmax, sorted_keys_elem.
  - split; [| done]. apply sorted_keys_nil.
    by destruct (sorted_keys versions) using rev_ind;
      [| rewrite last_snoc in Hlast].
Qed.

(** X18. [Registry.get] raises a [ValueError] for a name that is not
    registered and for a version, when one is given, that is not
    registered under the name; with a version it returns the taxonomy
    registered under it, and without one the taxonomy under the greatest
    registered version in the order of strings. *)
Theorem get_returns_the_latest_version (self : registry) (id version : string) :
  match _taxonomies self !! id with
  | None => get self id version = Throw (TaxonomyDoesNotExist id)
  | Some versions =>
      (version ≠ "" →
       get self id version
       = match versions !! version with
         | Some t => Return t
         | None => Throw (VersionDoesNotExist version id)
         end)
      ∧ (versions ≠ ∅ →
         ∃ v t, get self id "" = Return t ∧ versions !! v = Some t
                ∧ ∀ v', is_Some (versions !! v') → String.leb v' v = true)
      ∧ (versions = ∅ → get self id "" = Throw NoVersion)
  end.
Proof.
  destruct (_taxonomies self !! id) as [versions|] eqn:Hid;
    [| unfold get; by rewrite Hid].
  split; [by apply get_versioned |].
  pose proof (get_latest self id versions Hid) as Hlatest.
  destruct (last (sorted_keys versions)) as [v|].
  - destruct Hlatest as (t & Hget & Ht & Hmax). split.
    + intros _. by exists v, t.
    + intros ->. by rewrite lookup_empty in Ht.
  - destruct Hlatest as [-> Hget]. split; [done | by intros _].
Qed.

(** X20. [available_taxonomies] lists under every registered name its
    versions in the order of strings, each once, and lists exactly the
    versions that [get] serves for the name; for a name that it does not
    list [get] raises whatever the version. *)
Theorem available_taxonomies_lists_what_get_serves (self : registry)
  (id : string) :
  match (available_taxonomies self).2 !! id with
  | None => ∀ v, get self id v = Throw (TaxonomyDoesNotExist id)
  | Some versions =>
      StronglySorted (λ a b, String.leb a b = true) versions
      ∧ NoDup versions
      ∧ ∀ v, v ≠ "" → (v ∈ versions ↔ ∃ t, get self id v = Return t)
  end.
Proof.
  unfold available_taxonomies. cbn [snd]. rewrite lookup_fmap.
  destruct (_taxonomies self !! id) as [versions|] eqn:Hid; cbn.
  - split; [apply sorted_keys_sorted |]. split; [apply sorted_keys_NoDup |].
    intros v Hv. rewrite (get_versioned self id v versions Hid Hv).
    rewrite sorted_keys_elem. destruct (versions !! v) as [t|].
    + split; [by eexists | by eexists].
    + split; [by intros [? ?] | by intros [? ?]].
  - intros v. unfold get. by rewrite Hid.
Qed.

(** *** Loading *)

Lemma registered_insert (taxonomies : gmap string (gmap string taxonomy))
  (t : taxonomy) (id v : string) :
  registered
    (<[name t := <[version t := t]> (default ∅ (taxonomies !! name t))]>
       taxonomies) id v
  = if decide (name t = id ∧ version t = v) then Some t
    else registered taxonomies id v.
Proof.
  unfold registered.
  destruct (decide (name t = id)) as [<-|Hid].
  - rewrite lookup_insert_eq. cbn [mbind option_bind].
    destruct (decide (version t = v)) as [<-|Hv].
    + rewrite lookup_insert_eq. by rewrite decide_True.
    + rewrite lookup_insert_ne by done. rewrite decide_False by naive_solver.
      by destruct (taxonomies !! name t).
  - rewrite lookup_insert_ne by done. by rewrite decide_False by naive_solver.
Qed.

Lemma loaded_fields (data : generic_tree) (t : taxonomy) :
  Taxonomy.__init__ validate data = Py.Ok t →
  name t = gt_name data ∧ version t = gt_version data.
Proof. by intros (_ & ? & ? & _)%taxonomy_init. Qed.

Lemma last_filter_cons {A} (P : A → Prop) `{!∀ x, Decision (P x)}
  (x : A) (l : list A) :
  last (filter P (x :: l))
  = match last (filter P l) with
    | Some y => Some y
    | None => if decide (P x) then Some x else None
    end.
Proof.
  rewrite filter_cons. case_decide; [| by destruct (last _)].
  destruct (filter P l) as [|y k]; [done |]. rewrite last_cons_cons.
  destruct (last (y :: k)) eqn:Hl; [done |].
  by destruct k using rev_ind; [| rewrite app_comm_cons, last_snoc in Hl].
Qed.

Lemma register_spec (documents : list generic_tree)
  (taxonomies : gmap string (gmap string taxonomy)) :
  match register validate taxonomies documents with
  | Return T =>
      (∀ id v,
         registered T id v
         = match last (filter (carries id v) documents) with
           | Some data => loaded validate data
           | None => registered taxonomies id v
           end)
      ∧ Forall (λ data, is_Some (loaded validate data)) documents
      ∧ (∀ id versions, T !! id = Some versions → versions = ∅ →
                        taxonomies !! id = Some ∅)
  | Throw e =>
      ∃ before data after e',
        documents = before ++ data :: after
        ∧ e = Loading e'
        ∧ Taxonomy.__init__ validate data = Py.Raise e'
        ∧ Forall (λ data, is_Some (loaded validate data)) before
  end.
Proof.
  revert taxonomies. induction documents as [|data rest IH]; intros taxonomies.
  { cbn. split; [done |]. split; [constructor |]. by intros id versions -> ->. }
  cbn [register].
  destruct (Taxonomy.__init__ validate data) as [t|e'] eqn:Ht.
  - destruct (loaded_fields data t Ht) as [Hname Hversion].
    specialize (IH (<[name t := <[version t := t]>
                                   (default ∅ (taxonomies !! name t))]>
                      taxonomies)).
    destruct (register validate _ rest) as [T|e].
    + destruct IH as (Hreg & Hall & Hne). split; [| split].
      * intros id v. rewrite Hreg, last_filter_cons, registered_insert.
        destruct (last (filter (carries id v) rest)); [done |].
        destruct (decide (carries id v data)) as [[Hn Hv]|Hc].
        -- unfold loaded. rewrite Ht, decide_True; [done |]. split; congruence.
        -- rewrite decide_False; [done |]. intros [Hn Hv].
           apply Hc. split; congruence.
      * constructor; [| done]. unfold loaded. rewrite Ht. by eexists.
      * intros id versions Hid Hempty. specialize (Hne id versions Hid Hempty).
        destruct (decide (name t = id)) as [<-|Hneq].
        -- rewrite lookup_insert_eq in Hne. injection Hne as Hne.
           exfalso. by apply (insert_non_empty _ _ _ Hne).
        -- by rewrite lookup_insert_ne in Hne.
    + destruct IH as (before & d & after & e0 & -> & -> & Hd & Hbefore).
      exists (data :: before), d, after, e0. do 3 (split; [done |]).
      constructor; [| done]. unfold loaded. rewrite Ht. by eexists.
  - exists [], data, rest, e'. repeat split; try done.
Qed.

(** X19. [_parse_data_sources] loads the documents in their order and
    stops at the first one that [Taxonomy] refuses, with its exception;
    when all load, the taxonomy registered under a name and a version is
    the one of the last document that carries them, nothing else is
    registered, and no name is left without a version. *)
Theorem parse_data_sources_keeps_the_last_document
  (documents : list generic_tree) :
  match _parse_data_sources validate documents with
  | Return T =>
      (∀ id v,
         registered T id v
         = match last (filter (carries id v) documents) with
           | Some data => loaded validate data
           | None => None
           end)
      ∧ Forall (λ data, is_Some (loaded validate data)) documents
      ∧ (∀ id versions, T !! id = Some versions → versions ≠ ∅)
  | Throw e =>
      ∃ before data after e',
        documents = before ++ data :: after
        ∧ e = Loading e'
        ∧ Taxonomy.__init__ validate data = Py.Raise e'
        ∧ Forall (λ data, is_Some (loaded validate data)) before
  end.
Proof.
  unfold _parse_data_sources.
  pose proof (register_spec documents ∅) as Hspec.
  destruct (register validate ∅ documents) as [T|e]; [| done].
  destruct Hspec as (Hreg & Hall & Hne). split; [| split; [done |]].
  - intros id v. rewrite Hreg. destruct (last _); [done |].
    unfold registered. by rewrite lookup_empty.
  - intros id versions Hid Hempty. specialize (Hne id versions Hid Hempty).
    by rewrite lookup_empty in Hne.
Qed.

(** X21. A registry made from documents serves each of them: [get] with
    the name and the (non-empty) version of a document returns a taxonomy
    with that name and version, and [get] with the name alone returns a
    taxonomy of that name whose version is the greatest, in the order of
    strings, of the versions of the documents with the name. *)
Theorem loaded_registry_serves_every_document (now : Z)
  (documents : list generic_tree) (self : registry) (data : generic_tree) :
  TaxonomyRegistry.__init__ validate now documents = Return self →
  data ∈ documents →
  (gt_version data ≠ "" →
   ∃ t, get self (gt_name data) (gt_version data) = Return t
        ∧ name t = gt_name data ∧ version t = gt_version data)
  ∧ ∃ t, get self (gt_name data) "" = Return t
         ∧ name t = gt_name data
         ∧ (∃ d, d ∈ documents ∧ gt_name d = gt_name data
                 ∧ gt_version d = version t)
         ∧ ∀ d, d ∈ documents → gt_name d = gt_name data →
                String.leb (gt_version d) (version t) = true.
Proof.
  unfold TaxonomyRegistry.__init__, _parse_data_sources.
  pose proof (register_spec documents ∅) as Hspec.
  destruct (register validate ∅ documents) as [T|e]; [| done].
  cbn [mbind outcome_bind Exc.bind]. intros [= <-] Hdata.
  destruct Hspec as (Hreg & Hall & Hne).
  assert (∀ d, d ∈ documents →
               ∃ t, registered T (gt_name d) (gt_version d) = Some t
                    ∧ name t = gt_name d ∧ version t = gt_version d) as Hdoc.
  { intros d Hd. rewrite Hreg.
    destruct (last (filter (carries (gt_name d) (gt_version d)) documents))
      as [d'|] eqn:Hlast.
    - assert (d' ∈ filter (carries (gt_name d) (gt_version d)) documents)
        as [[Hn Hv] Hd']%list_elem_of_filter.
      { apply last_Some in Hlast as [l ->]. apply elem_of_app. right. left. }
      eapply Forall_forall in Hall; [| exact Hd']. unfold loaded in *.
      destruct (Taxonomy.__init__ validate d') as [t|] eqn:Ht;
        [| by destruct Hall].
      exists t. split; [done |].
      destruct (loaded_fields d' t Ht) as [-> ->]. done.
    - exfalso. apply last_None in Hlast.
      assert (d ∈ filter (carries (gt_name d) (gt_version d)) documents) as Hin
        by (apply list_elem_of_filter; by split).
      rewrite Hlast in Hin. by apply not_elem_of_nil in Hin. }
  assert (∀ id v t, registered T id v = Some t →
                    name t = id ∧ version t = v
                    ∧ ∃ d, d ∈ documents ∧ gt_name d = id ∧ gt_version d = v)
    as Hback.
  { intros id v t. rewrite Hreg.
    destruct (last (filter (carries id v) documents)) as [d'|] eqn:Hlast.
    - assert (d' ∈ filter (carries id v) documents)
        as [[Hn Hv] Hd']%list_elem_of_filter.
      { apply last_Some in Hlast as [l ->]. apply elem_of_app. right. left. }
      unfold loaded. destruct (Taxonomy.__init__ validate d') as [t'|] eqn:Ht;
        [| done].
      intros [= <-]. destruct (loaded_fields d' t' Ht) as [-> ->].
      do 2 (split; [done |]). by exists d'.
    - unfold registered. by rewrite lookup_empty. }
  destruct (Hdoc data Hdata) as (t & Ht & Hname & Hversion).
  unfold registered in Ht.
  destruct (T !! gt_name data) as [versions|] eqn:Hid; [| done].
  cbn [mbind option_bind] in Ht. split.
  - intros Hv. exists t.
    rewrite (get_versioned (Registry T now) _ _ versions Hid Hv), Ht. done.
  - pose proof (get_latest (Registry T now) (gt_name data) versions Hid)
      as Hlatest.
    destruct (last (sorted_keys versions)) as [v|].
    + destruct Hlatest as (t' & Hget & Ht' & Hmax). exists t'.
      split; [done |].
      destruct (Hback (gt_name data) v t') as (Hn & Hv & d & Hd & Hdn & Hdv).
      { unfold registered. by rewrite Hid. }
      split; [done |]. split; [exists d; by rewrite Hv |].
      intros d' Hd' Hn'. rewrite Hv. apply Hmax.
      destruct (Hdoc d' Hd') as (t'' & Ht'' & _).
      unfold registered in Ht''. rewrite Hn', Hid in Ht''. by eexists.
    + destruct Hlatest as [-> _]. by rewrite lookup_empty in Ht.
Qed.

End RegistryFacts.

(** * Concrete runs *)

Section Runs.

Import Float Parser Registry Notions.

(** ** Where the code departs from the specification *)

(** A record named "Uncategorized" that is not the first one with the id
    is not preferred: the lookup fails. *)
Lemma lookup_uncategorized_not_first :
  NormalizedSearcher.__init__ (NormalizedSearcher.docs uncategorized_second)
    true true = Py.Ok uncategorized_second
  ∧ matches uncategorized_second "0"
    = [leaf "0" "Unspecified"; leaf "0" "Uncategorized"]
  ∧ NormalizedSearcher.lookup uncategorized_second "0"
    = Py.Raise Py.AssertionError.
Proof. repeat split; vm_compute; reflexivity. Qed.

(** A list in which two nodes share an id fails with the unknown-parent
    error when a node with an undeclared parent comes first, and a list
    with an undeclared parent fails with the duplicate-id error when the
    shared id comes first. *)
Lemma first_offending_node_decides :
  shares_id unknown_then_duplicate
  ∧ buildtree accept_all (GenericTree "t" "1" unknown_then_duplicate)
    = Py.Raise (Py.ValueError (Py.UnknownParentId "zz"))
  ∧ ¬ fails_with_duplicate
        (buildtree accept_all (GenericTree "t" "1" unknown_then_duplicate))
  ∧ undeclared_parent duplicate_then_unknown
  ∧ buildtree accept_all (GenericTree "t" "1" duplicate_then_unknown)
    = Py.Raise (Py.ValueError (Py.DuplicateItemId "b"))
  ∧ ¬ fails_with_unknown_parent
        (buildtree accept_all (GenericTree "t" "1" duplicate_then_unknown)).
Proof.
  split; [| split; [| split; [| split; [| split]]]].
  - exists 1, 2, (Item "b" "B" None None), (Item "b" "B2" None None).
    repeat split. lia.
  - vm_compute. reflexivity.
  - intros [id Hid]. vm_compute in Hid. discriminate.
  - exists 2, (Item "a" "A" (Some "zz") None), "zz". repeat split.
    vm_compute. intros Hin.
    repeat (apply elem_of_cons in Hin as [Hin|Hin]; [discriminate |]).
    by apply not_elem_of_nil in Hin.
  - vm_compute. reflexivity.
  - intros [p Hp]. vm_compute in Hp. discriminate.
Qed.

(** The metadata of a node does not come back. *)
Lemma metadata_not_preserved :
  well_formed_tree with_metadata
  ∧ ∃ g, dump_to_generic_file with_metadata "taxonomy" "version" = Some g
         ∧ buildtree accept_all g = Py.Ok [leaf "0" "Zero"]
         ∧ [leaf "0" "Zero"] ≠ with_metadata.
Proof.
  split.
  - split; [vm_compute; repeat constructor; by apply not_elem_of_nil |].
    intros t Ht. vm_compute in Ht.
    apply list_elem_of_singleton in Ht as ->. done.
  - eexists. split; [vm_compute; reflexivity |].
    split; [vm_compute; reflexivity | discriminate].
Qed.

End Runs.

(** ** The properties at concrete inputs *)

Section Witnesses.

Import Float Parser Registry Notions.

Ltac elem_cases H :=
  repeat (apply elem_of_cons in H as [H|H]; [try subst |]);
  [.. | by apply not_elem_of_nil in H].


Lemma duplicate_checked_before_parent_witness :
  is_Some (nodes (Builder ["b"] {["b" := Cell "B" None []]}) !! "b")
  ∧ effective_parent (Item "b" "B2" (Some "zz") None) = Some "zz"
  ∧ nodes (Builder ["b"] {["b" := Cell "B" None []]}) !! "zz" = None
  ∧ _append (Builder ["b"] {["b" := Cell "B" None []]})
      (Item "b" "B2" (Some "zz") None)
    = Py.Raise (Py.ValueError (Py.DuplicateItemId "b")).
Proof.
  assert (is_Some (nodes (Builder ["b"] {["b" := Cell "B" None []]}) !! "b"))
    as H1 by (eexists; vm_compute; reflexivity).
  assert (effective_parent (Item "b" "B2" (Some "zz") None) = Some "zz")
    as H2 by reflexivity.
  assert (nodes (Builder ["b"] {["b" := Cell "B" None []]}) !! "zz" = None)
    as H3 by (vm_compute; reflexivity).
  do 3 (split; [done |]).
  exact (proj1 (duplicate_checked_before_parent accept_all)
           (Builder ["b"] {["b" := Cell "B" None []]})
           (Item "b" "B2" (Some "zz") None) "zz" H1 H2 H3).
Defined.

Lemma buildtree_rejects_duplicates_and_forward_references_witness :
  accept_all (GenericTree "t" "1" [Item "b" "B" None None; Item "b" "B2" None None])
  = true
  ∧ shares_id [Item "b" "B" None None; Item "b" "B2" None None]
  ∧ ¬ undeclared_parent [Item "b" "B" None None; Item "b" "B2" None None]
  ∧ fails_with_duplicate
      (buildtree accept_all
         (GenericTree "t" "1" [Item "b" "B" None None; Item "b" "B2" None None])).
Proof.
  assert (shares_id [Item "b" "B" None None; Item "b" "B2" None None]) as Hs.
  { exists 0, 1, (Item "b" "B" None None), (Item "b" "B2" None None).
    repeat split. lia. }
  assert (¬ undeclared_parent [Item "b" "B" None None; Item "b" "B2" None None])
    as Hu.
  { intros (j & b & p & Hj & Hb & _).
    destruct j as [|[|j]]; cbn in Hj; try discriminate;
      injection Hj as <-; discriminate. }
  split; [reflexivity |]. do 2 (split; [done |]).
  exact (proj1 (proj2 (buildtree_rejects_duplicates_and_forward_references
                         accept_all (GenericTree "t" "1" _) eq_refl)) Hs Hu).
Defined.

Lemma lookup_prefers_leading_uncategorized_witness :
  matches uncategorized_first "0"
  = [leaf "0" "Uncategorized"; leaf "0" "Unspecified"]
  ∧ NormalizedSearcher.lookup uncategorized_first "0"
    = Py.Ok (leaf "0" "Uncategorized").
Proof.
  assert (matches uncategorized_first "0"
          = [leaf "0" "Uncategorized"; leaf "0" "Unspecified"]) as H
    by (vm_compute; reflexivity).
  split; [exact H |].
  exact (proj1 (lookup_prefers_leading_uncategorized _ _ _ _ _ H) eq_refl).
Defined.

Lemma get_ancestors_nearest_to_root_witness :
  NoDup (forest_ids (example_tree "a" "b" "c" "d" "e"))
  ∧ _get_ancestors (example_tree "a" "b" "c" "d" "e") "3"
    = ancestors (example_tree "a" "b" "c" "d" "e") "3".
Proof.
  assert (NoDup (forest_ids (example_tree "a" "b" "c" "d" "e"))) as H.
  { vm_compute. repeat (constructor; [intros Hin; elem_cases Hin; discriminate |]).
    constructor. }
  split; [exact H |].
  exact (proj2 (proj1 get_ancestors_nearest_to_root _ "3" H)).
Defined.

Lemma call_orders_by_score_name_id_witness :
  Searcher.__call__ no_similarity exact_match root4_01 four_documents "b" 20
    (7 # 10) (8 # 10) = Py.Ok four_results
  ∧ StronglySorted ranks_before (entries four_results).
Proof.
  assert (Searcher.__call__ no_similarity exact_match root4_01 four_documents
            "b" 20 (7 # 10) (8 # 10) = Py.Ok four_results) as H
    by (vm_compute; reflexivity).
  split; [exact H |].
  exact (proj2 (call_orders_by_score_name_id _ _ _ _ _ _ _ _ _ H)).
Defined.


Lemma returned_scores_are_penalty_adjusted_witness :
  exact_match "b" "b" = 1%Q
  ∧ root4_01 1 = 1%Q
  ∧ ∃ s, Searcher.__init__ ["b"] ["b"] true true = Py.Ok s
         ∧ Searcher.__call__ no_similarity exact_match root4_01 s "b" 20 1 (8 # 10)
           = Py.Ok (["b"], ["b"], [Fin (97 # 100)])
         ∧ (97 # 100 < 1)%Q.
Proof.
  do 2 (split; [reflexivity |]).
  destruct (proj2 (returned_scores_are_penalty_adjusted no_similarity exact_match
                     root4_01) eq_refl eq_refl) as (s & Hs & Hcall & Hlt & _).
  by exists s.
Defined.


Lemma dump_then_buildtree_witness :
  well_formed_tree zero_one_two
  ∧ zero_one_two ≠ []
  ∧ ∃ g, dump_to_generic_file zero_one_two "taxonomy" "version" = Some g
         ∧ buildtree accept_all g = Py.Ok zero_one_two.
Proof.
  assert (well_formed_tree zero_one_two) as H1.
  { split.
    - vm_compute. repeat (constructor; [intros Hin; elem_cases Hin; discriminate |]).
      constructor.
    - intros t Ht. vm_compute in Ht. elem_cases Ht; split; discriminate. }
  assert (zero_one_two ≠ []) as H2 by discriminate.
  do 2 (split; [done |]).
  destruct (dump_then_buildtree accept_all zero_one_two "taxonomy" "version" H1 H2)
    as (g & Hg & Hbuild & _ & _ & _); [done |].
  exists g. split; [exact Hg |]. rewrite Hbuild. reflexivity.
Defined.

End Witnesses.
